(** * AndroidEnv: the episode lifecycle of [android_env/android_env.py]

    A shallow embedding of the class [AndroidEnv] and the properties of its
    reset/step state machine, its telemetry dictionary, its task-extras
    accessor and its shutdown path.

    Conventions of the embedding.
    - Python dictionaries are [gmap string _]; where iteration order is
      observable (which exception comes first) the items are a list.
    - Python numbers are the rationals [Qc] they denote: the counters hold
      integers, rewards are passed through, and the quotient of two
      numbers is rounded to the nearest double ([float.round]), as the
      division of two Python floats is.
    - A method is a computation in the monad [M]: it threads the object's
      attributes and the log of calls made to the collaborators, and it
      ends by returning a value or by raising an exception, in which case
      the attributes written so far stay written.
    - The collaborators (coordinator, task manager) are not part of the
      file: what they answer during one public call is an argument
      ([Responses]) of that call, what they are asked is recorded. *)

From Stdlib Require Import ZArith QArith Qround Qpower Qcanon Qcabs Lqa Lia.
From Stdlib Require Import String List.
From Stdlib Require SpecFloat.
From stdpp Require Import base tactics option list strings gmap fin_maps.

Local Open Scope Z_scope.

(** ** Exceptions *)

Inductive Exception :=
| AttributeError
| IndexError
| KeyError
| TypeError
| ValueError
| ZeroDivisionError
| OverflowError.

(** [dm_env]'s [validate] signals a schema violation with [ValueError]. *)
Definition SchemaViolation : Exception := ValueError.

Inductive Result (A : Type) :=
| Return (a : A)
| Raise (e : Exception).
Arguments Return {A} a.
Arguments Raise {A} e.

(** [f] on every element, from left to right, up to the first that
    raises. *)
Fixpoint traverse {A B} (f : A -> Result B) (xs : list A) : Result (list B) :=
  match xs with
  | [] => Return []
  | x :: xs' =>
      match f x with
      | Raise e => Raise e
      | Return y =>
          match traverse f xs' with
          | Raise e => Raise e
          | Return ys => Return (y :: ys)
          end
      end
  end.

(** ** Python floats

    A Python float is an IEEE 754 double. A finite double is written as
    the rational it denotes; infinities and NaN are not modelled. *)

Module float.

(** The integer nearest to [x], the even one of two that are equally
    near. *)
Definition rne (x : Q) : Z :=
  let f := Qfloor x in
  match (x - inject_Z f ?= 1 # 2)%Q with
  | Lt => f
  | Gt => f + 1
  | Eq => if Z.even f then f else f + 1
  end.

(** The exponent of the leading binary digit of a positive [x]: the [k]
    with [2 ^ k <= x < 2 ^ (k + 1)]. *)
Definition ilog2 (x : Q) : Z :=
  let k := Z.log2 (Qnum x) - Z.log2 (Zpos (Qden x)) in
  if Qle_bool (2 ^ k) x then k else k - 1.

(** A positive [x] rounded to 53 significant binary digits, or to a
    multiple of [2 ^ -1074] where doubles are subnormal. *)
Definition round_pos (x : Q) : Q :=
  let e := Z.max (ilog2 x - 52) (-1074) in
  (inject_Z (rne (x / 2 ^ e)) * 2 ^ e)%Q.

(** The double nearest to [q] (round to nearest, ties to even), for a [q]
    within the range of the doubles. *)
Definition round (q : Qc) : Qc :=
  if bool_decide (0 < q)%Qc then Q2Qc (round_pos q)
  else if bool_decide (q < 0)%Qc then (- Q2Qc (round_pos (- q)%Qc))%Qc
  else 0%Qc.

(** Every finite double is smaller than this in absolute value. *)
Definition overflow_threshold : Qc := Q2Qc (2 ^ 1024).

(** The unit roundoff of the doubles, [2 ^ -53]: half the machine
    epsilon. *)
Definition unit_roundoff : Qc := Q2Qc (2 ^ (-53)).

End float.

(** ** numpy arrays, as far as the class uses them

    numpy is a library outside the repository. An array is modelled by
    its element type, its shape and its elements; the operations below
    follow numpy's documented behaviour, and what numpy does to a single
    element (conversion, which may raise; the dtype derived for it;
    comparison) is a parameter. *)

Class Numpy := {
  dtype : Type;
  dtype_eq_dec :: EqDecision dtype;
  scalar : Type;
  (** conversion of one element by [ndarray.astype], from the dtype of
      the array to the requested one; numpy raises on an element it
      cannot convert *)
  cast : dtype -> dtype -> scalar -> Result scalar;
  (** the dtype [np.asarray] derives for an element that iteration draws
      from a 1-d array of the given dtype: the dtype of the array when it
      is numeric, that of the Python object or of the string itself for
      arrays of objects or strings *)
  asarray_dtype : dtype -> scalar -> dtype;
  (** elementwise [<] *)
  less : scalar -> scalar -> bool;
  (** Python [==] between an array element and an [int] *)
  eq_int : scalar -> Z -> bool;
}.

Module np.
Section ndarray.
Context `{Numpy}.

(** An array: element type, shape, and the elements in row-major order. *)
Record ndarray := mk {
  dtype_of : dtype;
  shape : list nat;
  data : list scalar;
}.

Definition size_of (sh : list nat) : nat := foldr Nat.mul 1%nat sh.

(** The elements of the array: as many as its shape says. *)
Definition elements (a : ndarray) : list scalar :=
  take (size_of (shape a)) (data a).

(** [a.astype(d)]: a new array of the same shape whose elements are those
    of [a] converted one by one; the call raises if an element cannot be
    converted. *)
Definition astype (d : dtype) (a : ndarray) : Result ndarray :=
  match traverse (cast (dtype_of a) d) (elements a) with
  | Raise e => Raise e
  | Return xs => Return {| dtype_of := d; shape := shape a; data := xs |}
  end.

(** [a[i]] for an index within the first axis. For a 1-d array this is
    an element, a numpy scalar or a Python object: it is written as the
    0-d array that holds it, with the dtype of [a]. *)
Definition row (sh : list nat) (a : ndarray) (i : nat) : ndarray :=
  {| dtype_of := dtype_of a;
     shape := sh;
     data := take (size_of sh) (drop (i * size_of sh) (data a)) |}.

(** [for x in a]: the sub-arrays along the first axis; a 0-d array cannot
    be iterated. *)
Definition iter (a : ndarray) : Result (list ndarray) :=
  match shape a with
  | [] => Raise TypeError
  | n :: sh => Return (map (row sh a) (seq 0 n))
  end.

(** [a[-1]] *)
Definition last_item (a : ndarray) : Result ndarray :=
  match shape a with
  | [] => Raise IndexError
  | O :: _ => Raise IndexError
  | S n :: sh => Return (row sh a n)
  end.

(** [a.item()] *)
Definition item (a : ndarray) : Result scalar :=
  match data a with
  | [x] => Return x
  | _ => Raise ValueError
  end.

(** [np.asarray(value)] for a value that iteration over an array yields:
    a sub-array is returned as it is, an element of a 1-d array becomes a
    0-d array of the dtype numpy derives for it. The only 0-d values the
    class passes on are such elements. *)
Definition asarray (value : ndarray) : ndarray :=
  match shape value, data value with
  | [], [x] =>
      {| dtype_of := asarray_dtype (dtype_of value) x;
         shape := []; data := [x] |}
  | _, _ => value
  end.
End ndarray.
End np.

(** ** dm_env: step types, time steps and array specs

    [dm_env] is a library outside the repository as well. *)

Module dm_env.
Inductive StepType := FIRST | MID | LAST.

#[export] Instance StepType_eq_dec : EqDecision StepType.
Proof. solve_decision. Defined.

Section specs.
Context `{Numpy}.

Record TimeStep := mkTimeStep {
  step_type : StepType;
  reward : Qc;
  discount : Qc;
  observation : gmap string np.ndarray;
}.

(** Modelled from the spec: [dm_env.termination], which is not among the
    sources: the terminating time step, with step type LAST and
    discount 0. *)
Definition termination (reward : Qc) (observation : gmap string np.ndarray)
  : TimeStep :=
  mkTimeStep LAST reward 0%Qc observation.

(** Modelled from the spec: a schema entry (dtype, shape, optional
    bounds), which is [dm_env.specs.Array], or [BoundedArray] when
    [bounds] is given, with the same minimum and maximum for all
    elements. *)
Record Array := mkArray {
  spec_shape : list nat;
  spec_dtype : dtype;
  bounds : option (scalar * scalar);
}.

Definition out_of_bounds (b : option (scalar * scalar)) (v : np.ndarray)
  : bool :=
  match b with
  | None => false
  | Some (minimum, maximum) =>
      existsb (fun x => less x minimum) (np.data v)
      || existsb (fun x => less maximum x) (np.data v)
  end.

(** Modelled from the spec: [spec.validate(value)] of [dm_env.specs],
    which is not among the sources: it takes [np.asarray(value)] and
    fails with SchemaViolation when the shape, the dtype or the declared
    bounds are not met, checked in this order as the library does. *)
Definition validate (spec : Array) (value : np.ndarray) : Result np.ndarray :=
  let value := np.asarray value in
  if negb (bool_decide (np.shape value = spec_shape spec)) then
    Raise SchemaViolation
  else if negb (bool_decide (np.dtype_of value = spec_dtype spec)) then
    Raise SchemaViolation
  else if out_of_bounds (bounds spec) value then
    Raise SchemaViolation
  else Return value.
End specs.
End dm_env.
Export dm_env.


(** ** The components the class imports

    [action_type.ActionType] is an integer enumeration and
    [specs.task_extras_spec] builds the task-extras schema of a task; both
    live in modules outside this file, so they are parameters here.
    [ActionType] lists the members in definition order, as iterating over
    the enumeration yields them. *)

Record EnumMember := mkMember {
  name : string;
  value : Z;
}.

#[export] Instance EnumMember_eq_dec : EqDecision EnumMember.
Proof. solve_decision. Defined.

Class Components `{Numpy} := {
  ActionType : list EnumMember;
  Task : Type;
  specs_task_extras_spec : Task -> list (string * Array);
}.

Section AndroidEnv.
Context `{Deps : Components}.

(** [action_type.ActionType(v)]: the member whose value equals [v]. *)
Definition ActionType_call (v : scalar) : Result EnumMember :=
  match find (fun m => eq_int v (value m)) ActionType with
  | Some m => Return m
  | None => Raise ValueError
  end.

(** *** The object and the world around it *)

Inductive Coordinator := the_coordinator.

Record AndroidEnv := mkEnv {
  _task : Task;
  _coordinator : option Coordinator;
  _is_closed : bool;
  _latest_action : gmap string np.ndarray;
  _latest_observation : gmap string np.ndarray;
  _latest_extras : gmap string np.ndarray;
  _latest_step_type : StepType;
  _reset_next_step : bool;
  _log_dict : gmap string Qc;
}.

Definition set_is_closed (b : bool) (s : AndroidEnv) : AndroidEnv :=
  mkEnv (_task s) (_coordinator s) b (_latest_action s)
        (_latest_observation s) (_latest_extras s) (_latest_step_type s)
        (_reset_next_step s) (_log_dict s).

Definition set_latest_action (a : gmap string np.ndarray) (s : AndroidEnv)
  : AndroidEnv :=
  mkEnv (_task s) (_coordinator s) (_is_closed s) a
        (_latest_observation s) (_latest_extras s) (_latest_step_type s)
        (_reset_next_step s) (_log_dict s).

Definition set_latest_observation (o : gmap string np.ndarray)
  (s : AndroidEnv) : AndroidEnv :=
  mkEnv (_task s) (_coordinator s) (_is_closed s) (_latest_action s)
        o (_latest_extras s) (_latest_step_type s)
        (_reset_next_step s) (_log_dict s).

Definition set_latest_extras (e : gmap string np.ndarray) (s : AndroidEnv)
  : AndroidEnv :=
  mkEnv (_task s) (_coordinator s) (_is_closed s) (_latest_action s)
        (_latest_observation s) e (_latest_step_type s)
        (_reset_next_step s) (_log_dict s).

Definition set_latest_step_type (t : StepType) (s : AndroidEnv) : AndroidEnv :=
  mkEnv (_task s) (_coordinator s) (_is_closed s) (_latest_action s)
        (_latest_observation s) (_latest_extras s) t
        (_reset_next_step s) (_log_dict s).

Definition set_reset_next_step (b : bool) (s : AndroidEnv) : AndroidEnv :=
  mkEnv (_task s) (_coordinator s) (_is_closed s) (_latest_action s)
        (_latest_observation s) (_latest_extras s) (_latest_step_type s)
        b (_log_dict s).

Definition set_log_dict (d : gmap string Qc) (s : AndroidEnv) : AndroidEnv :=
  mkEnv (_task s) (_coordinator s) (_is_closed s) (_latest_action s)
        (_latest_observation s) (_latest_extras s) (_latest_step_type s)
        (_reset_next_step s) d.

(** What one public call gets back from the collaborators. Every
    collaborator method is called at most once during one public call, so
    one answer per method is enough. [None] is Python's [None]. *)
Record Responses := mkResponses {
  should_restart : bool;
  check_timeout : bool;
  execute_action : option (gmap string np.ndarray);
  get_current_reward : Qc;
  get_current_extras : option (gmap string np.ndarray);
  check_if_episode_ended : bool;
  log_dict : gmap string Qc;
}.

(** The calls the object makes on its collaborators and on the logger. *)
Inductive Event :=
| coordinator_reset
| coordinator_execute_action (action : option (gmap string np.ndarray))
| coordinator_should_restart
| coordinator_restart_simulator
| coordinator_check_timeout
| coordinator_log_dict
| coordinator_close
| task_manager_get_current_reward
| task_manager_get_current_extras
| task_manager_increment_steps
| task_manager_check_if_episode_ended
| logging_info (msg : string)
| logging_warning (msg : string) (arg : string).

Record World := mkWorld {
  self : AndroidEnv;
  calls : list Event;
}.

(** *** The method monad: state, call log and exceptions *)

Definition M (A : Type) : Type := World -> Result A * World.

#[export] Instance M_ret : MRet M := fun A a w => (Return a, w).

#[export] Instance M_bind : MBind M := fun A B f m w =>
  match m w with
  | (Return a, w') => f a w'
  | (Raise e, w') => (Raise e, w')
  end.

Definition raise {A} (e : Exception) : M A := fun w => (Raise e, w).

Definition lift {A} (r : Result A) : M A := fun w => (r, w).

Definition get : M AndroidEnv := fun w => (Return (self w), w).

Definition modify (f : AndroidEnv -> AndroidEnv) : M unit :=
  fun w => (Return tt, mkWorld (f (self w)) (calls w)).

Definition emit (e : Event) : M unit :=
  fun w => (Return tt, mkWorld (self w) (calls w ++ [e])).

(** [for x in xs: body] *)
Fixpoint for_each {A} (xs : list A) (body : A -> M unit) : M unit :=
  match xs with
  | [] => mret tt
  | x :: xs' => body x ;; for_each xs' body
  end.

(** A loop that updates a local variable. *)
Fixpoint for_fold {A B} (xs : list A) (body : B -> A -> M B) (b : B) : M B :=
  match xs with
  | [] => mret b
  | x :: xs' => b' ← body b x; for_fold xs' body b'
  end.

(** *** Collaborator calls *)

Definition call {A} (e : Event) (answer : A) : M A :=
  emit e ;; mret answer.

(** *** Telemetry *)

Definition _log_prefixes : list string :=
  ["androidenv_total"; "androidenv_episode"].

(** [f'{prefix}_steps'], [f'{prefix}_action_type_{act_type.name}'] and
    [f'{prefix}_action_type_ratio_{act_type.name}'] *)
Definition steps_key (prefix : string) : string := prefix +:+ "_steps".

Definition type_key (prefix : string) (act_type : EnumMember) : string :=
  prefix +:+ "_action_type_" +:+ name act_type.

Definition ratio_key (prefix : string) (act_type : EnumMember) : string :=
  prefix +:+ "_action_type_ratio_" +:+ name act_type.

(** [d[key]] *)
Definition getitem {V} (d : gmap string V) (key : string) : Result V :=
  match d !! key with
  | Some v => Return v
  | None => Raise KeyError
  end.

(** [self._log_dict[key] += 1] *)
Definition log_dict_incr (key : string) : M unit :=
  s ← get;
  v ← lift (getitem (_log_dict s) key);
  modify (set_log_dict (<[key := (v + 1)%Qc]> (_log_dict s))).

(** [a / b] on numbers, as Python divides floats: a zero divisor raises,
    any other quotient is the double nearest to the exact one. A quotient
    beyond the range of the doubles, which Python gives as [inf] for
    float operands and refuses with [OverflowError] for int operands,
    ends in [OverflowError] here. *)
Definition truediv (a b : Qc) : Result Qc :=
  if bool_decide (b = 0%Qc) then Raise ZeroDivisionError
  else
    let q := float.round (a / b) in
    if bool_decide (Qcabs q < float.overflow_threshold)%Qc then Return q
    else Raise OverflowError.

Definition init_log_dict : gmap string Qc :=
  foldl (fun d prefix =>
           foldl (fun d act_type => <[type_key prefix act_type := 0%Qc]> d)
                 (<[steps_key prefix := 0%Qc]> d) ActionType)
        (<["reset_count_step_timeout" := 0%Qc]>
           (<["restart_count" := 0%Qc]> ∅))
        _log_prefixes.

Definition _update_log_dict (act_type : scalar) : M unit :=
  act_type ← lift (ActionType_call act_type);
  for_each _log_prefixes (fun prefix =>
    log_dict_incr (steps_key prefix) ;;
    log_dict_incr (type_key prefix act_type)).

(** The inner loop body of [_flush_log_dict]: one derived ratio. *)
Definition flush_ratio (prefix : string) (log_dict : gmap string Qc)
  (act_type : EnumMember) : M (gmap string Qc) :=
  count ← lift (getitem log_dict (type_key prefix act_type));
  steps ← lift (getitem log_dict (steps_key prefix));
  ratio ← lift (truediv count steps);
  mret (<[ratio_key prefix act_type := ratio]> log_dict).

(** The outer loop body of [_flush_log_dict]: one prefix. *)
Definition flush_prefix (log_dict : gmap string Qc) (prefix : string)
  : M (gmap string Qc) :=
  steps ← lift (getitem log_dict (steps_key prefix));
  if bool_decide (steps = 0%Qc) then
    emit (logging_warning "%s_steps is 0. Skipping ratio logs." prefix) ;;
    mret log_dict
  else
    for_fold ActionType (flush_ratio prefix) log_dict.

Definition _flush_log_dict (r : Responses) : M (gmap string Qc) :=
  s ← get;
  let log_dict0 := _log_dict s in
  update ← call coordinator_log_dict (log_dict r);
  let log_dict1 := update ∪ log_dict0 in
  for_fold _log_prefixes flush_prefix log_dict1.

Definition _reset_log_dict : M unit :=
  s ← get;
  for_each (map_to_list (_log_dict s)).*1 (fun key =>
    if String.prefix "androidenv_episode" key then
      s ← get;
      modify (set_log_dict (<[key := 0%Qc]> (_log_dict s)))
    else mret tt).

Definition android_logs (r : Responses) : M (gmap string Qc) :=
  _flush_log_dict r.

(** *** Construction *)

(** The object as [__init__] leaves it. The [logging.info] lines of the
    constructor print the specs of other modules and are not recorded. *)
Definition __init__ (task : Task) : World :=
  {| self := {| _task := task;
                _coordinator := Some the_coordinator;
                _is_closed := false;
                _latest_action := ∅;
                _latest_observation := ∅;
                _latest_extras := ∅;
                _latest_step_type := LAST;
                _reset_next_step := true;
                _log_dict := init_log_dict |};
     calls := [] |}.

Definition task_extras_spec : M (list (string * Array)) :=
  s ← get; mret (specs_task_extras_spec (_task s)).

Definition raw_action : M (gmap string np.ndarray) :=
  s ← get; mret (_latest_action s).

Definition raw_observation : M (gmap string np.ndarray) :=
  s ← get; mret (_latest_observation s).

(** *** reset and step *)

(** [x.copy()] of a dictionary, or of [None]. *)
Definition copy {V} (x : option (gmap string V)) : Result (gmap string V) :=
  match x with
  | Some d => Return d
  | None => Raise AttributeError
  end.

Definition reset (r : Responses) : M TimeStep :=
  emit (logging_info "Resetting AndroidEnv.") ;;
  emit coordinator_reset ;;
  modify (set_latest_action ∅) ;;
  _reset_log_dict ;;
  observation ← call (coordinator_execute_action None)
                                 (execute_action r);
  task_extras ← call task_manager_get_current_extras
                                 (get_current_extras r);
  match observation with
  | Some o => modify (set_latest_observation o)
  | None => mret tt
  end ;;
  task_extras ← lift (copy task_extras);
  modify (set_latest_extras task_extras) ;;
  modify (set_reset_next_step false) ;;
  modify (set_latest_step_type FIRST) ;;
  emit (logging_info "Done resetting AndroidEnv.") ;;
  emit (logging_info "************* NEW EPISODE *************") ;;
  s ← get;
  mret (mkTimeStep (_latest_step_type s) 0%Qc 0%Qc (_latest_observation s)).

Definition step (action : gmap string np.ndarray) (r : Responses)
  : M TimeStep :=
  modify (set_latest_action action) ;;
  restart ← call coordinator_should_restart (should_restart r);
  if restart : bool then
    log_dict_incr "restart_count" ;;
    emit coordinator_restart_simulator ;;
    modify (set_reset_next_step true) ;;
    modify (set_latest_step_type LAST) ;;
    s ← get;
    mret (termination 0%Qc (_latest_observation s))
  else
  timeout ← call coordinator_check_timeout (check_timeout r);
  if timeout : bool then
    log_dict_incr "reset_count_step_timeout" ;;
    emit (logging_info "Step has timed out. Ending episode.") ;;
    modify (set_reset_next_step true) ;;
    modify (set_latest_step_type LAST) ;;
    s ← get;
    mret (termination 0%Qc (_latest_observation s))
  else
  s ← get;
  if _reset_next_step s then reset r
  else
  act_type ← lift (getitem action "action_type");
  act_type ← lift (np.item act_type);
  _update_log_dict act_type ;;
  emit task_manager_increment_steps ;;
  observation ← call (coordinator_execute_action (Some action))
                                 (execute_action r);
  reward ← call task_manager_get_current_reward
                            (get_current_reward r);
  task_extras ← call task_manager_get_current_extras
                                 (get_current_extras r);
  match observation with
  | Some o => modify (set_latest_observation o)
  | None => mret tt
  end ;;
  task_extras ← lift (copy task_extras);
  modify (set_latest_extras task_extras) ;;
  ended ← call task_manager_check_if_episode_ended
                           (check_if_episode_ended r);
  modify (set_reset_next_step ended) ;;
  s ← get;
  let step_type := if _reset_next_step s then LAST else MID in
  modify (set_latest_step_type step_type) ;;
  s ← get;
  mret (mkTimeStep (_latest_step_type s) reward
                   (if _reset_next_step s then 0%Qc else 1%Qc)
                   (_latest_observation s)).

(** *** Task extras *)

(** [for extra in extra_values: spec.validate(extra)] *)
Definition validate_all (spec : Array) (extra_values : list np.ndarray)
  : M unit :=
  for_each extra_values (fun extra => lift (validate spec extra) ;; mret tt).

(** The body of the loop of [task_extras], for one item of the schema. *)
Definition task_extras_item (latest_only : bool)
  (task_extras : gmap string np.ndarray) (item : string * Array)
  : M (gmap string np.ndarray) :=
  let '(key, spec) := item in
  s ← get;
  match _latest_extras s !! key with
  | None => mret task_extras
  | Some cached =>
      extra_values ← lift (np.astype (spec_dtype spec) cached);
      extras ← lift (np.iter extra_values);
      validate_all spec extras ;;
      v ← (if latest_only then lift (np.last_item extra_values)
           else mret extra_values);
      mret (<[key := v]> task_extras)
  end.

Definition task_extras (latest_only : bool) : M (gmap string np.ndarray) :=
  spec_items ← task_extras_spec;
  for_fold spec_items (task_extras_item latest_only) ∅.

(** *** Shutdown *)

Definition close : M unit :=
  emit (logging_info "Cleaning up AndroidEnv...") ;;
  s ← get;
  match _coordinator s with
  | Some _ => emit coordinator_close
  | None => mret tt
  end ;;
  modify (set_is_closed true) ;;
  emit (logging_info "Done cleaning up AndroidEnv.").

Definition __del__ : M unit :=
  s ← get;
  if negb (_is_closed s) then close else mret tt.

(** *** The loops as functions on dictionaries

    Used to state what the methods compute. *)

(** One iteration of the loop of [_reset_log_dict]. *)
Definition zero_episode_key (d : gmap string Qc) (key : string)
  : gmap string Qc :=
  if String.prefix "androidenv_episode" key then <[key := 0%Qc]> d else d.

(** The dictionary [_reset_log_dict] leaves behind. *)
Definition episode_zeroed (d : gmap string Qc) : gmap string Qc :=
  foldl zero_episode_key d (map_to_list d).*1.

(** [d[key] += 1] on a dictionary that has the key. *)
Definition incr (key : string) (d : gmap string Qc) : gmap string Qc :=
  match d !! key with
  | Some v => <[key := (v + 1)%Qc]> d
  | None => d
  end.

(** The dictionary [_update_log_dict] leaves behind for the member
    [act_type] when no key is missing. *)
Definition record_step (act_type : EnumMember) (d : gmap string Qc)
  : gmap string Qc :=
  foldl (fun d prefix =>
           incr (type_key prefix act_type) (incr (steps_key prefix) d))
        d _log_prefixes.

(** A method that touches nothing but the values of the counters. *)
Definition counters_only {A} (m : M A) : Prop :=
  forall w, exists res d,
    m w = (res, mkWorld (set_log_dict d (self w)) (calls w))
    /\ dom d = dom (_log_dict (self w)).

(** *** Sequences of calls *)

Inductive Call :=
| reset_call (r : Responses)
| step_call (action : gmap string np.ndarray) (r : Responses).

Definition perform (c : Call) : M TimeStep :=
  match c with
  | reset_call r => reset r
  | step_call action r => step action r
  end.

(** The calls of [cs] made one after the other: what each one gave, and
    the world after the last one. *)
Fixpoint run (cs : list Call) (w : World)
  : list (Call * Result TimeStep) * World :=
  match cs with
  | [] => ([], w)
  | c :: cs' =>
      let (res, w') := perform c w in
      let (out, w'') := run cs' w' in
      ((c, res) :: out, w'')
  end.

(** The calls that returned a [TimeStep], in order. *)
Definition returned (out : list (Call * Result TimeStep))
  : list (Call * TimeStep) :=
  omap (fun '(c, res) => match res with
                         | Return ts => Some (c, ts)
                         | Raise _ => None
                         end) out.

Definition step_types (out : list (Call * Result TimeStep)) : list StepType :=
  (fun '(_, ts) => step_type ts) <$> returned out.

(** A step at which the coordinator asks for a restart or reports a
    timeout. *)
Definition forced (c : Call) : bool :=
  match c with
  | reset_call _ => false
  | step_call _ r => should_restart r || check_timeout r
  end.

(** *** Counting recorded steps *)

(** Every counter [_update_log_dict] reads is there. *)
Definition present (d : gmap string Qc) : Prop :=
  forall prefix, prefix ∈ _log_prefixes ->
    is_Some (d !! steps_key prefix)
    /\ forall t, t ∈ ActionType -> is_Some (d !! type_key prefix t).

(** No member is named like the ratio of another one: a ratio key is
    never a count key. *)
Definition no_ratio_names : Prop :=
  forall t t', t ∈ ActionType -> t' ∈ ActionType ->
    name t' <> "ratio_" +:+ name t.

Definition Qc_of_nat (n : nat) : Qc := Qc_of_Z (Z.of_nat n).

(** How often the member [t] occurs in [ts]. *)
Definition occurrences (t : EnumMember) (ts : list EnumMember) : nat :=
  length (filter (fun x => x = t) ts).

Definition sum_Qc (xs : list Qc) : Qc := foldr Qcplus 0%Qc xs.

(** *** Steps that are recorded *)

Definition step_calls (steps : list (gmap string np.ndarray * Responses))
  : list Call :=
  (fun s => step_call s.1 s.2) <$> steps.

(** The step with action [a] and answers [r] gets as far as recording the
    member [t] and fetching the extras: no restart, no timeout, an action
    whose type is [t], extras that are not null. *)
Definition records (a : gmap string np.ndarray) (r : Responses)
  (t : EnumMember) : Prop :=
  should_restart r = false
  /\ check_timeout r = false
  /\ is_Some (get_current_extras r)
  /\ exists x v,
       a !! "action_type" = Some x
       /\ np.item x = Return v
       /\ ActionType_call v = Return t.

(** Steps of one episode that record the members [ts]: only the last one
    may end the episode. *)
Definition recorded_steps (steps : list (gmap string np.ndarray * Responses))
  (ts : list EnumMember) : Prop :=
  Forall2 (fun s t => records s.1 s.2 t) steps ts
  /\ forall i s, steps !! i = Some s -> (S i < length steps)%nat ->
       check_if_episode_ended s.2 = false.

(** *** What [task_extras] does with one cached value *)

(** The checks of [validate] on one row: the shape, the dtype
    [np.asarray] derives for the row, the bounds. *)
Definition row_ok (spec : Array) (x : np.ndarray) : bool :=
  bool_decide (np.shape (np.asarray x) = spec_shape spec)
  && bool_decide (np.dtype_of (np.asarray x) = spec_dtype spec)
  && negb (out_of_bounds (bounds spec) (np.asarray x)).

Definition item_outcome (latest_only : bool)
  (task_extras : gmap string np.ndarray) (key : string) (spec : Array)
  (cached : option np.ndarray) : Result (gmap string np.ndarray) :=
  match cached with
  | None => Return task_extras
  | Some cached =>
      match np.astype (spec_dtype spec) cached with
      | Raise e => Raise e
      | Return extra_values =>
          match np.iter extra_values with
          | Raise e => Raise e
          | Return extras =>
              if forallb (row_ok spec) extras then
                if latest_only then
                  match np.last_item extra_values with
                  | Return v => Return (<[key := v]> task_extras)
                  | Raise e => Raise e
                  end
                else Return (<[key := extra_values]> task_extras)
              else Raise SchemaViolation
          end
      end
  end.

Definition responses (c : Call) : Responses :=
  match c with
  | reset_call r => r
  | step_call _ r => r
  end.

(** [m] done [n] times in a row. *)
Fixpoint times (n : nat) (m : M unit) : M unit :=
  match n with
  | O => mret tt
  | S n' => m ;; times n' m
  end.

(** How often the coordinator's [close()] appears in a call log. *)
Definition close_calls (es : list Event) : nat :=
  length (List.filter (fun e => match e with
                                | coordinator_close => true
                                | _ => false
                                end) es).

(** *** Shapes of a sequence of step types *)



(** *** Counting calls and counters *)

(** A step at which the coordinator asks for a restart. *)
Definition is_restart_step (c : Call) : bool :=
  match c with
  | reset_call _ => false
  | step_call _ r => should_restart r
  end.

(** A step at which no restart is asked for and the timeout check fires. *)
Definition is_timeout_step (c : Call) : bool :=
  match c with
  | reset_call _ => false
  | step_call _ r => negb (should_restart r) && check_timeout r
  end.

Definition count_calls (f : Call -> bool) (cs : list Call) : nat :=
  length (List.filter f cs).

(** The keys [__init__] gives the counters of one prefix, and all of them. *)
Definition scope_keys (prefix : string) : list string :=
  steps_key prefix :: (type_key prefix <$> ActionType).

Definition counter_keys : list string :=
  ["restart_count"; "reset_count_step_timeout"]
  ++ concat (scope_keys <$> _log_prefixes).

(** The action-type counters of one prefix, and the ratios derived for it,
    in the order of the enumeration; a missing entry counts as 0. *)
Definition type_counts (prefix : string) (d : gmap string Qc) : list Qc :=
  (fun t => default 0%Qc (d !! type_key prefix t)) <$> ActionType.

Definition ratios (prefix : string) (d : gmap string Qc) : list Qc :=
  (fun t => default 0%Qc (d !! ratio_key prefix t)) <$> ActionType.

(** The step type of a step that is carried out. *)
Definition mid_or_last (r : Responses) : StepType :=
  if check_if_episode_ended r then LAST else MID.

(** [ActionType(action['action_type'].item())], as [step] evaluates it. *)
Definition action_type_of (action : gmap string np.ndarray)
  : Result EnumMember :=
  match getitem action "action_type" with
  | Raise e => Raise e
  | Return x =>
      match np.item x with
      | Raise e => Raise e
      | Return v => ActionType_call v
      end
  end.

(** [x] is what [task_extras] hands out for a value [cached] under [spec]:
    the converted value, all of whose rows pass, or its last row. *)
Definition handed_out (latest_only : bool) (spec : Array)
  (cached x : np.ndarray) : Prop :=
  exists converted rows,
    np.astype (spec_dtype spec) cached = Return converted
    /\ np.iter converted = Return rows
    /\ forallb (row_ok spec) rows = true
    /\ if latest_only
       then np.last_item converted = Return x
       else x = converted.

(** What one call leaves in the counters [d], [pending] being the
    reset-pending flag before the call. *)
Definition counters_after (c : Call) (pending : bool) (d : gmap string Qc)
  : gmap string Qc :=
  match c with
  | reset_call _ => episode_zeroed d
  | step_call a r =>
      if should_restart r then incr "restart_count" d
      else if check_timeout r then incr "reset_count_step_timeout" d
      else if pending then episode_zeroed d
      else match action_type_of a with
           | Return t => record_step t d
           | Raise _ => d
           end
  end.

(** The step counter of every prefix is the sum of its action-type
    counters. *)
Definition steps_balanced (d : gmap string Qc) : Prop :=
  forall prefix, prefix ∈ _log_prefixes ->
    d !! steps_key prefix = Some (sum_Qc (type_counts prefix d)).

(** A method that reads the object and may call collaborators, but leaves
    the object as it is and whose result depends on the object only. *)
Definition reads_only {A} (m : M A) : Prop :=
  forall w,
    self (m w).2 = self w
    /\ forall w', self w' = self w -> (m w').1 = (m w).1.

(** How often the task manager was told to increment its steps. *)
Definition increment_calls (es : list Event) : nat :=
  length (List.filter (fun e => match e with
                                | task_manager_increment_steps => true
                                | _ => false
                                end) es).

(** Every step counter holds a natural number, and every action-type
    counter of its prefix a natural number that is not greater. *)
Definition counts_natural (d : gmap string Qc) : Prop :=
  forall prefix, prefix ∈ _log_prefixes ->
    exists n : nat,
      d !! steps_key prefix = Some (Qc_of_nat n)
      /\ forall t, t ∈ ActionType ->
           exists k : nat,
             (k <= n)%nat /\ d !! type_key prefix t = Some (Qc_of_nat k).

End AndroidEnv.

(** ** A concrete instance

    Integer arrays of two element types (bytes and Python integers), the enumeration
    [TOUCH = 0, LIFT = 1, REPEAT = 2], and tasks that are given directly by
    their extras schema. The examples below are evaluated on it. *)

Module Sample.

Inductive int_dtype := uint8 | int8 | int_ | object_.

#[export] Instance int_dtype_eq_dec : EqDecision int_dtype.
Proof. solve_decision. Defined.

(** The values of the sample are integers within the range of numpy's
    default integer dtype [int_]. A C cast to a byte keeps the low eight
    bits, read as unsigned or in two's complement; an array of dtype
    [object] holds Python integers as they are. *)
Definition wrap (d : int_dtype) (x : Z) : Z :=
  match d with
  | uint8 => Z.land x 255
  | int8 => Z.land (x + 128) 255 - 128
  | int_ | object_ => x
  end.

(** [astype] on one element. Between integer dtypes it is the C cast;
    a Python integer of an [object] array is converted only if it fits
    the requested dtype (numpy 2 raises [OverflowError] otherwise). *)
Definition convert (source target : int_dtype) (x : Z) : Result Z :=
  match source with
  | object_ => if wrap target x =? x then Return x else Raise OverflowError
  | _ => Return (wrap target x)
  end.

(** Iterating over a 1-d integer array yields numpy scalars of its dtype;
    over an [object] array it yields the Python integers, for which
    [np.asarray] derives the default integer dtype. *)
Definition derived_dtype (d : int_dtype) (x : Z) : int_dtype :=
  match d with
  | object_ => int_
  | _ => d
  end.

#[export] Instance numpy : Numpy := {|
  dtype := int_dtype;
  scalar := Z;
  cast := convert;
  asarray_dtype := derived_dtype;
  less := Z.ltb;
  eq_int := Z.eqb;
|}.

Definition TOUCH : EnumMember := mkMember "TOUCH" 0.
Definition LIFT : EnumMember := mkMember "LIFT" 1.
Definition REPEAT : EnumMember := mkMember "REPEAT" 2.

#[export] Instance components : Components := {|
  ActionType := [TOUCH; LIFT; REPEAT];
  Task := list (string * Array);
  specs_task_extras_spec := fun task => task;
|}.

(** A one-dimensional array. *)
Definition vector (d : int_dtype) (xs : list Z) : np.ndarray :=
  np.mk d [length xs] xs.

(** A 0-d array holding one number. *)
Definition number (d : int_dtype) (x : Z) : np.ndarray := np.mk d [] [x].

Definition touch : gmap string np.ndarray :=
  {[ "action_type" := number object_ 0 ]}.

Definition lift_ : gmap string np.ndarray :=
  {[ "action_type" := number object_ 1 ]}.

Definition screen (x : Z) : gmap string np.ndarray :=
  {[ "pixels" := vector uint8 [x] ]}.

(** Collaborators that report nothing special. *)
Definition quiet : Responses :=
  {| should_restart := false;
     check_timeout := false;
     execute_action := Some (screen 7);
     get_current_reward := 1%Qc;
     get_current_extras := Some ∅;
     check_if_episode_ended := false;
     log_dict := ∅ |}.

Definition restarting : Responses :=
  {| should_restart := true;
     check_timeout := false;
     execute_action := Some (screen 8);
     get_current_reward := 1%Qc;
     get_current_extras := Some ∅;
     check_if_episode_ended := false;
     log_dict := ∅ |}.

(** The episode ends at this step. *)
Definition ending : Responses :=
  {| should_restart := false;
     check_timeout := false;
     execute_action := Some (screen 9);
     get_current_reward := 1%Qc;
     get_current_extras := Some ∅;
     check_if_episode_ended := true;
     log_dict := ∅ |}.

(** The extras provider answers [None]. *)
Definition no_extras : Responses :=
  {| should_restart := false;
     check_timeout := false;
     execute_action := Some (screen 7);
     get_current_reward := 1%Qc;
     get_current_extras := None;
     check_if_episode_ended := false;
     log_dict := ∅ |}.

(** The executor answers [None], the extras provider a mapping. *)
Definition providing (extras : gmap string np.ndarray) : Responses :=
  {| should_restart := false;
     check_timeout := false;
     execute_action := None;
     get_current_reward := 1%Qc;
     get_current_extras := Some extras;
     check_if_episode_ended := false;
     log_dict := ∅ |}.

(** No restart is due and the step has timed out. *)
Definition timing_out : Responses :=
  {| should_restart := false;
     check_timeout := true;
     execute_action := Some (screen 8);
     get_current_reward := 1%Qc;
     get_current_extras := Some ∅;
     check_if_episode_ended := false;
     log_dict := ∅ |}.

(** A task with one extra, a byte per row. *)
Definition score_spec : Array := mkArray [] uint8 None.
Definition score_task : list (string * Array) := [("score", score_spec)].

(** A task with a bounded extra followed by an unbounded one. *)
Definition level_spec : Array := mkArray [] uint8 (Some (0, 10)).
Definition two_extras_task : list (string * Array) :=
  [("level", level_spec); ("score", score_spec)].

(** The object just constructed for a task. *)
Definition constructed (task : list (string * Array)) : World :=
  @__init__ numpy components task.

(** The object for the task with the extra "score" after a reset at which
    the extras provider answered [extras]. *)
Definition scored (extras : gmap string np.ndarray) : World :=
  (reset (providing extras) (constructed score_task)).2.

(** The double [m * 2 ^ e] in the Standard Library's specification of
    IEEE 754 arithmetic, and the rational that a finite double of that
    specification denotes. *)
Definition binary64 (m e : Z) : SpecFloat.spec_float :=
  SpecFloat.binary_normalize 53 1024 m e false.

Definition denoted (x : SpecFloat.spec_float) : option Qc :=
  match x with
  | SpecFloat.S754_zero _ => Some 0%Qc
  | SpecFloat.S754_finite s m e =>
      let v := Q2Qc (inject_Z (Zpos m) * 2 ^ e)%Q in
      Some (if s then (- v)%Qc else v)
  | _ => None
  end.

(** [truediv] on the two doubles gives what the specification's division
    [SFdiv] gives. *)
Definition agrees_with_SFdiv (a b : SpecFloat.spec_float) : bool :=
  match denoted a, denoted b with
  | Some x, Some y =>
      match denoted (SpecFloat.SFdiv 53 1024 a b), truediv x y with
      | Some q, Return q' => bool_decide (q = q')
      | _, _ => false
      end
  | _, _ => false
  end.

(** Pairs of doubles: small counts, a large count, a negative operand,
    quotients that are subnormal or halfway between two doubles. *)
Definition operands : list (SpecFloat.spec_float * SpecFloat.spec_float) :=
  [(binary64 1 0, binary64 3 0); (binary64 2 0, binary64 3 0);
   (binary64 1 0, binary64 6 0); (binary64 4 0, binary64 6 0);
   (binary64 1 0, binary64 10 0); (binary64 7 0, binary64 9 0);
   (binary64 1 0, binary64 9007199254740991 0);
   (binary64 (-1) 0, binary64 3 0); (binary64 5 0, binary64 5 0);
   (binary64 0 0, binary64 3 0);
   (binary64 1 (-1070), binary64 3 0); (binary64 1 (-1074), binary64 2 0);
   (binary64 3 (-1074), binary64 2 0); (binary64 5 (-1074), binary64 2 0);
   (binary64 1 (-1022), binary64 3 0); (binary64 1 1000, binary64 7 (-20))].

End Sample.

(** * Properties *)

Section Properties.
Context `{Deps : Components}.

Implicit Types (w : World) (r : Responses) (d : gmap string Qc).
Implicit Types (key prefix : string) (t : EnumMember).

(** ** Symbolic execution of the methods *)

Ltac env_simpl :=
  cbn [self calls _task _coordinator _is_closed _latest_action
       _latest_observation _latest_extras _latest_step_type
       _reset_next_step _log_dict set_is_closed set_latest_action
       set_latest_observation set_latest_extras set_latest_step_type
       set_reset_next_step set_log_dict fst snd app
       step_type reward discount observation termination].

Ltac run_method :=
  cbv [mbind mret M_bind M_ret call emit modify get lift raise];
  env_simpl.

(** ** Running the counter reset *)

Lemma world_eta w :
  mkWorld (set_log_dict (_log_dict (self w)) (self w)) (calls w) = w.
Proof. by destruct w as [[] ?]. Qed.

Lemma reset_loop_run (ks : list string) w :
  for_each ks (fun key =>
    if String.prefix "androidenv_episode" key then
      s ← get;
      modify (set_log_dict (<[key := 0%Qc]> (_log_dict s)))
    else mret tt) w
  = (Return tt,
     mkWorld (set_log_dict (foldl zero_episode_key (_log_dict (self w)) ks)
                           (self w)) (calls w)).
Proof.
  revert w. induction ks as [|k ks IH]; intros w.
  - simpl. by rewrite world_eta.
  - cbn [for_each foldl]. unfold mbind, M_bind at 1.
    unfold zero_episode_key at 2.
    destruct (String.prefix "androidenv_episode" k); cbn.
    + rewrite IH. by destruct w as [[] ?].
    + by rewrite IH.
Qed.

Lemma _reset_log_dict_run w :
  _reset_log_dict w
  = (Return tt,
     mkWorld (set_log_dict (episode_zeroed (_log_dict (self w))) (self w))
             (calls w)).
Proof.
  unfold _reset_log_dict, mbind, M_bind, get. env_simpl.
  by rewrite reset_loop_run.
Qed.

Lemma zero_keys_lookup (ks : list string) d key :
  foldl zero_episode_key d ks !! key
  = if String.prefix "androidenv_episode" key && bool_decide (key ∈ ks)
    then Some 0%Qc else d !! key.
Proof.
  revert d. induction ks as [|k ks IH]; intros d; cbn [foldl].
  - rewrite bool_decide_false by apply not_elem_of_nil.
    by rewrite andb_false_r.
  - rewrite IH. clear IH.
    rewrite (bool_decide_ext (key ∈ k :: ks) (key = k ∨ key ∈ ks))
      by apply elem_of_cons.
    unfold zero_episode_key.
    destruct (decide (key = k)) as [->|Hne].
    + rewrite (bool_decide_true (k = k ∨ k ∈ ks)) by by left.
      destruct (String.prefix "androidenv_episode" k); cbn [andb].
      * rewrite lookup_insert_eq. by destruct (bool_decide _).
      * done.
    + rewrite (bool_decide_ext (key = k ∨ key ∈ ks) (key ∈ ks))
        by (split; [by intros [?|?]|by right]).
      destruct (String.prefix "androidenv_episode" k);
        [by rewrite lookup_insert_ne|done].
Qed.

Lemma episode_zeroed_lookup d key :
  episode_zeroed d !! key
  = if String.prefix "androidenv_episode" key
    then (fun _ => 0%Qc) <$> d !! key else d !! key.
Proof.
  unfold episode_zeroed. rewrite zero_keys_lookup.
  destruct (String.prefix "androidenv_episode" key); [|done]. cbn [andb].
  destruct (d !! key) as [v|] eqn:Hd; cbn.
  - rewrite bool_decide_true; [done|].
    apply list_elem_of_fmap. exists (key, v). split; [done|].
    by apply elem_of_map_to_list.
  - rewrite bool_decide_false; [done|].
    intros [[k v] [-> Hin]]%list_elem_of_fmap.
    apply elem_of_map_to_list in Hin. cbn in Hd. congruence.
Qed.

(** ** Running [reset] *)

Lemma reset_run r w :
  reset r w =
  let s1 := set_log_dict (episode_zeroed (_log_dict (self w)))
                         (set_latest_action ∅ (self w)) in
  let s2 := match execute_action r with
            | Some o => set_latest_observation o s1
            | None => s1
            end in
  let c := calls w ++ [logging_info "Resetting AndroidEnv."; coordinator_reset;
                       coordinator_execute_action None;
                       task_manager_get_current_extras] in
  match get_current_extras r with
  | None => (Raise AttributeError, mkWorld s2 c)
  | Some e =>
      (Return (mkTimeStep FIRST 0%Qc 0%Qc (_latest_observation s2)),
       mkWorld (set_latest_step_type FIRST
                  (set_reset_next_step false (set_latest_extras e s2)))
               (c ++ [logging_info "Done resetting AndroidEnv.";
                      logging_info "************* NEW EPISODE *************"]))
  end.
Proof.
  unfold reset. run_method. rewrite _reset_log_dict_run. env_simpl.
  destruct (execute_action r), (get_current_extras r); cbn [copy]; env_simpl;
    rewrite <- ?app_assoc; env_simpl; reflexivity.
Qed.

(** ** Running [step] *)

Lemma step_restart_run (a : gmap string np.ndarray) r w :
  should_restart r = true ->
  step a r w =
  match _log_dict (self w) !! "restart_count" with
  | None =>
      (Raise KeyError,
       mkWorld (set_latest_action a (self w))
               (calls w ++ [coordinator_should_restart]))
  | Some v =>
      (Return (termination 0%Qc (_latest_observation (self w))),
       mkWorld (set_latest_step_type LAST
                  (set_reset_next_step true
                     (set_log_dict
                        (<["restart_count" := (v + 1)%Qc]>
                           (_log_dict (self w)))
                        (set_latest_action a (self w)))))
               (calls w ++ [coordinator_should_restart;
                            coordinator_restart_simulator]))
  end.
Proof.
  intros Hr. unfold step, log_dict_incr, getitem. run_method. rewrite Hr.
  run_method.
  destruct (_log_dict (self w) !! "restart_count"); env_simpl;
    rewrite <- ?app_assoc; reflexivity.
Qed.

Lemma step_timeout_run (a : gmap string np.ndarray) r w :
  should_restart r = false ->
  check_timeout r = true ->
  step a r w =
  match _log_dict (self w) !! "reset_count_step_timeout" with
  | None =>
      (Raise KeyError,
       mkWorld (set_latest_action a (self w))
               (calls w ++ [coordinator_should_restart;
                            coordinator_check_timeout]))
  | Some v =>
      (Return (termination 0%Qc (_latest_observation (self w))),
       mkWorld (set_latest_step_type LAST
                  (set_reset_next_step true
                     (set_log_dict
                        (<["reset_count_step_timeout" := (v + 1)%Qc]>
                           (_log_dict (self w)))
                        (set_latest_action a (self w)))))
               (calls w ++ [coordinator_should_restart;
                            coordinator_check_timeout;
                            logging_info "Step has timed out. Ending episode."]))
  end.
Proof.
  intros Hr Ht. unfold step, log_dict_incr, getitem. run_method.
  rewrite Hr. run_method. rewrite Ht. run_method.
  destruct (_log_dict (self w) !! "reset_count_step_timeout"); env_simpl;
    rewrite <- ?app_assoc; reflexivity.
Qed.

Lemma step_pending_run (a : gmap string np.ndarray) r w :
  should_restart r = false ->
  check_timeout r = false ->
  _reset_next_step (self w) = true ->
  step a r w =
  reset r (mkWorld (set_latest_action a (self w))
                   (calls w ++ [coordinator_should_restart;
                                coordinator_check_timeout])).
Proof.
  intros Hr Ht Hp. unfold step. run_method.
  rewrite Hr. run_method. rewrite Ht. run_method. rewrite Hp.
  rewrite <- ?app_assoc. reflexivity.
Qed.

Lemma step_normal_run (a : gmap string np.ndarray) r w :
  should_restart r = false ->
  check_timeout r = false ->
  _reset_next_step (self w) = false ->
  step a r w =
  let w0 := mkWorld (set_latest_action a (self w))
                    (calls w ++ [coordinator_should_restart;
                                 coordinator_check_timeout]) in
  match getitem a "action_type" with
  | Raise e => (Raise e, w0)
  | Return x =>
  match np.item x with
  | Raise e => (Raise e, w0)
  | Return v =>
  match _update_log_dict v w0 with
  | (Raise e, w1) => (Raise e, w1)
  | (Return _, w1) =>
      let s2 := match execute_action r with
                | Some o => set_latest_observation o (self w1)
                | None => self w1
                end in
      let c2 := calls w1 ++ [task_manager_increment_steps;
                             coordinator_execute_action (Some a);
                             task_manager_get_current_reward;
                             task_manager_get_current_extras] in
      match get_current_extras r with
      | None => (Raise AttributeError, mkWorld s2 c2)
      | Some e =>
          let ended := check_if_episode_ended r in
          (Return (mkTimeStep (if ended then LAST else MID)
                              (get_current_reward r)
                              (if ended then 0%Qc else 1%Qc)
                              (_latest_observation s2)),
           mkWorld (set_latest_step_type (if ended then LAST else MID)
                      (set_reset_next_step ended (set_latest_extras e s2)))
                   (c2 ++ [task_manager_check_if_episode_ended]))
      end
  end end end.
Proof.
  intros Hr Ht Hp. unfold step. run_method.
  rewrite Hr. run_method. rewrite Ht. run_method. rewrite Hp.
  rewrite <- ?app_assoc. env_simpl.
  destruct (getitem a "action_type") as [x|]; [|done].
  destruct (np.item x) as [v|]; [|done].
  destruct (_update_log_dict v _) as [[[]|] w1]; [|done]. env_simpl.
  destruct (execute_action r), (get_current_extras r); cbn [copy]; env_simpl;
    rewrite <- ?app_assoc; env_simpl; reflexivity.
Qed.

(** ** The counters never gain or lose a key *)

Lemma log_dict_incr_run key w :
  log_dict_incr key w =
  match _log_dict (self w) !! key with
  | Some v =>
      (Return tt,
       mkWorld (set_log_dict (<[key := (v + 1)%Qc]> (_log_dict (self w)))
                             (self w)) (calls w))
  | None => (Raise KeyError, w)
  end.
Proof.
  unfold log_dict_incr, getitem. run_method.
  by destruct (_log_dict (self w) !! key).
Qed.

Lemma dom_insert_present d key (v x : Qc) :
  d !! key = Some v -> dom (<[key := x]> d) = dom d.
Proof.
  intros Hk. by apply dom_insert_lookup_L.
Qed.

Lemma counters_only_incr key : counters_only (log_dict_incr key).
Proof.
  intros w. rewrite log_dict_incr_run.
  destruct (_log_dict (self w) !! key) as [v|] eqn:Hk.
  - eexists _, _. split; [reflexivity|]. by eapply dom_insert_present.
  - exists (Raise KeyError), (_log_dict (self w)). by rewrite world_eta.
Qed.

Lemma counters_only_bind {A B} (m : M A) (f : A -> M B) :
  counters_only m -> (forall a, counters_only (f a)) -> counters_only (m ≫= f).
Proof.
  intros Hm Hf w. destruct (Hm w) as (res & d & Hrun & Hdom).
  unfold mbind, M_bind. rewrite Hrun. destruct res as [a|e].
  - destruct (Hf a (mkWorld (set_log_dict d (self w)) (calls w)))
      as (res' & d' & Hrun' & Hdom').
    rewrite Hrun'. exists res', d'. env_simpl. split; [done|].
    revert Hdom'. env_simpl. congruence.
  - by exists (Raise e), d.
Qed.

Lemma counters_only_lift {A} (x : Result A) : counters_only (lift x).
Proof.
  intros w. exists x, (_log_dict (self w)). by rewrite world_eta.
Qed.

Lemma counters_only_update (v : scalar) : counters_only (_update_log_dict v).
Proof.
  unfold _update_log_dict.
  apply counters_only_bind; [apply counters_only_lift|]. intros t.
  cbn [for_each _log_prefixes].
  repeat first [ apply counters_only_incr
               | apply (counters_only_lift (Return tt))
               | apply counters_only_bind; [|intros ?] ].
Qed.

Lemma episode_zeroed_dom d : dom (episode_zeroed d) = dom d.
Proof.
  apply set_eq. intros key. rewrite !elem_of_dom, episode_zeroed_lookup.
  destruct (String.prefix "androidenv_episode" key); [|done].
  apply fmap_is_Some.
Qed.

Lemma perform_dom (c : Call) w :
  dom (_log_dict (self (perform c w).2)) = dom (_log_dict (self w)).
Proof.
  assert (Hreset : forall r w,
    dom (_log_dict (self (reset r w).2)) = dom (_log_dict (self w))).
  { intros r w0. rewrite reset_run. cbv zeta.
    destruct (execute_action r), (get_current_extras r); env_simpl;
      apply episode_zeroed_dom. }
  destruct c as [r|a r]; cbn [perform]; [apply Hreset|].
  destruct (should_restart r) eqn:Hr.
  { rewrite step_restart_run by done.
    destruct (_ !! "restart_count") eqn:Hk; env_simpl; [|done].
    by eapply dom_insert_present. }
  destruct (check_timeout r) eqn:Ht.
  { rewrite step_timeout_run by done.
    destruct (_ !! "reset_count_step_timeout") eqn:Hk; env_simpl; [|done].
    by eapply dom_insert_present. }
  destruct (_reset_next_step (self w)) eqn:Hp.
  { rewrite step_pending_run by done. by rewrite Hreset. }
  rewrite step_normal_run by done. cbv zeta.
  destruct (getitem a "action_type") as [x|]; [|done].
  destruct (np.item x) as [v|]; [|done].
  destruct (counters_only_update v
              (mkWorld (set_latest_action a (self w))
                       (calls w ++ [coordinator_should_restart;
                                    coordinator_check_timeout])))
    as (res & d & -> & Hdom).
  revert Hdom. env_simpl. intros Hdom.
  destruct res as [[]|]; [|done].
  destruct (execute_action r), (get_current_extras r); by env_simpl.
Qed.

(** ** What one call tells about the next *)

Lemma perform_spec (c : Call) w :
  match (perform c w).1 with
  | Return ts =>
      step_type ts = _latest_step_type (self (perform c w).2)
      /\ observation ts = _latest_observation (self (perform c w).2)
      /\ (step_type ts = LAST <-> _reset_next_step (self (perform c w).2) = true)
      /\ (_reset_next_step (self w) = true ->
          step_type ts = FIRST \/ forced c = true /\ step_type ts = LAST)
  | Raise _ =>
      _reset_next_step (self w) = true ->
      _reset_next_step (self (perform c w).2) = true
  end.
Proof.
  assert (Hreset : forall r w,
    match (reset r w).1 with
    | Return ts =>
        step_type ts = _latest_step_type (self (reset r w).2)
        /\ observation ts = _latest_observation (self (reset r w).2)
        /\ (step_type ts = LAST <-> _reset_next_step (self (reset r w).2) = true)
        /\ step_type ts = FIRST
    | Raise _ =>
        _reset_next_step (self (reset r w).2) = _reset_next_step (self w)
    end).
  { intros r w0. rewrite reset_run. cbv zeta.
    destruct (execute_action r), (get_current_extras r); env_simpl;
      repeat split; done. }
  destruct c as [r|a r]; cbn [perform forced].
  { specialize (Hreset r w). destruct (reset r w).1.
    - destruct Hreset as (? & ? & ? & ?). repeat split; auto; tauto.
    - by rewrite Hreset. }
  destruct (should_restart r) eqn:Hr.
  { rewrite step_restart_run by done.
    destruct (_ !! "restart_count"); env_simpl; [|done].
    repeat split; auto. }
  destruct (check_timeout r) eqn:Ht.
  { rewrite step_timeout_run by done.
    destruct (_ !! "reset_count_step_timeout"); env_simpl; [|done].
    repeat split; auto. }
  destruct (_reset_next_step (self w)) eqn:Hp.
  { rewrite step_pending_run by done.
    match goal with |- context [reset r ?w0] => specialize (Hreset r w0) end.
    destruct (reset r _).1.
    - destruct Hreset as (? & ? & ? & ?). repeat split; auto; tauto.
    - intros _. by rewrite Hreset. }
  rewrite step_normal_run by done. cbv zeta.
  destruct (getitem a "action_type") as [x|]; [|done].
  destruct (np.item x) as [v|]; [|done].
  destruct (_update_log_dict v _) as [[[]|] w1]; [|done].
  destruct (execute_action r), (get_current_extras r); env_simpl; try done;
    destruct (check_if_episode_ended r); repeat split; done.
Qed.

(** ** Sequences of calls *)

Lemma run_cons (c : Call) (cs : list Call) w :
  run (c :: cs) w =
  ((c, (perform c w).1) :: (run cs (perform c w).2).1,
   (run cs (perform c w).2).2).
Proof.
  cbn [run]. destruct (perform c w) as [res w']. cbn [fst snd].
  by destruct (run cs w') as [out w''].
Qed.

Lemma run_dom (cs : list Call) w :
  dom (_log_dict (self (run cs w).2)) = dom (_log_dict (self w)).
Proof.
  revert w. induction cs as [|c cs IH]; intros w; [done|].
  rewrite run_cons. cbn [snd]. by rewrite IH, perform_dom.
Qed.

(** The observation a call returns is the one the object caches. *)
Lemma run_last_observation (cs : list Call) w (c : Call) (ts : TimeStep) :
  last (run cs w).1 = Some (c, Return ts) ->
  observation ts = _latest_observation (self (run cs w).2).
Proof.
  revert w. induction cs as [|c0 cs IH]; intros w; [done|].
  rewrite run_cons. cbn [fst snd]. destruct cs as [|c1 cs].
  - cbn. intros [= <- Hres]. pose proof (perform_spec c0 w) as Hspec.
    rewrite Hres in Hspec. tauto.
  - specialize (IH (perform c0 w).2). revert IH.
    rewrite (run_cons c1). cbn [fst snd last]. auto.
Qed.

(** ** The counters the constructor creates *)

Lemma foldl_insert_is_Some {A} (f : A -> string) (v : Qc) (xs : list A) d key :
  is_Some (d !! key) \/ key ∈ f <$> xs ->
  is_Some (foldl (fun d x => <[f x := v]> d) d xs !! key).
Proof.
  revert d. induction xs as [|x xs IH]; intros d; cbn [foldl fmap list_fmap].
  - intros [?|Hin]; [done|]. by apply elem_of_nil in Hin.
  - intros Hk. apply IH.
    destruct (decide (key = f x)) as [->|Hne].
    + left. by rewrite lookup_insert_eq.
    + rewrite lookup_insert_ne by done.
      destruct Hk as [?|Hin]; [by left|].
      apply elem_of_cons in Hin as [?|?]; [done|by right].
Qed.

Lemma init_log_dict_restart_count : is_Some (init_log_dict !! "restart_count").
Proof.
  unfold init_log_dict. cbn [foldl _log_prefixes].
  do 2 (apply foldl_insert_is_Some; left;
        rewrite lookup_insert_ne by (unfold steps_key; cbn; discriminate)).
  rewrite lookup_insert_ne by discriminate. by rewrite lookup_insert_eq.
Qed.

Lemma init_log_dict_timeout_count :
  is_Some (init_log_dict !! "reset_count_step_timeout").
Proof.
  unfold init_log_dict. cbn [foldl _log_prefixes].
  do 2 (apply foldl_insert_is_Some; left;
        rewrite lookup_insert_ne by (unfold steps_key; cbn; discriminate)).
  by rewrite lookup_insert_eq.
Qed.

Lemma init_log_dict_steps prefix :
  prefix ∈ _log_prefixes -> is_Some (init_log_dict !! steps_key prefix).
Proof.
  unfold init_log_dict. cbn [foldl _log_prefixes].
  intros [->|[->|[]%elem_of_nil]%elem_of_cons]%elem_of_cons.
  - apply foldl_insert_is_Some; left.
    rewrite lookup_insert_ne by (unfold steps_key; cbn; discriminate).
    apply foldl_insert_is_Some; left. by rewrite lookup_insert_eq.
  - apply foldl_insert_is_Some; left. by rewrite lookup_insert_eq.
Qed.

Lemma init_log_dict_types prefix t :
  prefix ∈ _log_prefixes -> t ∈ ActionType ->
  is_Some (init_log_dict !! type_key prefix t).
Proof.
  unfold init_log_dict. cbn [foldl _log_prefixes].
  intros [->|[->|[]%elem_of_nil]%elem_of_cons]%elem_of_cons Ht.
  - apply foldl_insert_is_Some; left.
    rewrite lookup_insert_ne by (unfold steps_key, type_key; cbn; discriminate).
    apply foldl_insert_is_Some; right.
    apply list_elem_of_fmap. by exists t.
  - apply foldl_insert_is_Some; right.
    apply list_elem_of_fmap. by exists t.
Qed.

Lemma reachable_key (task : Task) (cs : list Call) key :
  is_Some (init_log_dict !! key) ->
  is_Some (_log_dict (self (run cs (__init__ task)).2) !! key).
Proof.
  intros Hk. apply elem_of_dom. rewrite run_dom. by apply elem_of_dom.
Qed.

(** ** Keys and the episode prefix *)

Lemma episode_prefix_steps :
  String.prefix "androidenv_episode" (steps_key "androidenv_episode") = true.
Proof. reflexivity. Qed.

Lemma episode_prefix_type t :
  String.prefix "androidenv_episode" (type_key "androidenv_episode" t) = true.
Proof. reflexivity. Qed.

Lemma total_prefix_steps :
  String.prefix "androidenv_episode" (steps_key "androidenv_total") = false.
Proof. reflexivity. Qed.

Lemma total_prefix_type t :
  String.prefix "androidenv_episode" (type_key "androidenv_total" t) = false.
Proof. reflexivity. Qed.

(** ** The claims about reset and step *)

(** C7. After [_reset_log_dict] (the per-episode counter reset that every
    [reset] performs) every counter whose key starts with
    ["androidenv_episode"] reads 0 and every other counter, in particular
    the lifetime step and action-type counters and the restart and
    step-timeout counters, holds the value it held before; nothing else
    in the object changes and no exception is raised. *)
Theorem C7_reset_log_dict_zeroes_episode_scope w :
  exists d',
    _reset_log_dict w
    = (Return tt, mkWorld (set_log_dict d' (self w)) (calls w))
    /\ (forall key,
          d' !! key =
          if String.prefix "androidenv_episode" key
          then (fun _ => 0%Qc) <$> _log_dict (self w) !! key
          else _log_dict (self w) !! key)
    /\ d' !! steps_key "androidenv_episode"
       = (fun _ => 0%Qc) <$> _log_dict (self w) !! steps_key "androidenv_episode"
    /\ (forall t, d' !! type_key "androidenv_episode" t
                  = (fun _ => 0%Qc)
                      <$> _log_dict (self w) !! type_key "androidenv_episode" t)
    /\ d' !! steps_key "androidenv_total"
       = _log_dict (self w) !! steps_key "androidenv_total"
    /\ (forall t, d' !! type_key "androidenv_total" t
                  = _log_dict (self w) !! type_key "androidenv_total" t)
    /\ d' !! "restart_count" = _log_dict (self w) !! "restart_count"
    /\ d' !! "reset_count_step_timeout"
       = _log_dict (self w) !! "reset_count_step_timeout"
    /\ (forall r, _log_dict (self (reset r w).2) = d').
Proof.
  exists (episode_zeroed (_log_dict (self w))).
  split; [apply _reset_log_dict_run|].
  split; [apply episode_zeroed_lookup|].
  repeat split; intros; rewrite ?episode_zeroed_lookup; try reflexivity.
  rewrite reset_run. cbv zeta.
  by destruct (execute_action r), (get_current_extras r).
Qed.

(** C3. At a step at which [should_restart()] reports true, on an object
    reached from construction by any sequence of reset/step calls: the
    call returns the time step (LAST, reward 0, discount 0) whose
    observation is the observation cached before the call, which is the
    observation the previous call returned; the coordinator is only asked
    [should_restart] and [restart_simulator], so no observation is
    computed; and of the counters only ["restart_count"] changes, by one. *)
Theorem C3_restart_returns_cached_observation
  (task : Task) (cs : list Call) (a : gmap string np.ndarray) r :
  should_restart r = true ->
  let w := (run cs (__init__ task)).2 in
  exists v,
    _log_dict (self w) !! "restart_count" = Some v
    /\ step a r w
       = (Return (mkTimeStep LAST 0%Qc 0%Qc (_latest_observation (self w))),
          mkWorld
            (set_latest_step_type LAST
               (set_reset_next_step true
                  (set_log_dict
                     (<["restart_count" := (v + 1)%Qc]> (_log_dict (self w)))
                     (set_latest_action a (self w)))))
            (calls w ++ [coordinator_should_restart;
                         coordinator_restart_simulator]))
    /\ (forall c ts,
          last (run cs (__init__ task)).1 = Some (c, Return ts) ->
          observation ts = _latest_observation (self w))
    /\ _latest_observation (self (step a r w).2) = _latest_observation (self w)
    /\ (forall key, key <> "restart_count" ->
          _log_dict (self (step a r w).2) !! key = _log_dict (self w) !! key).
Proof.
  intros Hr w.
  destruct (reachable_key task cs "restart_count"
              init_log_dict_restart_count) as [v Hv].
  fold w in Hv. exists v. split; [done|].
  rewrite (step_restart_run a r w Hr), Hv. split; [done|].
  split; [intros c ts; apply run_last_observation|].
  split; [done|]. intros key Hne. env_simpl. by rewrite lookup_insert_ne.
Qed.

(** C2. A step taken while the reset-pending flag is set, with neither a
    restart nor a timeout reported, gives for every action the same result
    as [reset()] called directly and leaves the object in the same state;
    the collaborators see the two checks followed by the calls of a reset
    (no [increment_steps], the action is not executed); the counters are
    those a reset leaves: lifetime step and action-type counters as
    before the call, episode ones at 0. *)
Theorem C2_pending_step_is_reset (a : gmap string np.ndarray) r w :
  _reset_next_step (self w) = true ->
  should_restart r = false ->
  check_timeout r = false ->
  (step a r w).1 = (reset r w).1
  /\ self (step a r w).2 = self (reset r w).2
  /\ (exists reset_calls,
        calls (reset r w).2 = calls w ++ reset_calls
        /\ calls (step a r w).2
           = calls w ++ [coordinator_should_restart; coordinator_check_timeout]
                     ++ reset_calls)
  /\ _log_dict (self (step a r w).2) = episode_zeroed (_log_dict (self w))
  /\ _log_dict (self (step a r w).2) !! steps_key "androidenv_total"
     = _log_dict (self w) !! steps_key "androidenv_total"
  /\ (forall t,
        _log_dict (self (step a r w).2) !! type_key "androidenv_total" t
        = _log_dict (self w) !! type_key "androidenv_total" t)
  /\ _log_dict (self (step a r w).2) !! steps_key "androidenv_episode"
     = (fun _ => 0%Qc) <$> _log_dict (self w) !! steps_key "androidenv_episode"
  /\ (forall t,
        _log_dict (self (step a r w).2) !! type_key "androidenv_episode" t
        = (fun _ => 0%Qc)
            <$> _log_dict (self w) !! type_key "androidenv_episode" t).
Proof.
  intros Hp Hr Ht. rewrite (step_pending_run a r w Hr Ht Hp).
  assert (Hlog : _log_dict
            (self (reset r (mkWorld (set_latest_action a (self w))
                                    (calls w ++ [coordinator_should_restart;
                                                 coordinator_check_timeout]))).2)
          = episode_zeroed (_log_dict (self w))).
  { rewrite reset_run. cbv zeta.
    by destruct (execute_action r), (get_current_extras r). }
  rewrite !Hlog, !episode_zeroed_lookup. rewrite !reset_run. cbv zeta.
  destruct (execute_action r), (get_current_extras r); env_simpl;
    (split; [reflexivity|]); (split; [reflexivity|]);
    (split; [rewrite <- ?app_assoc; eexists; split; reflexivity|]);
    repeat split; intros; rewrite ?episode_zeroed_lookup; reflexivity.
Qed.

(** C9. Every [step(action)] first overwrites the cached action with (a
    copy of) the supplied one: whatever the checks answer and however the
    call ends, [raw_action] afterwards is the supplied action, except on
    the reset-pending redirect, where [reset] has emptied it. After a
    step ended by a restart or a timeout the action is cached although it
    was neither executed (the call log holds no [execute_action]) nor
    counted (only the restart or the timeout counter may differ). *)
Theorem C9_raw_action_after_step (a : gmap string np.ndarray) r w :
  (raw_action (step a r w).2).1
  = Return (if negb (should_restart r) && negb (check_timeout r)
               && _reset_next_step (self w)
            then ∅ else a)
  /\ (should_restart r = true \/ check_timeout r = true ->
      (raw_action (step a r w).2).1 = Return a
      /\ (forall e, e ∈ calls (step a r w).2 ->
            e ∈ calls w
            \/ e ∈ [coordinator_should_restart; coordinator_restart_simulator;
                    coordinator_check_timeout;
                    logging_info "Step has timed out. Ending episode."])
      /\ (forall key,
            key <> "restart_count" -> key <> "reset_count_step_timeout" ->
            _log_dict (self (step a r w).2) !! key = _log_dict (self w) !! key))
  /\ (should_restart r = false -> check_timeout r = false ->
      _reset_next_step (self w) = true ->
      (raw_action (step a r w).2).1 = Return ∅).
Proof.
  assert (Hraw : _latest_action (self (step a r w).2)
    = if negb (should_restart r) && negb (check_timeout r)
         && _reset_next_step (self w)
      then ∅ else a).
  { destruct (should_restart r) eqn:Hr.
    { rewrite step_restart_run by done.
      by destruct (_ !! "restart_count"). }
    destruct (check_timeout r) eqn:Ht.
    { rewrite step_timeout_run by done.
      by destruct (_ !! "reset_count_step_timeout"). }
    destruct (_reset_next_step (self w)) eqn:Hp.
    { rewrite step_pending_run, reset_run by done. cbv zeta.
      by destruct (execute_action r), (get_current_extras r). }
    rewrite step_normal_run by done. cbv zeta.
    destruct (getitem a "action_type") as [x|]; [|done].
    destruct (np.item x) as [v|]; [|done].
    destruct (counters_only_update v
                (mkWorld (set_latest_action a (self w))
                         (calls w ++ [coordinator_should_restart;
                                      coordinator_check_timeout])))
      as (res & d & -> & _).
    destruct res as [[]|]; [|done].
    by destruct (execute_action r), (get_current_extras r). }
  unfold raw_action. run_method. rewrite Hraw.
  split; [done|]. split.
  - intros Hforced. split.
    { by destruct Hforced as [->| ->]; destruct (should_restart r). }
    destruct (should_restart r) eqn:Hr.
    { rewrite step_restart_run by done.
      destruct (_ !! "restart_count"); env_simpl; split.
      - intros e [?|Hin]%elem_of_app; [by left|right].
        revert Hin. rewrite !elem_of_cons. tauto.
      - intros key Hne _. by rewrite lookup_insert_ne.
      - intros e [?|Hin]%elem_of_app; [by left|right].
        revert Hin. rewrite !elem_of_cons. tauto.
      - done. }
    destruct Hforced as [?|Ht]; [done|].
    rewrite step_timeout_run by done.
    destruct (_ !! "reset_count_step_timeout"); env_simpl; split.
    + intros e [?|Hin]%elem_of_app; [by left|right].
      revert Hin. rewrite !elem_of_cons. tauto.
    + intros key _ Hne. by rewrite lookup_insert_ne.
    + intros e [?|Hin]%elem_of_app; [by left|right].
      revert Hin. rewrite !elem_of_cons. tauto.
    + done.
  - by intros -> -> ->.
Qed.

(** ** Step types along a sequence of calls *)

Lemma returned_cons (c : Call) (res : Result TimeStep)
  (out : list (Call * Result TimeStep)) :
  returned ((c, res) :: out)
  = match res with
    | Return ts => (c, ts) :: returned out
    | Raise _ => returned out
    end.
Proof. unfold returned. cbn [omap list_omap]. by destruct res. Qed.





(** ** Shutdown *)

Lemma close_calls_app (es es' : list Event) :
  close_calls (es ++ es') = (close_calls es + close_calls es')%nat.
Proof. unfold close_calls. by rewrite List.filter_app, length_app. Qed.

Lemma close_run w :
  _coordinator (self w) = Some the_coordinator ->
  close w =
  (Return tt,
   mkWorld (set_is_closed true (self w))
           (calls w ++ [logging_info "Cleaning up AndroidEnv...";
                        coordinator_close;
                        logging_info "Done cleaning up AndroidEnv."])).
Proof.
  intros Hc. unfold close. run_method. rewrite Hc. run_method.
  by rewrite <- !app_assoc.
Qed.

Lemma times_close_run (n : nat) w :
  _coordinator (self w) = Some the_coordinator ->
  (times n close w).1 = Return tt
  /\ _coordinator (self (times n close w).2) = Some the_coordinator
  /\ close_calls (calls (times n close w).2) = (close_calls (calls w) + n)%nat
  /\ _is_closed (self (times n close w).2)
     = match n with O => _is_closed (self w) | S _ => true end.
Proof.
  revert w. induction n as [|n IH]; intros w Hc.
  - cbn. by rewrite Nat.add_0_r.
  - cbn [times]. unfold mbind, M_bind. rewrite close_run by done.
    match goal with |- context [times n close ?w1] =>
      destruct (IH w1 Hc) as (Hres & Hc' & Hcount & Hflag);
      destruct (times n close w1) as [res w2] end.
    cbn [fst snd] in *. subst res. repeat split; [done| |].
    + rewrite Hcount. env_simpl. rewrite close_calls_app. cbn. lia.
    + rewrite Hflag. by destruct n.
Qed.

(** C5, as the code has it. [close()] does not look at [_is_closed]:
    each invocation calls the coordinator's [close()] once more, so [n]
    invocations make [n] calls. The flag only stops the implicit close of
    [__del__]: after at least one [close()] it makes no further call, on
    an object never closed it makes exactly one. No invocation raises. *)
Theorem C5_close_reaches_coordinator_every_time (n : nat) w :
  _coordinator (self w) = Some the_coordinator ->
  (times n close w).1 = Return tt
  /\ close_calls (calls (times n close w).2) = (close_calls (calls w) + n)%nat
  /\ ((1 <= n)%nat ->
      close_calls (calls (__del__ (times n close w).2).2)
      = (close_calls (calls w) + n)%nat)
  /\ (_is_closed (self w) = false ->
      close_calls (calls (__del__ w).2) = (close_calls (calls w) + 1)%nat).
Proof.
  intros Hc. destruct (times_close_run n w Hc) as (Hres & Hc' & Hcount & Hflag).
  repeat split; [done|done| |].
  - intros Hn. unfold __del__. run_method. rewrite Hflag.
    destruct n; [lia|]. by cbn.
  - intros Hopen. unfold __del__. run_method. rewrite Hopen. cbn [negb].
    rewrite close_run by done. env_simpl. rewrite close_calls_app. by cbn.
Qed.

(** ** What a call caches *)

Ltac not_in_calls :=
  let Hin := fresh "Hin" in
  intros Hin;
  repeat (apply elem_of_cons in Hin as [Hin|Hin]; [discriminate Hin|]);
  by apply elem_of_nil in Hin.

Ltac in_calls :=
  repeat first [ apply list_elem_of_here | apply list_elem_of_further ].

Ltac cache_cases :=
  repeat split;
  try reflexivity;
  try (intros _; reflexivity);
  try (let Hn := fresh in intros Hn; exfalso;
       first [ solve [apply (Hn None); in_calls]
             | solve [eapply (Hn (Some _)); in_calls]
             | solve [apply Hn; in_calls] ]);
  try (let Hn := fresh in let a := fresh in
       intros [a Hn]; exfalso; revert Hn; not_in_calls);
  try (let Hn := fresh in intros Hn; exfalso; revert Hn; not_in_calls).

(** C4, as the code has it. During reset and step the cached observation
    is replaced only when the executor is asked and returns a non-null
    result, and persists otherwise. The cached task extras have no such
    guard: whenever the provider is asked and returns a mapping they are
    replaced by it, whatever the executor returned; a null result makes
    the call raise [AttributeError] (no time step is returned), the
    cached extras staying as they were; when the provider is not asked
    they are untouched. [new] are the calls made during the call. *)
Theorem C4_cached_observation_guarded_extras_not (c : Call) w :
  exists new,
    calls (perform c w).2 = calls w ++ new
    /\ ((forall a, coordinator_execute_action a ∉ new) ->
        _latest_observation (self (perform c w).2)
        = _latest_observation (self w))
    /\ ((exists a, coordinator_execute_action a ∈ new) ->
        _latest_observation (self (perform c w).2)
        = match execute_action (responses c) with
          | Some o => o
          | None => _latest_observation (self w)
          end)
    /\ (task_manager_get_current_extras ∉ new ->
        _latest_extras (self (perform c w).2) = _latest_extras (self w))
    /\ (task_manager_get_current_extras ∈ new ->
        match get_current_extras (responses c) with
        | Some e => _latest_extras (self (perform c w).2) = e
        | None =>
            (perform c w).1 = Raise AttributeError
            /\ _latest_extras (self (perform c w).2) = _latest_extras (self w)
        end).
Proof.
  destruct c as [r|a r]; cbn [perform responses].
  { rewrite reset_run. cbv zeta.
    destruct (execute_action r), (get_current_extras r); env_simpl;
      rewrite <- ?app_assoc; eexists; (split; [reflexivity|]); cache_cases. }
  destruct (should_restart r) eqn:Hr.
  { rewrite step_restart_run by done.
    destruct (_ !! "restart_count"); env_simpl;
      eexists; (split; [reflexivity|]); cache_cases. }
  destruct (check_timeout r) eqn:Ht.
  { rewrite step_timeout_run by done.
    destruct (_ !! "reset_count_step_timeout"); env_simpl;
      eexists; (split; [reflexivity|]); cache_cases. }
  destruct (_reset_next_step (self w)) eqn:Hp.
  { rewrite step_pending_run, reset_run by done. cbv zeta.
    destruct (execute_action r), (get_current_extras r); env_simpl;
      rewrite <- ?app_assoc; eexists; (split; [reflexivity|]); cache_cases. }
  rewrite step_normal_run by done. cbv zeta.
  destruct (getitem a "action_type") as [x|];
    [|env_simpl; eexists; (split; [reflexivity|]); cache_cases].
  destruct (np.item x) as [v|];
    [|env_simpl; eexists; (split; [reflexivity|]); cache_cases].
  destruct (counters_only_update v
              (mkWorld (set_latest_action a (self w))
                       (calls w ++ [coordinator_should_restart;
                                    coordinator_check_timeout])))
    as (res & d & -> & _).
  destruct res as [[]|];
    [|env_simpl; eexists; (split; [reflexivity|]); cache_cases].
  destruct (execute_action r), (get_current_extras r); env_simpl;
    rewrite <- ?app_assoc; eexists; (split; [reflexivity|]); cache_cases.
Qed.

(** ** Task extras *)

Lemma for_fold_app {A B} (xs ys : list A) (f : B -> A -> M B) (b : B) w :
  for_fold (xs ++ ys) f b w =
  match for_fold xs f b w with
  | (Return b', w') => for_fold ys f b' w'
  | (Raise e, w') => (Raise e, w')
  end.
Proof.
  revert b w. induction xs as [|x xs IH]; intros b w; [done|].
  cbn [for_fold app]. unfold mbind, M_bind.
  destruct (f b x w) as [[b'|e] w']; [apply IH|done].
Qed.

Lemma validate_row_ok (spec : Array) (x : np.ndarray) :
  validate spec x
  = if row_ok spec x then Return (np.asarray x) else Raise SchemaViolation.
Proof.
  unfold validate, row_ok. cbv zeta.
  destruct (bool_decide (np.shape (np.asarray x) = spec_shape spec)); [|done].
  destruct (bool_decide (np.dtype_of (np.asarray x) = spec_dtype spec));
    [|done].
  by destruct (out_of_bounds (bounds spec) (np.asarray x)).
Qed.

Lemma validate_loop_run (spec : Array) (rows : list np.ndarray) w :
  validate_all spec rows w
  = (if forallb (row_ok spec) rows then Return tt else Raise SchemaViolation,
     w).
Proof.
  unfold validate_all. induction rows as [|x rows IH]; [done|].
  cbn [for_each forallb]. run_method. rewrite validate_row_ok.
  destruct (row_ok spec x); [|done]. apply IH.
Qed.

(** A conversion that succeeds gives the requested dtype and keeps the
    shape. *)
Lemma astype_Return (d : dtype) (cached converted : np.ndarray) :
  np.astype d cached = Return converted ->
  np.dtype_of converted = d /\ np.shape converted = np.shape cached.
Proof.
  unfold np.astype. destruct (traverse _ _); [|done]. by intros [= <-].
Qed.

Lemma task_extras_item_run (latest_only : bool)
  (acc : gmap string np.ndarray) key (spec : Array) w :
  task_extras_item latest_only acc (key, spec) w
  = (item_outcome latest_only acc key spec (_latest_extras (self w) !! key),
     w).
Proof.
  unfold task_extras_item, item_outcome. run_method.
  destruct (_latest_extras (self w) !! key) as [cached|]; [|done].
  destruct (np.astype (spec_dtype spec) cached) as [converted|]; [|done].
  destruct (np.iter converted) as [rows|]; [|done].
  rewrite (validate_loop_run spec rows w).
  destruct (forallb (row_ok spec) rows); [|done].
  destruct latest_only; [|done].
  by destruct (np.last_item _).
Qed.

Lemma task_extras_loop_world (latest_only : bool)
  (items : list (string * Array)) (acc : gmap string np.ndarray) w :
  (for_fold items (task_extras_item latest_only) acc w).2 = w.
Proof.
  revert acc. induction items as [|[key spec] items IH]; intros acc; [done|].
  cbn [for_fold]. unfold mbind, M_bind. rewrite task_extras_item_run.
  destruct (item_outcome _ _ _ _ _); [apply IH|done].
Qed.

Lemma task_extras_run (latest_only : bool) w :
  task_extras latest_only w
  = for_fold (specs_task_extras_spec (_task (self w)))
             (task_extras_item latest_only) ∅ w.
Proof. unfold task_extras, task_extras_spec. by run_method. Qed.

(** The loop up to and including the item [(key, spec)], when the items
    before it were accepted. *)
Lemma task_extras_upto (latest_only : bool) w
  (pre post : list (string * Array)) key (spec : Array)
  (acc : gmap string np.ndarray) :
  (for_fold pre (task_extras_item latest_only) ∅ w).1 = Return acc ->
  for_fold (pre ++ (key, spec) :: post) (task_extras_item latest_only) ∅ w
  = match item_outcome latest_only acc key spec
            (_latest_extras (self w) !! key) with
    | Return acc' => for_fold post (task_extras_item latest_only) acc' w
    | Raise e => (Raise e, w)
    end.
Proof.
  intros Hpre. rewrite for_fold_app.
  pose proof (task_extras_loop_world latest_only pre ∅ w) as Hw.
  destruct (for_fold pre _ ∅ w) as [res w']. cbn [fst snd] in *. subst.
  cbn [for_fold]. unfold mbind, M_bind. rewrite task_extras_item_run.
  by destruct (item_outcome _ _ _ _ _).
Qed.


(** C10, as the code has it. If the value cached for a schema key has no
    rows (its first dimension is 0) and the schema items before that key
    are accepted, [task_extras(latest_only=True)] validates nothing for
    the key and then raises [IndexError] at [extra_values[-1]], not a
    SchemaViolation. Such a value gets into the cache through the public
    interface: [reset] caches whatever mapping the extras provider
    returns. *)
Theorem C10_no_rows_raises_index_error w
  (pre post : list (string * Array)) key (spec : Array)
  (cached : np.ndarray) (acc : gmap string np.ndarray) (sh : list nat) :
  specs_task_extras_spec (_task (self w)) = pre ++ (key, spec) :: post ->
  (for_fold pre (task_extras_item true) ∅ w).1 = Return acc ->
  _latest_extras (self w) !! key = Some cached ->
  np.shape cached = O :: sh ->
  (task_extras true w).1 = Raise IndexError
  /\ (forall r w0 e,
        get_current_extras r = Some e ->
        _latest_extras (self (reset r w0).2) = e
        /\ _task (self (reset r w0).2) = _task (self w0)).
Proof.
  intros Hschema Hpre Hcached Hshape. split.
  - rewrite task_extras_run, Hschema.
    rewrite (task_extras_upto _ _ _ _ _ _ acc Hpre).
    unfold item_outcome, np.astype, np.elements. rewrite Hcached, Hshape.
    cbn [np.size_of foldr Nat.mul take traverse].
    unfold np.iter, np.last_item. by cbn.
  - intros r w0 e He. rewrite reset_run. cbv zeta. rewrite He.
    by destruct (execute_action r).
Qed.

(** ** The keys of the counters are distinct *)

Ltac prefix_cases Hp :=
  apply elem_of_cons in Hp as [->|Hp];
  [|apply elem_of_cons in Hp as [->|Hp]; [|by apply elem_of_nil in Hp]].

Ltac key_eq H :=
  unfold steps_key, type_key, ratio_key in H; cbn in H;
  try discriminate H; simplify_eq.

Lemma steps_key_ne_type_key p p' t :
  p ∈ _log_prefixes -> p' ∈ _log_prefixes -> steps_key p <> type_key p' t.
Proof. intros Hp Hp' Heq. prefix_cases Hp; prefix_cases Hp'; key_eq Heq. Qed.

Lemma steps_key_inj p p' :
  p ∈ _log_prefixes -> p' ∈ _log_prefixes ->
  steps_key p = steps_key p' -> p = p'.
Proof.
  intros Hp Hp' Heq. prefix_cases Hp; prefix_cases Hp'; key_eq Heq; done.
Qed.

Lemma type_key_inj p p' t t' :
  p ∈ _log_prefixes -> p' ∈ _log_prefixes ->
  type_key p t = type_key p' t' -> p = p' /\ name t = name t'.
Proof.
  intros Hp Hp' Heq. prefix_cases Hp; prefix_cases Hp'; key_eq Heq; done.
Qed.

Lemma ratio_key_inj p p' t t' :
  p ∈ _log_prefixes -> p' ∈ _log_prefixes ->
  ratio_key p t = ratio_key p' t' -> p = p' /\ name t = name t'.
Proof.
  intros Hp Hp' Heq. prefix_cases Hp; prefix_cases Hp'; key_eq Heq; done.
Qed.

Lemma ratio_key_ne_steps_key p p' t :
  p ∈ _log_prefixes -> p' ∈ _log_prefixes -> ratio_key p t <> steps_key p'.
Proof. intros Hp Hp' Heq. prefix_cases Hp; prefix_cases Hp'; key_eq Heq. Qed.

Lemma ratio_key_type_key p p' t t' :
  p ∈ _log_prefixes -> p' ∈ _log_prefixes ->
  ratio_key p t = type_key p' t' -> name t' = "ratio_" +:+ name t.
Proof.
  intros Hp Hp' Heq. prefix_cases Hp; prefix_cases Hp'; key_eq Heq; done.
Qed.

Lemma type_key_name p t t' : name t = name t' -> type_key p t = type_key p t'.
Proof. unfold type_key. by intros ->. Qed.

Lemma total_in_prefixes : "androidenv_total" ∈ _log_prefixes.
Proof. apply list_elem_of_here. Qed.

Lemma episode_in_prefixes : "androidenv_episode" ∈ _log_prefixes.
Proof. apply list_elem_of_further, list_elem_of_here. Qed.

(** ** Recording steps *)

Lemma incr_lookup key d k :
  incr key d !! k
  = if decide (k = key) then (fun v => (v + 1)%Qc) <$> d !! k else d !! k.
Proof.
  unfold incr. destruct (d !! key) as [v|] eqn:Hk.
  - destruct (decide (k = key)) as [->|Hne].
    + by rewrite lookup_insert_eq, Hk.
    + by rewrite lookup_insert_ne.
  - destruct (decide (k = key)) as [->|Hne]; [by rewrite Hk|done].
Qed.

Lemma incr_is_Some key d k : is_Some (incr key d !! k) <-> is_Some (d !! k).
Proof.
  rewrite incr_lookup. destruct (decide (k = key)); [|done].
  apply fmap_is_Some.
Qed.

Lemma log_dict_incr_incr key w :
  is_Some (_log_dict (self w) !! key) ->
  log_dict_incr key w
  = (Return tt,
     mkWorld (set_log_dict (incr key (_log_dict (self w))) (self w)) (calls w)).
Proof.
  intros [v Hv]. rewrite log_dict_incr_run. unfold incr. by rewrite Hv.
Qed.

Lemma ActionType_call_member (v : scalar) t :
  ActionType_call v = Return t -> t ∈ ActionType.
Proof.
  unfold ActionType_call.
  destruct (find _ ActionType) as [m|] eqn:Hfind; [|done].
  intros [= <-]. apply find_some in Hfind as [Hin _].
  by apply list_elem_of_In.
Qed.

Lemma present_dom d d' : dom d' = dom d -> present d -> present d'.
Proof.
  intros Hdom Hd p Hp. destruct (Hd p Hp) as [Hs Ht]. split.
  - apply elem_of_dom. rewrite Hdom. by apply elem_of_dom.
  - intros t Hin. apply elem_of_dom. rewrite Hdom. apply elem_of_dom. auto.
Qed.

Lemma incr_dom key d : dom (incr key d) = dom d.
Proof.
  apply set_eq. intros k. rewrite !elem_of_dom. apply incr_is_Some.
Qed.

Lemma record_step_dom t d : dom (record_step t d) = dom d.
Proof. unfold record_step. cbn [foldl _log_prefixes]. by rewrite !incr_dom. Qed.

Lemma _update_log_dict_run (v : scalar) t w :
  ActionType_call v = Return t ->
  present (_log_dict (self w)) ->
  _update_log_dict v w
  = (Return tt,
     mkWorld (set_log_dict (record_step t (_log_dict (self w))) (self w))
             (calls w)).
Proof.
  intros Hcall Hd. pose proof (ActionType_call_member v t Hcall) as Hin.
  destruct (Hd _ total_in_prefixes) as [Hs1 Ht1].
  destruct (Hd _ episode_in_prefixes) as [Hs2 Ht2].
  specialize (Ht1 t Hin). specialize (Ht2 t Hin).
  unfold _update_log_dict. cbn [for_each _log_prefixes].
  unfold mbind at 1, M_bind at 1, lift at 1. rewrite Hcall.
  unfold mbind, M_bind.
  rewrite log_dict_incr_incr by done. env_simpl.
  rewrite log_dict_incr_incr by (env_simpl; by apply incr_is_Some).
  env_simpl.
  rewrite log_dict_incr_incr by (env_simpl; by rewrite !incr_is_Some).
  env_simpl.
  rewrite log_dict_incr_incr by (env_simpl; by rewrite !incr_is_Some).
  reflexivity.
Qed.

Ltac key_ne := let Heq := fresh in intros Heq; by key_eq Heq.

Lemma record_step_steps t d :
  record_step t d !! steps_key "androidenv_episode"
  = (fun v => (v + 1)%Qc) <$> d !! steps_key "androidenv_episode".
Proof.
  unfold record_step. cbn [foldl _log_prefixes]. rewrite !incr_lookup.
  rewrite (decide_False (P := steps_key "androidenv_episode"
                              = type_key "androidenv_episode" t)) by key_ne.
  rewrite (decide_True (P := steps_key "androidenv_episode"
                             = steps_key "androidenv_episode")) by done.
  rewrite (decide_False (P := steps_key "androidenv_episode"
                              = type_key "androidenv_total" t)) by key_ne.
  by rewrite (decide_False (P := steps_key "androidenv_episode"
                                 = steps_key "androidenv_total")) by key_ne.
Qed.

Lemma record_step_type t t' d :
  record_step t d !! type_key "androidenv_episode" t'
  = if decide (name t' = name t)
    then (fun v => (v + 1)%Qc) <$> d !! type_key "androidenv_episode" t'
    else d !! type_key "androidenv_episode" t'.
Proof.
  unfold record_step. cbn [foldl _log_prefixes]. rewrite !incr_lookup.
  rewrite (decide_False (P := type_key "androidenv_episode" t'
                              = steps_key "androidenv_episode")) by key_ne.
  rewrite (decide_False (P := type_key "androidenv_episode" t'
                              = type_key "androidenv_total" t)) by key_ne.
  rewrite (decide_False (P := type_key "androidenv_episode" t'
                              = steps_key "androidenv_total")) by key_ne.
  destruct (decide (name t' = name t)) as [Hn|Hn].
  - by rewrite decide_True by by apply type_key_name.
  - rewrite decide_False; [done|]. intros Heq.
    by apply type_key_inj in Heq as [_ ?];
      [|apply episode_in_prefixes|apply episode_in_prefixes].
Qed.

Lemma Qc_of_nat_0 : Qc_of_nat 0 = 0%Qc.
Proof. apply Z2Qc_inj_0. Qed.

Lemma Qc_of_nat_S (n : nat) : Qc_of_nat (S n) = (Qc_of_nat n + 1)%Qc.
Proof.
  unfold Qc_of_nat. by rewrite Nat2Z.inj_succ, <- Z.add_1_r, Z2Qc_inj_add.
Qed.

Lemma name_inj t t' :
  NoDup (name <$> ActionType) -> t ∈ ActionType -> t' ∈ ActionType ->
  name t = name t' -> t = t'.
Proof.
  induction ActionType as [|x xs IH]; [by intros _ ?%elem_of_nil|].
  cbn [fmap list_fmap]. intros [Hx Hxs]%NoDup_cons.
  intros [->|Ht]%elem_of_cons [->|Ht']%elem_of_cons Hn; [done| | |by apply IH].
  - destruct Hx. rewrite Hn. apply list_elem_of_fmap. by exists t'.
  - destruct Hx. rewrite <- Hn. apply list_elem_of_fmap. by exists t.
Qed.

Lemma occurrences_snoc t t0 (ts : list EnumMember) :
  occurrences t (ts ++ [t0])
  = (occurrences t ts + if decide (t0 = t) then 1 else 0)%nat.
Proof.
  unfold occurrences. rewrite filter_app, length_app. f_equal.
  rewrite filter_cons, filter_nil. by destruct (decide (t0 = t)).
Qed.

(** The episode counters after a reset of the counters and the recorded
    steps [ts]. *)
Lemma recorded_counts d0 (ts : list EnumMember) :
  NoDup (name <$> ActionType) ->
  present d0 ->
  Forall (fun t => t ∈ ActionType) ts ->
  let d := foldl (fun d t => record_step t d) (episode_zeroed d0) ts in
  d !! steps_key "androidenv_episode" = Some (Qc_of_nat (length ts))
  /\ forall t, t ∈ ActionType ->
       d !! type_key "androidenv_episode" t
       = Some (Qc_of_nat (occurrences t ts)).
Proof.
  intros Hnd Hd0. induction ts as [|t0 ts IH] using rev_ind; intros Hts d.
  - subst d. cbn [foldl length]. destruct (Hd0 _ episode_in_prefixes) as [Hs Ht].
    rewrite episode_zeroed_lookup, episode_prefix_steps.
    destruct Hs as [v ->]. rewrite Qc_of_nat_0. split; [done|]. intros t Hin.
    rewrite episode_zeroed_lookup, episode_prefix_type.
    destruct (Ht t Hin) as [v' ->]. unfold occurrences.
    rewrite filter_nil. cbn [length]. by rewrite Qc_of_nat_0.
  - apply Forall_app in Hts as [Hts [Ht0 _]%Forall_cons].
    destruct (IH Hts) as [IHs IHt]. subst d. rewrite foldl_app. cbn [foldl].
    rewrite record_step_steps, IHs, length_app, Nat.add_1_r, Qc_of_nat_S.
    split; [done|]. intros t Hin.
    rewrite record_step_type, (IHt t Hin), occurrences_snoc.
    destruct (decide (name t = name t0)) as [Hn|Hn].
    + rewrite decide_True by (symmetry; by apply name_inj).
      by rewrite Nat.add_1_r, Qc_of_nat_S.
    + rewrite decide_False by (intros ->; done). by rewrite Nat.add_0_r.
Qed.

(** ** Rounding to the nearest double *)

Lemma rne_error (x : Q) : (- (1 # 2) <= inject_Z (float.rne x) - x <= 1 # 2)%Q.
Proof.
  unfold float.rne. pose proof (Qfloor_le x) as Hlo. pose proof (Qlt_floor x) as Hhi.
  rewrite inject_Z_plus in Hhi. change (inject_Z 1) with 1%Q in Hhi.
  destruct (Qcompare_spec (x - inject_Z (Qfloor x)) (1 # 2)) as [He|Hl|Hg].
  - destruct (Z.even _);
      [|rewrite inject_Z_plus; change (inject_Z 1) with 1%Q]; lra.
  - lra.
  - rewrite inject_Z_plus. change (inject_Z 1) with 1%Q. lra.
Qed.

Lemma pow2_pos (k : Z) : (0 < 2 ^ k)%Q.
Proof. by apply Qpower_0_lt. Qed.

Lemma pow2_add (a b : Z) : (2 ^ (a + b) == 2 ^ a * 2 ^ b)%Q.
Proof. by apply Qpower_plus. Qed.

Lemma pow2_Z (a : Z) : 0 <= a -> (inject_Z (2 ^ a) == 2 ^ a)%Q.
Proof. intros Ha. by rewrite Zpower_Qpower. Qed.

Lemma frac_le (n d p r : Q) :
  (0 < d)%Q -> (0 < r)%Q -> (p * d <= n * r)%Q -> (p / r <= n / d)%Q.
Proof.
  intros Hd Hr Hle. apply Qle_shift_div_r; [done|].
  setoid_replace (n / d * r)%Q with (n * r / d)%Q using relation Qeq
      by (field; lra).
  by apply Qle_shift_div_l.
Qed.

Lemma frac_lt (n d p r : Q) :
  (0 < d)%Q -> (0 < r)%Q -> (n * r < p * d)%Q -> (n / d < p / r)%Q.
Proof.
  intros Hd Hr Hlt. apply Qlt_shift_div_r; [done|].
  setoid_replace (p / r * d)%Q with (p * d / r)%Q using relation Qeq
      by (field; lra).
  by apply Qlt_shift_div_l.
Qed.

Lemma ilog2_spec (x : Q) :
  (0 < x)%Q -> (2 ^ float.ilog2 x <= x < 2 ^ (float.ilog2 x + 1))%Q.
Proof.
  intros Hx. destruct x as [n d]. unfold float.ilog2. cbn [Qnum Qden].
  assert (Hn : 0 < n) by (unfold Qlt in Hx; cbn in Hx; lia).
  set (a := Z.log2 n). set (b := Z.log2 (Z.pos d)).
  destruct (Z.log2_spec n Hn) as [Ha1 Ha2]. fold a in Ha1, Ha2.
  destruct (Z.log2_spec (Z.pos d) (Pos2Z.is_pos d)) as [Hb1 Hb2].
  fold b in Hb1, Hb2.
  assert (Ha0 : 0 <= a) by apply Z.log2_nonneg.
  assert (Hb0 : 0 <= b) by apply Z.log2_nonneg.
  rewrite <- Z.add_1_r, Z.pow_add_r, Z.pow_1_r in Ha2, Hb2 by lia.
  rewrite Zle_Qle, pow2_Z in Ha1, Hb1 by done.
  rewrite Zlt_Qlt, inject_Z_mult, pow2_Z in Ha2, Hb2 by done.
  change (inject_Z 2) with 2%Q in Ha2, Hb2.
  pose proof (pow2_pos a) as Hpa. pose proof (pow2_pos b) as Hpb.
  assert (Hd : (0 < inject_Z (Z.pos d))%Q) by lra.
  rewrite (Qmake_Qdiv n d).
  set (N := inject_Z n) in *. set (D := inject_Z (Z.pos d)) in *.
  assert (Hk : (2 ^ (a - b) == 2 ^ a / 2 ^ b)%Q).
  { unfold Z.sub. rewrite pow2_add, Qpower_opp. reflexivity. }
  destruct (Qle_bool (2 ^ (a - b)) (N / D)) eqn:Htest.
  - apply Qle_bool_iff in Htest. split; [done|].
    rewrite pow2_add, Hk. change (2 ^ 1)%Q with 2%Q.
    setoid_replace (2 ^ a / 2 ^ b * 2)%Q with (2 * 2 ^ a / 2 ^ b)%Q using relation Qeq
      by (field; lra).
    apply frac_lt; [done|done|]. nra.
  - assert (Hlt : (N / D < 2 ^ (a - b))%Q).
    { apply Qnot_le_lt. intros Hle. apply Qle_bool_iff in Hle. congruence. }
    split.
    + unfold Z.sub at 1. rewrite pow2_add, Hk.
      change (2 ^ (-1))%Q with (1 # 2)%Q.
      setoid_replace (2 ^ a / 2 ^ b * (1 # 2))%Q with (2 ^ a / (2 * 2 ^ b))%Q using relation Qeq
      by (field; lra).
      apply frac_le; [done|lra|]. nra.
    + by replace (a - b - 1 + 1) with (a - b) by lia.
Qed.

(** The rounding error in the normal range. *)
Lemma round_pos_error (x : Q) :
  (2 ^ (-1022) <= x)%Q ->
  ((1 - 2 ^ (-53)) * x <= float.round_pos x <= (1 + 2 ^ (-53)) * x)%Q.
Proof.
  intros Hx. pose proof (pow2_pos (-1022)) as Hmin.
  assert (Hpos : (0 < x)%Q) by lra.
  destruct (ilog2_spec x Hpos) as [Hlo Hhi]. unfold float.round_pos.
  assert (Hil : -1022 <= float.ilog2 x).
  { assert (Hlt : (2 ^ (-1022) < 2 ^ (float.ilog2 x + 1))%Q) by lra.
    apply Qpower_lt_compat_l_inv in Hlt; [lia|reflexivity]. }
  rewrite Z.max_l by lia.
  set (e := float.ilog2 x - 52).
  pose proof (pow2_pos e) as He. pose proof (rne_error (x / 2 ^ e)) as Hr.
  set (m := inject_Z (float.rne (x / 2 ^ e))) in *.
  assert (Hxe : (x / 2 ^ e * 2 ^ e == x)%Q) by (field; lra).
  assert (Hee : (2 ^ float.ilog2 x == 2 ^ e * 2 ^ 52)%Q).
  { rewrite <- pow2_add. by replace (e + 52) with (float.ilog2 x) by (unfold e; lia). }
  change (2 ^ (-53))%Q with (1 # 9007199254740992)%Q.
  change (2 ^ 52)%Q with (4503599627370496 # 1)%Q in Hee.
  set (y := (x / 2 ^ e)%Q) in *. set (E := (2 ^ e)%Q) in *.
  set (A := (2 ^ float.ilog2 x)%Q) in *.
  split; nra.
Qed.


(** A rounded value of at most 1 is far below the overflow threshold. *)
Lemma round_pos_small (x : Q) :
  (0 < x <= 1)%Q -> (0 <= float.round_pos x <= 2)%Q.
Proof.
  intros [Hpos Hle]. destruct (ilog2_spec x Hpos) as [Hlo _].
  unfold float.round_pos.
  set (e := Z.max (float.ilog2 x - 52) (-1074)).
  assert (He1 : (2 ^ e <= 1)%Q).
  { change 1%Q with (2 ^ 0)%Q. apply Qpower_le_compat_l; [|done].
    assert (float.ilog2 x <= 0); [|lia].
    apply (Qpower_le_compat_l_inv 2); [|reflexivity].
    change (2 ^ 0)%Q with 1%Q. lra. }
  pose proof (pow2_pos e) as He. pose proof (rne_error (x / 2 ^ e)) as Hr.
  assert (Hxe : (x / 2 ^ e * 2 ^ e == x)%Q) by (field; lra).
  assert (Hy : (0 < x / 2 ^ e)%Q) by by apply Qlt_shift_div_l; lra.
  assert (Hm : 0 <= float.rne (x / 2 ^ e)).
  { assert (Hgt : (inject_Z (-1) < inject_Z (float.rne (x / 2 ^ e)))%Q).
    { change (inject_Z (-1)) with (-1)%Q. lra. }
    rewrite <- Zlt_Qlt in Hgt. lia. }
  rewrite Zle_Qle in Hm. change (inject_Z 0) with 0%Q in Hm.
  set (m := inject_Z (float.rne (x / 2 ^ e))) in *.
  set (y := (x / 2 ^ e)%Q) in *. set (E := (2 ^ e)%Q) in *.
  split; nra.
Qed.

(** ** From [Q] to canonical rationals *)

Lemma this_plus (x y : Qc) : (this (x + y)%Qc == this x + this y)%Q.
Proof. apply Qred_correct. Qed.

Lemma this_mult (x y : Qc) : (this (x * y)%Qc == this x * this y)%Q.
Proof. apply Qred_correct. Qed.

Lemma this_opp (x : Qc) : (this (- x)%Qc == - this x)%Q.
Proof. apply Qred_correct. Qed.

Lemma this_minus (x y : Qc) : (this (x - y)%Qc == this x - this y)%Q.
Proof. unfold Qcminus. by rewrite this_plus, this_opp. Qed.

Lemma this_inv (x : Qc) : (this (/ x)%Qc == / this x)%Q.
Proof. apply Qred_correct. Qed.

Lemma this_div (x y : Qc) : (this (x / y)%Qc == this x / this y)%Q.
Proof. unfold Qcdiv. by rewrite this_mult, this_inv. Qed.

Lemma this_Q2Qc (q : Q) : (this (Q2Qc q) == q)%Q.
Proof. apply Qred_correct. Qed.

Lemma this_of_nat (n : nat) : this (Qc_of_nat n) = inject_Z (Z.of_nat n).
Proof. reflexivity. Qed.

Ltac to_Q :=
  unfold Qcle, Qclt, float.unit_roundoff, float.overflow_threshold in *;
  repeat first [ rewrite this_mult | rewrite this_div | rewrite this_minus
               | rewrite this_plus | rewrite this_opp | rewrite this_Q2Qc
               | rewrite this_of_nat ];
  change (this 1%Qc) with 1%Q; change (this 0%Qc) with 0%Q.

Lemma round_0 : float.round 0 = 0%Qc.
Proof. reflexivity. Qed.

Lemma round_positive (q : Qc) :
  (0 < q)%Qc -> float.round q = Q2Qc (float.round_pos q).
Proof. intros Hq. unfold float.round. by rewrite bool_decide_true. Qed.

(** The relative error of rounding is at most the unit roundoff, for a
    [q] that is not below the smallest normal double. *)
Lemma round_error (q : Qc) :
  (Q2Qc (2 ^ (-1022)) <= q)%Qc ->
  ((1 - float.unit_roundoff) * q <= float.round q)%Qc
  /\ (float.round q <= (1 + float.unit_roundoff) * q)%Qc.
Proof.
  intros Hq. assert (Hx : (2 ^ (-1022) <= q)%Q) by (by to_Q).
  assert (Hpos : (0 < q)%Qc).
  { to_Q. pose proof (pow2_pos (-1022)). lra. }
  rewrite round_positive by done.
  destruct (round_pos_error q Hx) as [Hlo Hhi]. by to_Q.
Qed.

Lemma round_small (q : Qc) :
  (0 <= q)%Qc -> (q <= 1)%Qc ->
  (Qcabs (float.round q) < float.overflow_threshold)%Qc.
Proof.
  intros H0 H1.
  assert (Hbig : (2 < 2 ^ 1024)%Q).
  { change 2%Q with (2 ^ 1)%Q at 1. by apply Qpower_lt_compat_l. }
  destruct (Qcle_lt_or_eq _ _ H0) as [Hpos| <-].
  - rewrite round_positive by done.
    destruct (round_pos_small q) as [Hlo Hhi]; [by to_Q|].
    rewrite Qcabs_pos by (by to_Q). to_Q. lra.
  - rewrite round_0. rewrite Qcabs_pos by done. to_Q. lra.
Qed.

(** ** Dividing one count by another *)

Lemma truediv_run (a b : Qc) :
  b <> 0%Qc ->
  (Qcabs (float.round (a / b)) < float.overflow_threshold)%Qc ->
  truediv a b = Return (float.round (a / b)).
Proof.
  intros Hb Hq. unfold truediv. rewrite bool_decide_false by done.
  cbv zeta. by rewrite bool_decide_true.
Qed.

Lemma truediv_no_zero_division (a b : Qc) :
  b <> 0%Qc -> truediv a b <> Raise ZeroDivisionError.
Proof.
  intros Hb. unfold truediv. rewrite bool_decide_false by done. cbv zeta.
  by destruct (bool_decide _).
Qed.

Lemma Qc_of_nat_pos (n : nat) : n <> 0%nat -> (0 < Qc_of_nat n)%Qc.
Proof.
  intros Hn. unfold Qc_of_nat. rewrite <- Z2Qc_inj_0, <- Z2Qc_inj_lt. lia.
Qed.

Lemma count_quotient (k n : nat) :
  (k <= n)%nat -> n <> 0%nat ->
  (0 <= Qc_of_nat k / Qc_of_nat n)%Qc /\ (Qc_of_nat k / Qc_of_nat n <= 1)%Qc.
Proof.
  intros Hk Hn. pose proof (Qc_of_nat_pos n Hn) as Hpos. to_Q.
  assert (Hkn : (inject_Z (Z.of_nat k) <= inject_Z (Z.of_nat n))%Q)
    by (rewrite <- Zle_Qle; lia).
  assert (Hk0 : (0 <= inject_Z (Z.of_nat k))%Q)
    by (change 0%Q with (inject_Z 0); rewrite <- Zle_Qle; lia).
  split.
  - apply Qle_shift_div_l; [done|]. lra.
  - apply Qle_shift_div_r; [done|]. lra.
Qed.

(** The quotient of two counts is a double: the division returns. *)
Lemma truediv_counts (k n : nat) :
  (k <= n)%nat -> n <> 0%nat ->
  truediv (Qc_of_nat k) (Qc_of_nat n)
  = Return (float.round (Qc_of_nat k / Qc_of_nat n)).
Proof.
  intros Hk Hn. destruct (count_quotient k n Hk Hn) as [H0 H1].
  apply truediv_run; [|by apply round_small].
  apply not_eq_sym, Qclt_not_eq. by apply Qc_of_nat_pos.
Qed.

(** Below [2 ^ 53] steps the quotient of two counts is rounded with a
    relative error of at most the unit roundoff. *)
Lemma count_quotient_error (k n : nat) :
  (k <= n)%nat -> n <> 0%nat -> (Z.of_nat n < 2 ^ 53)%Z ->
  ((1 - float.unit_roundoff) * (Qc_of_nat k / Qc_of_nat n)
   <= float.round (Qc_of_nat k / Qc_of_nat n))%Qc
  /\ (float.round (Qc_of_nat k / Qc_of_nat n)
      <= (1 + float.unit_roundoff) * (Qc_of_nat k / Qc_of_nat n))%Qc.
Proof.
  intros Hk Hn Hlt. destruct k as [|k].
  - assert (Hz : (Qc_of_nat 0 / Qc_of_nat n)%Qc = 0%Qc).
    { unfold Qcdiv. apply Qcmult_0_l. }
    rewrite Hz, round_0. split; to_Q; lra.
  - apply round_error. pose proof (Qc_of_nat_pos n Hn) as Hpos. to_Q.
    rewrite Zlt_Qlt in Hlt.
    change (inject_Z (2 ^ 53)) with (9007199254740992 # 1)%Q in Hlt.
    assert (Hk1 : (1 <= inject_Z (Z.of_nat (S k)))%Q)
      by (change 1%Q with (inject_Z 1); rewrite <- Zle_Qle; lia).
    apply Qle_trans with (2 ^ (-53))%Q.
    + by apply Qpower_le_compat_l.
    + change (2 ^ (-53))%Q with (1 / (9007199254740992 # 1))%Q.
      apply frac_le; [done|done|]. lra.
Qed.

(** ** Flushing the counters *)

Lemma flush_ratio_run p (m : gmap string Qc) t w (c st q : Qc) :
  m !! type_key p t = Some c ->
  m !! steps_key p = Some st ->
  truediv c st = Return q ->
  flush_ratio p m t w = (Return (<[ratio_key p t := q]> m), w).
Proof.
  intros Hc Hs Hdiv. unfold flush_ratio, getitem. run_method.
  rewrite Hc, Hs. by rewrite Hdiv.
Qed.

(** The inner loop over the members [ts], from a dictionary that holds
    their counts and a number of steps by which each of them can be
    divided. *)
Lemma ratio_loop_run p (ts : list EnumMember) (m : gmap string Qc) w (st : Qc) :
  p ∈ _log_prefixes ->
  m !! steps_key p = Some st ->
  (forall t, t ∈ ts ->
     exists c, m !! type_key p t = Some c
               /\ truediv c st = Return (float.round (c / st))) ->
  (forall t t', t ∈ ts -> t' ∈ ts -> name t' <> "ratio_" +:+ name t) ->
  exists m',
    for_fold ts (flush_ratio p) m w = (Return m', w)
    /\ (forall t, t ∈ ts ->
          m' !! ratio_key p t
          = (fun c => float.round (c / st)) <$> m !! type_key p t)
    /\ (forall k, (forall t, t ∈ ts -> k <> ratio_key p t) -> m' !! k = m !! k).
Proof.
  intros Hp. revert m. induction ts as [|t0 ts IH]; intros m Hs Hc Hnames.
  - exists m. split; [done|]. split; [by intros t ?%elem_of_nil|done].
  - destruct (Hc t0) as (c0 & Hc0 & Hdiv0); [apply list_elem_of_here|].
    cbn [for_fold]. unfold mbind, M_bind.
    rewrite (flush_ratio_run p m t0 w c0 st _ Hc0 Hs Hdiv0).
    set (q0 := float.round (c0 / st)).
    assert (Hkeep : forall t, t ∈ t0 :: ts ->
              <[ratio_key p t0 := q0]> m !! type_key p t
              = m !! type_key p t).
    { intros t Hin. apply lookup_insert_ne. intros Heq.
      apply ratio_key_type_key in Heq; [|done|done].
      eapply Hnames; [apply list_elem_of_here|exact Hin|exact Heq]. }
    destruct (IH (<[ratio_key p t0 := q0]> m)) as (m' & Hrun & Hr & Ho).
    { rewrite lookup_insert_ne; [done|]. by apply ratio_key_ne_steps_key. }
    { intros t Hin. rewrite Hkeep by by apply list_elem_of_further. apply Hc.
      by apply list_elem_of_further. }
    { intros t t' Hin Hin'. apply Hnames; by apply list_elem_of_further. }
    exists m'. split; [done|]. split.
    + intros t [->|Hin]%elem_of_cons.
      * destruct (decide (ratio_key p t0 ∈ ratio_key p <$> ts)) as [Hdup|Hnew].
        -- apply list_elem_of_fmap in Hdup as (t1 & Heq & Hin1).
           rewrite Heq, (Hr t1 Hin1), Hkeep by by apply list_elem_of_further.
           apply ratio_key_inj in Heq as [_ Hn]; [|done|done].
           by rewrite (type_key_name p t0 t1 Hn).
        -- rewrite Ho, lookup_insert_eq, Hc0; [done|].
           intros t1 Hin1 Heq. apply Hnew. apply list_elem_of_fmap. eauto.
      * rewrite (Hr t Hin). by rewrite Hkeep by by apply list_elem_of_further.
    + intros k Hk. rewrite Ho.
      * apply lookup_insert_ne. intros Heq. eapply Hk; [|done].
        apply list_elem_of_here.
      * intros t Hin. apply Hk. by apply list_elem_of_further.
Qed.

Lemma ratio_loop_no_zero_division p (ts : list EnumMember)
  (m : gmap string Qc) w (st : Qc) :
  p ∈ _log_prefixes ->
  m !! steps_key p = Some st ->
  st <> 0%Qc ->
  (for_fold ts (flush_ratio p) m w).1 <> Raise ZeroDivisionError.
Proof.
  intros Hp. revert m. induction ts as [|t0 ts IH]; intros m Hs Hne; [done|].
  cbn [for_fold]. unfold mbind, M_bind.
  destruct (m !! type_key p t0) as [c0|] eqn:Hc0.
  - destruct (truediv c0 st) as [q|e] eqn:Hdiv.
    + rewrite (flush_ratio_run p m t0 w c0 st q Hc0 Hs Hdiv). apply IH; [|done].
      rewrite lookup_insert_ne; [done|]. by apply ratio_key_ne_steps_key.
    + unfold flush_ratio, getitem. run_method. rewrite Hc0, Hs, Hdiv.
      cbn [fst]. intros [= ->]. by apply (truediv_no_zero_division c0 st).
  - unfold flush_ratio, getitem. run_method. by rewrite Hc0.
Qed.

Lemma flush_loop_no_zero_division (ps : list string) (m : gmap string Qc) w :
  (forall p, p ∈ ps -> p ∈ _log_prefixes) ->
  (for_fold ps flush_prefix m w).1 <> Raise ZeroDivisionError.
Proof.
  revert m w. induction ps as [|p ps IH]; intros m w Hps; [done|].
  assert (Hp : p ∈ _log_prefixes) by apply Hps, list_elem_of_here.
  assert (Hrest : forall p', p' ∈ ps -> p' ∈ _log_prefixes)
    by (intros p' ?; by apply Hps, list_elem_of_further).
  cbn [for_fold]. unfold mbind at 1, M_bind at 1.
  unfold flush_prefix, getitem. run_method.
  destruct (m !! steps_key p) as [st|] eqn:Hs; [|done].
  destruct (bool_decide (st = 0%Qc)) eqn:Hz.
  - by apply IH.
  - apply bool_decide_eq_false in Hz.
    pose proof (ratio_loop_no_zero_division p ActionType m w st Hp Hs Hz) as Hin.
    destruct (for_fold ActionType (flush_ratio p) m w) as [[m'|e] w'].
    + by apply IH.
    + exact Hin.
Qed.

Lemma flush_prefix_run p (m : gmap string Qc) w (st : Qc) :
  p ∈ _log_prefixes ->
  no_ratio_names ->
  m !! steps_key p = Some st ->
  (forall t, t ∈ ActionType ->
     exists c, m !! type_key p t = Some c
               /\ (st <> 0%Qc ->
                   truediv c st = Return (float.round (c / st)))) ->
  exists m' w',
    flush_prefix m p w = (Return m', w')
    /\ self w' = self w
    /\ (forall k, (forall t, t ∈ ActionType -> k <> ratio_key p t) ->
          m' !! k = m !! k)
    /\ (st <> 0%Qc ->
        calls w' = calls w
        /\ forall t, t ∈ ActionType ->
             m' !! ratio_key p t
             = (fun c => float.round (c / st)) <$> m !! type_key p t)
    /\ (st = 0%Qc ->
        m' = m
        /\ calls w'
           = calls w ++ [logging_warning "%s_steps is 0. Skipping ratio logs." p]).
Proof.
  intros Hp Hnames Hs Hc. unfold flush_prefix, getitem. run_method. rewrite Hs.
  destruct (decide (st = 0%Qc)) as [->|Hne].
  - rewrite bool_decide_true by done. eexists _, _. split; [reflexivity|].
    env_simpl. repeat split; try done.
  - rewrite bool_decide_false by done.
    destruct (ratio_loop_run p ActionType m w st Hp Hs) as (m' & -> & Hr & Ho).
    { intros t Hin. destruct (Hc t Hin) as (c & Hc1 & Hdiv). exists c. auto. }
    { exact Hnames. }
    exists m', w. repeat split; try done.
Qed.

(** ** Ratios add up *)

Lemma sum_indicator (l : list EnumMember) t0 :
  NoDup l -> t0 ∈ l ->
  sum_list_with (fun t => if decide (t0 = t) then 1%nat else 0%nat) l = 1%nat.
Proof.
  induction 1 as [|x l Hx Hl IH]; [by intros ?%elem_of_nil|].
  cbn [sum_list_with]. intros [->|Hin]%elem_of_cons.
  - rewrite decide_True by done.
    assert (sum_list_with
              (fun t => if decide (x = t) then 1%nat else 0%nat) l = 0%nat)
      as ->; [|done].
    clear IH Hl. induction l as [|y l IHl]; [done|]. cbn [sum_list_with].
    rewrite decide_False.
    + apply IHl. intros ?. apply Hx. by apply list_elem_of_further.
    + intros <-. apply Hx. apply list_elem_of_here.
  - rewrite decide_False by (intros <-; done). by rewrite IH.
Qed.

Lemma sum_occurrences (l ts : list EnumMember) :
  NoDup l -> Forall (fun t => t ∈ l) ts ->
  sum_list_with (fun t => occurrences t ts) l = length ts.
Proof.
  intros Hl. induction 1 as [|t0 ts Hin _ IH].
  - unfold occurrences. clear Hl. induction l as [|x l IHl]; [done|].
    cbn [sum_list_with]. by rewrite filter_nil, IHl.
  - transitivity
      (sum_list_with (fun t => if decide (t0 = t) then 1%nat else 0%nat) l
       + sum_list_with (fun t => occurrences t ts) l)%nat.
    + clear. induction l as [|x l IHl]; [done|]. cbn [sum_list_with].
      rewrite IHl. unfold occurrences at 1. rewrite filter_cons.
      destruct (decide (t0 = x)); cbn [length]; unfold occurrences; lia.
    + by rewrite sum_indicator, IH.
Qed.

Lemma Qc_of_nat_add (a b : nat) :
  Qc_of_nat (a + b) = (Qc_of_nat a + Qc_of_nat b)%Qc.
Proof. unfold Qc_of_nat. by rewrite Nat2Z.inj_add, Z2Qc_inj_add. Qed.

Lemma Qc_of_nat_ne_0 (n : nat) : n <> 0%nat -> Qc_of_nat n <> 0%Qc.
Proof.
  intros Hn Heq. rewrite <- Qc_of_nat_0 in Heq. unfold Qc_of_nat in Heq.
  apply Z2Qc_inj in Heq. lia.
Qed.

Lemma sum_ratios (l : list EnumMember) (f : EnumMember -> nat) (q : Qc) :
  sum_Qc ((fun t => (Qc_of_nat (f t) / q)%Qc) <$> l)
  = (Qc_of_nat (sum_list_with f l) / q)%Qc.
Proof.
  induction l as [|x l IH]; cbn [fmap list_fmap sum_Qc foldr sum_list_with].
  - rewrite Qc_of_nat_0. unfold Qcdiv. ring.
  - fold (sum_Qc ((fun t => (Qc_of_nat (f t) / q)%Qc) <$> l)).
    rewrite IH, Qc_of_nat_add. unfold Qcdiv. ring.
Qed.

(** ** The claim about flush *)

Lemma recorded_dom d0 (ts : list EnumMember) :
  dom (foldl (fun d t => record_step t d) (episode_zeroed d0) ts) = dom d0.
Proof.
  induction ts as [|t0 ts IH] using rev_ind; cbn [foldl].
  - apply episode_zeroed_dom.
  - rewrite foldl_app. cbn [foldl]. by rewrite record_step_dom.
Qed.

Lemma merged_lookup (update d : gmap string Qc) key :
  dom update ## dom d -> is_Some (d !! key) -> (update ∪ d) !! key = d !! key.
Proof.
  intros Hdisj Hk. apply lookup_union_r. apply not_elem_of_dom.
  intros Hin. apply (elem_of_disjoint (dom update) (dom d)) in Hdisj.
  apply (Hdisj key Hin). by apply elem_of_dom.
Qed.

Lemma _flush_log_dict_run r w :
  _flush_log_dict r w
  = for_fold _log_prefixes flush_prefix (log_dict r ∪ _log_dict (self w))
             (mkWorld (self w) (calls w ++ [coordinator_log_dict])).
Proof. unfold _flush_log_dict. by run_method. Qed.

Lemma _flush_log_dict_no_zero_division r w :
  (_flush_log_dict r w).1 <> Raise ZeroDivisionError.
Proof. rewrite _flush_log_dict_run. by apply flush_loop_no_zero_division. Qed.

(** The constructor creates every counter that is read later. *)
Lemma init_present : present init_log_dict.
Proof.
  intros p Hp. split; [by apply init_log_dict_steps|].
  intros t Ht. by apply init_log_dict_types.
Qed.

Lemma run_app (cs cs' : list Call) w :
  (run (cs ++ cs') w).2 = (run cs' (run cs w).2).2.
Proof.
  revert w. induction cs as [|c cs IH]; intros w; [done|].
  cbn [app]. rewrite !run_cons. cbn [snd]. apply IH.
Qed.

Lemma reset_returns r w (e : gmap string np.ndarray) :
  get_current_extras r = Some e ->
  _log_dict (self (reset r w).2) = episode_zeroed (_log_dict (self w))
  /\ _reset_next_step (self (reset r w).2) = false.
Proof.
  intros He. rewrite reset_run. cbv zeta. rewrite He.
  by destruct (execute_action r).
Qed.

Lemma step_records_run (a : gmap string np.ndarray) r t w :
  records a r t ->
  _reset_next_step (self w) = false ->
  present (_log_dict (self w)) ->
  _log_dict (self (step a r w).2) = record_step t (_log_dict (self w))
  /\ _reset_next_step (self (step a r w).2) = check_if_episode_ended r.
Proof.
  intros (Hr & Ht & [e He] & x & v & Hx & Hv & Hcall) Hp Hd.
  rewrite step_normal_run by done. cbv zeta. unfold getitem.
  rewrite Hx, Hv, (_update_log_dict_run v t _ Hcall) by done.
  rewrite He. by destruct (execute_action r).
Qed.

Lemma run_recorded (steps : list (gmap string np.ndarray * Responses))
  (ts : list EnumMember) w :
  recorded_steps steps ts ->
  _reset_next_step (self w) = false ->
  present (_log_dict (self w)) ->
  _log_dict (self (run (step_calls steps) w).2)
  = foldl (fun d t => record_step t d) (_log_dict (self w)) ts.
Proof.
  intros [Hrec Hend]. revert w Hend.
  induction Hrec as [|s t steps ts Hs Hrest IH]; intros w Hend Hp Hd; [done|].
  unfold step_calls. cbn [fmap list_fmap]. rewrite run_cons.
  cbn [snd perform foldl]. fold (step_calls steps).
  destruct (step_records_run s.1 s.2 t w Hs Hp Hd) as [Hlog Hpend].
  destruct steps as [|s' steps].
  - apply Forall2_nil_inv_l in Hrest as ->. done.
  - rewrite IH, Hlog; [done| | |].
    + intros i s0 Hi Hlt. apply (Hend (S i) s0 Hi). cbn [length] in *. lia.
    + rewrite Hpend. apply (Hend 0%nat s eq_refl). cbn [length]. lia.
    + rewrite Hlog. eapply present_dom; [apply record_step_dom|done].
Qed.

(** Members that steps record are members of the enumeration. *)
Lemma recorded_members (steps : list (gmap string np.ndarray * Responses))
  (ts : list EnumMember) :
  recorded_steps steps ts -> Forall (fun t => t ∈ ActionType) ts.
Proof.
  intros [Hrec _]. induction Hrec as [|s t steps ts Hs _ IH]; [done|].
  constructor; [|done].
  destruct Hs as (_ & _ & _ & x & v & _ & _ & Hcall).
  by eapply ActionType_call_member.
Qed.

(** * Further properties of the class *)

(** ** The timeout branch and the carried-out step *)

(** X1. At a step at which no restart is due and [check_timeout()] reports
    true, on an object reached from construction by any reset/step calls:
    the call returns (LAST, reward 0, discount 0) with the observation
    cached before the call, sets the reset-pending flag, asks the
    coordinator only for the two checks, and of the counters only
    ["reset_count_step_timeout"] changes, by one. *)
Theorem X1_timeout_returns_cached_observation
  (task : Task) (cs : list Call) (a : gmap string np.ndarray) r :
  should_restart r = false ->
  check_timeout r = true ->
  let w := (run cs (__init__ task)).2 in
  exists v,
    _log_dict (self w) !! "reset_count_step_timeout" = Some v
    /\ step a r w
       = (Return (mkTimeStep LAST 0%Qc 0%Qc (_latest_observation (self w))),
          mkWorld
            (set_latest_step_type LAST
               (set_reset_next_step true
                  (set_log_dict
                     (<["reset_count_step_timeout" := (v + 1)%Qc]>
                        (_log_dict (self w)))
                     (set_latest_action a (self w)))))
            (calls w ++ [coordinator_should_restart;
                         coordinator_check_timeout;
                         logging_info "Step has timed out. Ending episode."]))
    /\ _reset_next_step (self (step a r w).2) = true
    /\ (forall key, key <> "reset_count_step_timeout" ->
          _log_dict (self (step a r w).2) !! key = _log_dict (self w) !! key).
Proof.
  intros Hr Ht w.
  destruct (reachable_key task cs "reset_count_step_timeout"
              init_log_dict_timeout_count) as [v Hv].
  fold w in Hv. exists v. split; [done|].
  rewrite (step_timeout_run a r w Hr Ht), Hv. split; [done|].
  split; [done|]. intros key Hne. env_simpl. by rewrite lookup_insert_ne.
Qed.

(** X2. A step that is carried out, on an object reached from
    construction whose reset-pending flag is clear: with no restart, no
    timeout, an action whose type is the member [t] and extras that are
    not null, the call returns the provider's reward, the executor's
    observation (the cached one when the executor returns none), step
    type and discount MID and 1, or LAST and 0 when the episode has
    ended; it caches observation and extras, sets the reset-pending flag
    to the answer of the episode-end check, records the step for [t] and
    calls the collaborators in the order of the source. *)
Theorem X2_carried_out_step
  (task : Task) (cs : list Call) (a : gmap string np.ndarray) r t :
  records a r t ->
  _reset_next_step (self (run cs (__init__ task)).2) = false ->
  let w := (run cs (__init__ task)).2 in
  let obs := match execute_action r with
             | Some o => o
             | None => _latest_observation (self w)
             end in
  exists e,
    get_current_extras r = Some e
    /\ (step a r w).1
       = Return (mkTimeStep (mid_or_last r) (get_current_reward r)
                            (if check_if_episode_ended r then 0%Qc else 1%Qc)
                            obs)
    /\ _latest_observation (self (step a r w).2) = obs
    /\ _latest_extras (self (step a r w).2) = e
    /\ _latest_action (self (step a r w).2) = a
    /\ _latest_step_type (self (step a r w).2) = mid_or_last r
    /\ _reset_next_step (self (step a r w).2) = check_if_episode_ended r
    /\ _log_dict (self (step a r w).2) = record_step t (_log_dict (self w))
    /\ calls (step a r w).2
       = calls w ++ [coordinator_should_restart; coordinator_check_timeout;
                     task_manager_increment_steps;
                     coordinator_execute_action (Some a);
                     task_manager_get_current_reward;
                     task_manager_get_current_extras;
                     task_manager_check_if_episode_ended].
Proof.
  intros (Hr & Ht & [e He] & x & v & Hx & Hv & Hcall) Hp w obs.
  assert (Hd : present (_log_dict (self w))).
  { eapply present_dom; [apply run_dom|apply init_present]. }
  exists e. split; [done|]. fold w in Hp.
  rewrite step_normal_run by done. cbv zeta. unfold getitem.
  rewrite Hx, Hv, (_update_log_dict_run v t _ Hcall) by done.
  rewrite He. subst obs. unfold mid_or_last.
  destruct (execute_action r); env_simpl; rewrite <- ?app_assoc;
    repeat split; reflexivity.
Qed.

(** ** Laws of the returned time steps and of the flags *)

(** X3. Every time step that reset or step returns, from any state: the
    discount is 1 exactly on MID and 0 on FIRST and LAST; a FIRST carries
    reward 0 and comes from no forced step; a step ended by a restart or
    a timeout returns LAST with reward 0. *)
Theorem X3_discount_and_reward_of_returned_steps (c : Call) w :
  match (perform c w).1 with
  | Return ts =>
      discount ts = (if decide (step_type ts = MID) then 1%Qc else 0%Qc)
      /\ (step_type ts = FIRST -> reward ts = 0%Qc /\ forced c = false)
      /\ (forced c = true -> step_type ts = LAST /\ reward ts = 0%Qc)
  | Raise _ => True
  end.
Proof.
  destruct c as [r|a r]; cbn [perform forced].
  { rewrite reset_run. cbv zeta.
    by destruct (execute_action r), (get_current_extras r). }
  destruct (should_restart r) eqn:Hr.
  { rewrite step_restart_run by done.
    by destruct (_ !! "restart_count"). }
  destruct (check_timeout r) eqn:Ht.
  { rewrite step_timeout_run by done.
    by destruct (_ !! "reset_count_step_timeout"). }
  destruct (_reset_next_step (self w)) eqn:Hp.
  { rewrite step_pending_run, reset_run by done. cbv zeta.
    by destruct (execute_action r), (get_current_extras r). }
  rewrite step_normal_run by done. cbv zeta.
  destruct (getitem a "action_type") as [x|]; [|done].
  destruct (np.item x) as [v|]; [|done].
  destruct (_update_log_dict v _) as [[[]|] w1]; [|done].
  by destruct (execute_action r), (get_current_extras r),
       (check_if_episode_ended r).
Qed.

Lemma perform_flag_invariant (c : Call) w :
  _reset_next_step (self w) = bool_decide (_latest_step_type (self w) = LAST) ->
  _reset_next_step (self (perform c w).2)
  = bool_decide (_latest_step_type (self (perform c w).2) = LAST).
Proof.
  intros Hinv. destruct c as [r|a r]; cbn [perform].
  { rewrite reset_run. cbv zeta.
    by destruct (execute_action r), (get_current_extras r). }
  destruct (should_restart r) eqn:Hr.
  { rewrite step_restart_run by done.
    by destruct (_ !! "restart_count"). }
  destruct (check_timeout r) eqn:Ht.
  { rewrite step_timeout_run by done.
    by destruct (_ !! "reset_count_step_timeout"). }
  destruct (_reset_next_step (self w)) eqn:Hp.
  { rewrite step_pending_run, reset_run by done. cbv zeta.
    destruct (execute_action r), (get_current_extras r); env_simpl;
      try done; by rewrite <- Hinv. }
  rewrite step_normal_run by done. cbv zeta.
  destruct (getitem a "action_type") as [x|]; [|env_simpl; congruence].
  destruct (np.item x) as [v|]; [|env_simpl; congruence].
  destruct (counters_only_update v
              (mkWorld (set_latest_action a (self w))
                       (calls w ++ [coordinator_should_restart;
                                    coordinator_check_timeout])))
    as (res & d & -> & _).
  destruct res as [[]|]; [|env_simpl; congruence].
  destruct (execute_action r), (get_current_extras r),
    (check_if_episode_ended r); env_simpl; try done; congruence.
Qed.

(** X4. On every object reached from construction by reset/step calls,
    whatever the collaborators answered and also after calls that raised:
    the reset-pending flag is set exactly when the cached step type is
    LAST. *)
Theorem X4_reset_pending_iff_last (task : Task) (cs : list Call) :
  _reset_next_step (self (run cs (__init__ task)).2)
  = bool_decide (_latest_step_type (self (run cs (__init__ task)).2) = LAST).
Proof.
  assert (Hrun : forall cs w,
    _reset_next_step (self w)
    = bool_decide (_latest_step_type (self w) = LAST) ->
    _reset_next_step (self (run cs w).2)
    = bool_decide (_latest_step_type (self (run cs w).2) = LAST)).
  { clear cs. intros cs. induction cs as [|c cs IH]; intros w Hw; [done|].
    rewrite run_cons. cbn [snd]. by apply IH, perform_flag_invariant. }
  by apply Hrun.
Qed.

(** ** The counters: keys, atomic recording, lifetime counts *)

Lemma foldl_insert_lookup {A} (f : A -> string) (v : Qc) (xs : list A) d key :
  foldl (fun d x => <[f x := v]> d) d xs !! key
  = if decide (key ∈ f <$> xs) then Some v else d !! key.
Proof.
  revert d. induction xs as [|x xs IH]; intros d; cbn [foldl fmap list_fmap].
  - rewrite decide_False; [done|apply not_elem_of_nil].
  - rewrite IH. destruct (decide (key ∈ f <$> xs)) as [Hin|Hin].
    + rewrite decide_True; [done|by apply list_elem_of_further].
    + destruct (decide (key = f x)) as [->|Hne].
      * rewrite lookup_insert_eq, decide_True; [done|apply list_elem_of_here].
      * rewrite lookup_insert_ne by done. rewrite decide_False; [done|].
        by intros [?|?]%elem_of_cons.
Qed.

Lemma elem_of_counter_keys key :
  key ∈ counter_keys
  <-> key = "restart_count" \/ key = "reset_count_step_timeout"
      \/ key = steps_key "androidenv_total"
      \/ key ∈ type_key "androidenv_total" <$> ActionType
      \/ key = steps_key "androidenv_episode"
      \/ key ∈ type_key "androidenv_episode" <$> ActionType.
Proof.
  unfold counter_keys, scope_keys.
  cbn [_log_prefixes fmap list_fmap concat]. rewrite app_nil_r.
  change (?a :: ?l ++ ?b :: ?l') with ((a :: l) ++ b :: l').
  rewrite elem_of_app, !elem_of_cons, elem_of_app, !elem_of_cons, elem_of_nil.
  tauto.
Qed.

Lemma init_log_dict_lookup key :
  init_log_dict !! key = if decide (key ∈ counter_keys) then Some 0%Qc else None.
Proof.
  unfold init_log_dict. cbn [foldl _log_prefixes].
  rewrite !foldl_insert_lookup.
  destruct (decide (key ∈ type_key "androidenv_episode" <$> ActionType)).
  { rewrite decide_True; [done|]. apply elem_of_counter_keys. tauto. }
  destruct (decide (key = steps_key "androidenv_episode")) as [->|H1].
  { rewrite lookup_insert_eq, decide_True; [done|].
    apply elem_of_counter_keys. tauto. }
  rewrite lookup_insert_ne by done. rewrite foldl_insert_lookup.
  destruct (decide (key ∈ type_key "androidenv_total" <$> ActionType)).
  { rewrite decide_True; [done|]. apply elem_of_counter_keys. tauto. }
  destruct (decide (key = steps_key "androidenv_total")) as [->|H2].
  { rewrite lookup_insert_eq, decide_True; [done|].
    apply elem_of_counter_keys. tauto. }
  rewrite lookup_insert_ne by done.
  destruct (decide (key = "reset_count_step_timeout")) as [->|H3].
  { rewrite lookup_insert_eq, decide_True; [done|].
    apply elem_of_counter_keys. tauto. }
  rewrite lookup_insert_ne by done.
  destruct (decide (key = "restart_count")) as [->|H4].
  { rewrite lookup_insert_eq, decide_True; [done|].
    apply elem_of_counter_keys. tauto. }
  rewrite lookup_insert_ne, lookup_empty by done.
  rewrite decide_False; [done|]. rewrite elem_of_counter_keys. tauto.
Qed.

(** X5. The constructor creates the restart and the timeout counter and,
    for each of the two prefixes, a step counter and one counter per
    action type, all at 0; and after any sequence of reset/step calls,
    whatever they returned or raised, the object has exactly these
    counters: none is added, none is lost. *)
Theorem X5_counter_keys_are_fixed (task : Task) (cs : list Call) key :
  (init_log_dict !! key
   = if decide (key ∈ counter_keys) then Some 0%Qc else None)
  /\ (is_Some (_log_dict (self (run cs (__init__ task)).2) !! key)
      <-> key ∈ counter_keys).
Proof.
  split; [apply init_log_dict_lookup|].
  rewrite <- elem_of_dom, run_dom, elem_of_dom. cbn [__init__ self _log_dict].
  rewrite init_log_dict_lookup. destruct (decide (key ∈ counter_keys)).
  - split; [done|]. by eexists.
  - split; [by intros [? ?]|done].
Qed.

Lemma record_step_lookup t d key :
  record_step t d !! key
  = if decide (key ∈ [steps_key "androidenv_total";
                      type_key "androidenv_total" t;
                      steps_key "androidenv_episode";
                      type_key "androidenv_episode" t])
    then (fun v => (v + 1)%Qc) <$> d !! key else d !! key.
Proof.
  unfold record_step. cbn [foldl _log_prefixes]. rewrite !incr_lookup.
  destruct (decide (key ∈ [steps_key "androidenv_total";
                           type_key "androidenv_total" t;
                           steps_key "androidenv_episode";
                           type_key "androidenv_episode" t])) as [Hin|Hin].
  - rewrite !elem_of_cons, elem_of_nil in Hin.
    destruct Hin as [->|[->|[->|[->|[]]]]];
      repeat match goal with
             | |- context [decide (?a = ?b)] =>
                 first [ rewrite (decide_False (P := a = b)) by key_ne
                       | rewrite (decide_True (P := a = b)) by done ]
             end; done.
  - rewrite !elem_of_cons, elem_of_nil in Hin.
    repeat match goal with
           | |- context [decide (?a = ?b)] =>
               rewrite (decide_False (P := a = b)) by tauto
           end; done.
Qed.

(** On an object that has all its counters, [_update_log_dict] records a
    step for the member of its argument or, when there is none, raises
    and changes nothing. *)
Lemma update_atomic (v : scalar) w :
  present (_log_dict (self w)) ->
  _update_log_dict v w
  = match ActionType_call v with
    | Return t =>
        (Return tt,
         mkWorld (set_log_dict (record_step t (_log_dict (self w))) (self w))
                 (calls w))
    | Raise e => (Raise e, w)
    end.
Proof.
  intros Hd. destruct (ActionType_call v) as [t|e] eqn:Hcall.
  - by apply _update_log_dict_run.
  - unfold _update_log_dict. unfold mbind at 1, M_bind at 1, lift at 1.
    by rewrite Hcall.
Qed.

Lemma reachable_present (task : Task) (cs : list Call) :
  present (_log_dict (self (run cs (__init__ task)).2)).
Proof. eapply present_dom; [apply run_dom|apply init_present]. Qed.

(** X7. Recording a step is all or nothing. On an object reached from
    construction by reset/step calls, [_update_log_dict(v)] either raises
    [ValueError], when no member of the enumeration has the value [v],
    and leaves the object untouched, or adds exactly 1 to four counters,
    the step counter and the counter of the member for the lifetime and
    for the episode prefix, and leaves every other counter and the rest
    of the object as they were. *)
Theorem X7_recording_is_all_or_nothing (task : Task) (cs : list Call)
  (v : scalar) :
  let w := (run cs (__init__ task)).2 in
  match ActionType_call v with
  | Raise e => e = ValueError /\ _update_log_dict v w = (Raise ValueError, w)
  | Return t =>
      exists d',
        _update_log_dict v w
        = (Return tt, mkWorld (set_log_dict d' (self w)) (calls w))
        /\ (forall key,
              key ∈ [steps_key "androidenv_total";
                     type_key "androidenv_total" t;
                     steps_key "androidenv_episode";
                     type_key "androidenv_episode" t] ->
              exists x, _log_dict (self w) !! key = Some x
                        /\ d' !! key = Some (x + 1)%Qc)
        /\ (forall key,
              key ∉ [steps_key "androidenv_total";
                     type_key "androidenv_total" t;
                     steps_key "androidenv_episode";
                     type_key "androidenv_episode" t] ->
              d' !! key = _log_dict (self w) !! key)
  end.
Proof.
  intros w. pose proof (reachable_present task cs) as Hd. fold w in Hd.
  rewrite (update_atomic v w Hd).
  destruct (ActionType_call v) as [t|e] eqn:Hcall.
  - exists (record_step t (_log_dict (self w))). split; [done|].
    pose proof (ActionType_call_member v t Hcall) as Hin.
    destruct (Hd _ total_in_prefixes) as [Hs1 Ht1].
    destruct (Hd _ episode_in_prefixes) as [Hs2 Ht2].
    split.
    + intros key Hkey. rewrite record_step_lookup, decide_True by done.
      assert (is_Some (_log_dict (self w) !! key)) as [x Hx].
      { rewrite !elem_of_cons, elem_of_nil in Hkey.
        destruct Hkey as [->|[->|[->|[->|[]]]]]; auto. }
      exists x. by rewrite Hx.
    + intros key Hkey. by rewrite record_step_lookup, decide_False.
  - unfold ActionType_call in Hcall.
    destruct (find _ ActionType); [done|]. by injection Hcall as <-.
Qed.

(** ** What one call does to the counters *)

Lemma reset_counters r w :
  _log_dict (self (reset r w).2) = episode_zeroed (_log_dict (self w)).
Proof.
  rewrite reset_run. cbv zeta.
  by destruct (execute_action r), (get_current_extras r).
Qed.

Lemma perform_counters (c : Call) w :
  present (_log_dict (self w)) ->
  _log_dict (self (perform c w).2)
  = counters_after c (_reset_next_step (self w)) (_log_dict (self w)).
Proof.
  intros Hd. destruct c as [r|a r]; cbn [perform counters_after];
    [apply reset_counters|].
  destruct (should_restart r) eqn:Hr.
  { rewrite step_restart_run by done. unfold incr.
    by destruct (_ !! "restart_count"). }
  destruct (check_timeout r) eqn:Ht.
  { rewrite step_timeout_run by done. unfold incr.
    by destruct (_ !! "reset_count_step_timeout"). }
  destruct (_reset_next_step (self w)) eqn:Hp.
  { rewrite step_pending_run by done. by rewrite reset_counters. }
  rewrite step_normal_run by done. cbv zeta. unfold action_type_of.
  destruct (getitem a "action_type") as [x|]; [|done].
  destruct (np.item x) as [v|]; [|done].
  rewrite update_atomic by done.
  destruct (ActionType_call v) as [t|]; [|done].
  by destruct (execute_action r), (get_current_extras r).
Qed.

Lemma counters_after_lifetime (c : Call) (pending : bool) d :
  counters_after c pending d !! "restart_count"
  = (if is_restart_step c
     then (fun v => (v + 1)%Qc) <$> d !! "restart_count"
     else d !! "restart_count")
  /\ counters_after c pending d !! "reset_count_step_timeout"
     = (if is_timeout_step c
        then (fun v => (v + 1)%Qc) <$> d !! "reset_count_step_timeout"
        else d !! "reset_count_step_timeout").
Proof.
  assert (Hz : forall key, String.prefix "androidenv_episode" key = false ->
            episode_zeroed d !! key = d !! key).
  { intros key Hk. by rewrite episode_zeroed_lookup, Hk. }
  assert (Hrec : forall t key,
            key = "restart_count" \/ key = "reset_count_step_timeout" ->
            record_step t d !! key = d !! key).
  { intros t key Hk. rewrite record_step_lookup, decide_False; [done|].
    rewrite !elem_of_cons, elem_of_nil. intros Hin.
    destruct Hk as [-> | ->]; destruct Hin as [Heq|[Heq|[Heq|[Heq|[]]]]];
      by key_eq Heq. }
  destruct c as [r|a r]; cbn [counters_after is_restart_step is_timeout_step].
  { by rewrite !Hz. }
  destruct (should_restart r); cbn [negb andb].
  { rewrite !incr_lookup. rewrite decide_True by done. by rewrite decide_False. }
  destruct (check_timeout r).
  { rewrite !incr_lookup. rewrite decide_False by done.
    by rewrite decide_True. }
  destruct pending; [by rewrite !Hz|].
  destruct (action_type_of a); [|done]. rewrite !Hrec; auto.
Qed.

(** X6. The two lifetime counters count what their names say. On an
    object reached from construction by the calls [cs], whatever they
    returned or raised, ["restart_count"] is the number of steps of [cs]
    at which the coordinator asked for a restart, and
    ["reset_count_step_timeout"] the number of steps at which it asked
    for none and reported a timeout; no reset and no other step changes
    them. *)
Theorem X6_lifetime_counters (task : Task) (cs : list Call) :
  let d := _log_dict (self (run cs (__init__ task)).2) in
  d !! "restart_count" = Some (Qc_of_nat (count_calls is_restart_step cs))
  /\ d !! "reset_count_step_timeout"
     = Some (Qc_of_nat (count_calls is_timeout_step cs)).
Proof.
  induction cs as [|c cs IH] using rev_ind; intros d; subst d.
  - cbn [run snd __init__ self _log_dict]. rewrite !init_log_dict_lookup.
    rewrite !decide_True by (apply elem_of_counter_keys; tauto).
    unfold count_calls. cbn [List.filter length]. by rewrite Qc_of_nat_0.
  - cbv zeta in IH. destruct IH as [IH1 IH2].
    rewrite run_app, run_cons. cbn [run snd].
    rewrite perform_counters by apply reachable_present.
    destruct (counters_after_lifetime c
                (_reset_next_step (self (run cs (__init__ task)).2))
                (_log_dict (self (run cs (__init__ task)).2))) as [-> ->].
    rewrite IH1, IH2. unfold count_calls.
    rewrite !List.filter_app, !length_app. cbn [List.filter].
    destruct (is_restart_step c), (is_timeout_step c); cbn [length];
      rewrite ?Nat.add_1_r, ?Nat.add_0_r, ?Qc_of_nat_S; done.
Qed.

(** ** Steps and action types add up *)

Lemma sum_Qc_same (l : list EnumMember) (f g : EnumMember -> Qc) :
  (forall t, t ∈ l -> g t = f t) -> sum_Qc (g <$> l) = sum_Qc (f <$> l).
Proof.
  intros Hfg. f_equal. apply list_fmap_ext. intros i t Hit. apply Hfg.
  by eapply list_elem_of_lookup_2.
Qed.

Lemma sum_Qc_zero (l : list EnumMember) :
  sum_Qc ((fun _ => 0%Qc) <$> l) = 0%Qc.
Proof.
  induction l as [|x l IH]; [done|]. cbn [fmap list_fmap sum_Qc foldr].
  fold (sum_Qc ((fun _ => 0%Qc) <$> l)). rewrite IH. ring.
Qed.

Lemma sum_Qc_bump (l : list EnumMember) (f g : EnumMember -> Qc) t :
  NoDup l -> t ∈ l ->
  (forall t', t' ∈ l -> g t' = if decide (t' = t) then (f t' + 1)%Qc else f t') ->
  sum_Qc (g <$> l) = (sum_Qc (f <$> l) + 1)%Qc.
Proof.
  induction 1 as [|x l Hx Hl IH]; [by intros ?%elem_of_nil|].
  intros Hin Hg. cbn [fmap list_fmap sum_Qc foldr].
  fold (sum_Qc (g <$> l)). fold (sum_Qc (f <$> l)).
  rewrite (Hg x) by apply list_elem_of_here.
  destruct (decide (x = t)) as [->|Hne].
  - rewrite (sum_Qc_same l f g); [ring|]. intros t' Hin'.
    rewrite Hg by by apply list_elem_of_further.
    rewrite decide_False; [done|]. by intros ->.
  - apply elem_of_cons in Hin as [->|Hin]; [done|].
    rewrite IH; [ring|done|]. intros t' Hin'. apply Hg.
    by apply list_elem_of_further.
Qed.

Lemma init_balanced : steps_balanced init_log_dict.
Proof.
  intros p Hp. rewrite init_log_dict_lookup, decide_True.
  2: { apply elem_of_counter_keys. prefix_cases Hp; tauto. }
  f_equal. unfold type_counts.
  rewrite (sum_Qc_same ActionType (fun _ => 0%Qc)); [by rewrite sum_Qc_zero|].
  intros t Hin. rewrite init_log_dict_lookup.
  by destruct (decide (type_key p t ∈ counter_keys)).
Qed.

Lemma zeroed_balanced d :
  present d -> steps_balanced d -> steps_balanced (episode_zeroed d).
Proof.
  intros Hd Hb p Hp. destruct (Hd p Hp) as [[st Hst] Hty].
  rewrite episode_zeroed_lookup. prefix_cases Hp.
  - rewrite total_prefix_steps, (Hb _ total_in_prefixes). f_equal.
    symmetry. apply sum_Qc_same. intros t Hin.
    by rewrite episode_zeroed_lookup, total_prefix_type.
  - rewrite episode_prefix_steps, Hst. cbn [fmap option_fmap option_map].
    f_equal. unfold type_counts.
    rewrite (sum_Qc_same ActionType (fun _ => 0%Qc));
      [by rewrite sum_Qc_zero|].
    intros t Hin. rewrite episode_zeroed_lookup, episode_prefix_type.
    by destruct (Hty t Hin) as [? ->].
Qed.

Lemma incr_other_balanced d key :
  key = "restart_count" \/ key = "reset_count_step_timeout" ->
  steps_balanced d -> steps_balanced (incr key d).
Proof.
  intros Hk Hb p Hp. rewrite incr_lookup, decide_False.
  2: { intros Heq. prefix_cases Hp; destruct Hk as [-> | ->]; by key_eq Heq. }
  rewrite (Hb p Hp). f_equal. symmetry. apply sum_Qc_same. intros t Hin.
  rewrite incr_lookup, decide_False; [done|]. intros Heq.
  prefix_cases Hp; destruct Hk as [-> | ->]; by key_eq Heq.
Qed.

Lemma record_balanced t d :
  NoDup (name <$> ActionType) -> t ∈ ActionType -> present d ->
  steps_balanced d -> steps_balanced (record_step t d).
Proof.
  intros Hnd Hin Hd Hb p Hp. destruct (Hd p Hp) as [_ Hty].
  rewrite record_step_lookup, decide_True.
  2: { rewrite !elem_of_cons. prefix_cases Hp; tauto. }
  rewrite (Hb p Hp). cbn [fmap option_fmap option_map]. f_equal. symmetry.
  unfold type_counts.
  apply (sum_Qc_bump ActionType
           (fun t0 => default 0%Qc (d !! type_key p t0)) _ t);
    [by eapply NoDup_fmap_1|done|].
  intros t' Hin'. cbn beta. rewrite record_step_lookup.
  destruct (Hty t' Hin') as [x Hx]. rewrite Hx.
  destruct (decide (t' = t)) as [->|Hne].
  - rewrite decide_True; [done|]. rewrite !elem_of_cons.
    prefix_cases Hp; tauto.
  - rewrite decide_False; [done|]. rewrite !elem_of_cons, elem_of_nil.
    intros Hk.
    assert (name t' <> name t) by (intros Hn; apply Hne; by apply name_inj).
    prefix_cases Hp; destruct Hk as [H'|[H'|[H'|[H'|[]]]]]; key_eq H'; done.
Qed.

Lemma action_type_of_member (a : gmap string np.ndarray) t :
  action_type_of a = Return t -> t ∈ ActionType.
Proof.
  unfold action_type_of. destruct (getitem a "action_type") as [x|]; [|done].
  destruct (np.item x) as [v|]; [|done]. apply ActionType_call_member.
Qed.

Lemma counters_after_balanced (c : Call) (pending : bool) d :
  NoDup (name <$> ActionType) -> present d ->
  steps_balanced d -> steps_balanced (counters_after c pending d).
Proof.
  intros Hnd Hd Hb. destruct c as [r|a r]; cbn [counters_after];
    [by apply zeroed_balanced|].
  destruct (should_restart r); [apply incr_other_balanced; auto|].
  destruct (check_timeout r); [apply incr_other_balanced; auto|].
  destruct pending; [by apply zeroed_balanced|].
  destruct (action_type_of a) as [t|] eqn:Ha; [|done].
  apply record_balanced; try done. by eapply action_type_of_member.
Qed.

Lemma reachable_balanced (task : Task) (cs : list Call) :
  NoDup (name <$> ActionType) ->
  steps_balanced (_log_dict (self (run cs (__init__ task)).2)).
Proof.
  intros Hnd. induction cs as [|c cs IH] using rev_ind; [apply init_balanced|].
  rewrite run_app, run_cons. cbn [run snd].
  rewrite perform_counters by apply reachable_present.
  apply counters_after_balanced; [done|apply reachable_present|done].
Qed.

(** X8. The member names of the action-type enumeration being distinct:
    on every object reached from construction by reset/step calls,
    whatever they returned or raised, the step counter of each prefix
    equals the sum of the action-type counters of that prefix. *)
Theorem X8_steps_are_sum_of_action_types (task : Task) (cs : list Call) prefix :
  NoDup (name <$> ActionType) ->
  prefix ∈ _log_prefixes ->
  _log_dict (self (run cs (__init__ task)).2) !! steps_key prefix
  = Some (sum_Qc (type_counts prefix
                    (_log_dict (self (run cs (__init__ task)).2)))).
Proof.
  intros Hnd Hp. by apply reachable_balanced.
Qed.

(** ** Quotients of sums *)

Lemma sum_Qc_div (l : list EnumMember) (f : EnumMember -> Qc) (q : Qc) :
  sum_Qc ((fun t => (f t / q)%Qc) <$> l) = (sum_Qc (f <$> l) / q)%Qc.
Proof.
  induction l as [|x l IH]; cbn [fmap list_fmap sum_Qc foldr].
  - unfold Qcdiv. ring.
  - fold (sum_Qc ((fun t => (f t / q)%Qc) <$> l)). fold (sum_Qc (f <$> l)).
    rewrite IH. unfold Qcdiv. ring.
Qed.

Lemma reachable_counter_keys (task : Task) (cs : list Call) key :
  is_Some (_log_dict (self (run cs (__init__ task)).2) !! key)
  <-> key ∈ counter_keys.
Proof.
  rewrite <- elem_of_dom, run_dom, elem_of_dom. cbn [__init__ self _log_dict].
  rewrite init_log_dict_lookup. destruct (decide (key ∈ counter_keys)).
  - split; [done|]. by eexists.
  - split; [by intros [? ?]|done].
Qed.

Lemma ratio_key_not_counter p t :
  no_ratio_names -> p ∈ _log_prefixes -> t ∈ ActionType ->
  ratio_key p t ∉ counter_keys.
Proof.
  intros Hnames Hp Hin. rewrite elem_of_counter_keys.
  intros [Heq|[Heq|[Heq|[Heq|[Heq|Heq]]]]].
  - prefix_cases Hp; by key_eq Heq.
  - prefix_cases Hp; by key_eq Heq.
  - by apply (ratio_key_ne_steps_key p "androidenv_total" t Hp
                total_in_prefixes).
  - apply list_elem_of_fmap in Heq as (t' & Heq & Hin').
    apply ratio_key_type_key in Heq; [|done|apply total_in_prefixes].
    exact (Hnames t t' Hin Hin' Heq).
  - by apply (ratio_key_ne_steps_key p "androidenv_episode" t Hp
                episode_in_prefixes).
  - apply list_elem_of_fmap in Heq as (t' & Heq & Hin').
    apply ratio_key_type_key in Heq; [|done|apply episode_in_prefixes].
    exact (Hnames t t' Hin Hin' Heq).
Qed.

(** ** The counters hold natural numbers *)

Lemma init_natural : counts_natural init_log_dict.
Proof.
  intros p Hp. exists 0%nat. rewrite Qc_of_nat_0. split.
  - rewrite init_log_dict_lookup, decide_True; [done|].
    apply elem_of_counter_keys. prefix_cases Hp; tauto.
  - intros t Hin. exists 0%nat. rewrite Qc_of_nat_0. split; [done|].
    rewrite init_log_dict_lookup, decide_True; [done|].
    apply elem_of_counter_keys.
    assert (type_key p t ∈ type_key p <$> ActionType)
      by (apply list_elem_of_fmap; eauto).
    prefix_cases Hp; tauto.
Qed.

Lemma natural_present d : counts_natural d -> present d.
Proof.
  intros Hd p Hp. destruct (Hd p Hp) as (n & Hn & Ht). split; [by eexists|].
  intros t Hin. destruct (Ht t Hin) as (k & _ & Hk). by eexists.
Qed.

Lemma zeroed_natural d : counts_natural d -> counts_natural (episode_zeroed d).
Proof.
  intros Hd p Hp. destruct (Hd p Hp) as (n & Hn & Ht). prefix_cases Hp.
  - exists n. rewrite episode_zeroed_lookup, total_prefix_steps.
    split; [done|]. intros t Hin.
    rewrite episode_zeroed_lookup, total_prefix_type. by apply Ht.
  - exists 0%nat. rewrite episode_zeroed_lookup, episode_prefix_steps, Hn.
    rewrite Qc_of_nat_0. split; [done|]. intros t Hin. exists 0%nat.
    rewrite episode_zeroed_lookup, episode_prefix_type.
    destruct (Ht t Hin) as (k & _ & ->). by rewrite Qc_of_nat_0.
Qed.

Lemma incr_other_natural d key :
  key = "restart_count" \/ key = "reset_count_step_timeout" ->
  counts_natural d -> counts_natural (incr key d).
Proof.
  intros Hk Hd p Hp. destruct (Hd p Hp) as (n & Hn & Ht). exists n. split.
  - rewrite incr_lookup, decide_False; [done|]. intros Heq.
    prefix_cases Hp; destruct Hk as [-> | ->]; by key_eq Heq.
  - intros t Hin. rewrite incr_lookup, decide_False; [by apply Ht|].
    intros Heq. prefix_cases Hp; destruct Hk as [-> | ->]; by key_eq Heq.
Qed.

Lemma record_natural t d :
  counts_natural d -> counts_natural (record_step t d).
Proof.
  intros Hd p Hp. destruct (Hd p Hp) as (n & Hn & Ht). exists (S n). split.
  - rewrite record_step_lookup, decide_True, Hn.
    + by rewrite Qc_of_nat_S.
    + rewrite !elem_of_cons. prefix_cases Hp; tauto.
  - intros t' Hin. destruct (Ht t' Hin) as (k & Hle & Hk).
    rewrite record_step_lookup, Hk.
    destruct (decide (name t' = name t)) as [Hn'|Hn'].
    + exists (S k). split; [lia|]. rewrite decide_True.
      * by rewrite Qc_of_nat_S.
      * rewrite (type_key_name p t' t Hn'), !elem_of_cons.
        prefix_cases Hp; tauto.
    + exists k. split; [lia|]. rewrite decide_False; [done|].
      rewrite !elem_of_cons, elem_of_nil. intros Hkey.
      prefix_cases Hp; destruct Hkey as [Heq|[Heq|[Heq|[Heq|[]]]]];
        key_eq Heq; done.
Qed.

Lemma counters_after_natural (c : Call) (pending : bool) d :
  counts_natural d -> counts_natural (counters_after c pending d).
Proof.
  intros Hd. destruct c as [r|a r]; cbn [counters_after];
    [by apply zeroed_natural|].
  destruct (should_restart r); [apply incr_other_natural; auto|].
  destruct (check_timeout r); [apply incr_other_natural; auto|].
  destruct pending; [by apply zeroed_natural|].
  destruct (action_type_of a) as [t|]; [|done]. by apply record_natural.
Qed.

Lemma reachable_natural (task : Task) (cs : list Call) :
  counts_natural (_log_dict (self (run cs (__init__ task)).2)).
Proof.
  induction cs as [|c cs IH] using rev_ind; [apply init_natural|].
  rewrite run_app, run_cons. cbn [run snd].
  rewrite perform_counters by apply reachable_present.
  by apply counters_after_natural.
Qed.

(** ** Sums of rounded quotients *)

Lemma sum_Qc_le (l : list EnumMember) (f g : EnumMember -> Qc) :
  (forall t, t ∈ l -> (f t <= g t)%Qc) ->
  (sum_Qc (f <$> l) <= sum_Qc (g <$> l))%Qc.
Proof.
  induction l as [|x l IH]; intros Hfg; cbn [fmap list_fmap sum_Qc foldr].
  - apply Qcle_refl.
  - fold (sum_Qc (f <$> l)). fold (sum_Qc (g <$> l)).
    apply Qcplus_le_compat; [apply Hfg, list_elem_of_here|].
    apply IH. intros t Hin. by apply Hfg, list_elem_of_further.
Qed.

Lemma sum_Qc_scale (l : list EnumMember) (a : Qc) (f : EnumMember -> Qc) :
  sum_Qc ((fun t => (a * f t)%Qc) <$> l) = (a * sum_Qc (f <$> l))%Qc.
Proof.
  induction l as [|x l IH]; cbn [fmap list_fmap sum_Qc foldr]; [ring|].
  fold (sum_Qc ((fun t => (a * f t)%Qc) <$> l)). fold (sum_Qc (f <$> l)).
  rewrite IH. ring.
Qed.

(** Values that are each within the unit roundoff of a quotient, the
    quotients adding up to 1, add up to 1 within the unit roundoff. *)
Lemma sum_rounded (l : list EnumMember) (q x : EnumMember -> Qc) :
  sum_Qc (q <$> l) = 1%Qc ->
  (forall t, t ∈ l ->
     ((1 - float.unit_roundoff) * q t <= x t)%Qc
     /\ (x t <= (1 + float.unit_roundoff) * q t)%Qc) ->
  (1 - float.unit_roundoff <= sum_Qc (x <$> l))%Qc
  /\ (sum_Qc (x <$> l) <= 1 + float.unit_roundoff)%Qc.
Proof.
  intros Hsum Hx. split.
  - replace (1 - float.unit_roundoff)%Qc
      with ((1 - float.unit_roundoff) * sum_Qc (q <$> l))%Qc
      by (rewrite Hsum; ring).
    rewrite <- sum_Qc_scale. apply sum_Qc_le. intros t Hin. by apply Hx.
  - replace (1 + float.unit_roundoff)%Qc
      with ((1 + float.unit_roundoff) * sum_Qc (q <$> l))%Qc
      by (rewrite Hsum; ring).
    rewrite <- sum_Qc_scale. apply sum_Qc_le. intros t Hin. by apply Hx.
Qed.

Lemma occurrences_le t (ts : list EnumMember) :
  (occurrences t ts <= length ts)%nat.
Proof. unfold occurrences. apply length_filter. Qed.

(** ** A flush on an object reached from construction *)

(** What a flush gives on an object whose counters hold natural
    numbers. *)
Lemma flush_present r w :
  no_ratio_names ->
  counts_natural (_log_dict (self w)) ->
  dom (log_dict r) ## dom (_log_dict (self w)) ->
  let d := _log_dict (self w) in
  let merged := log_dict r ∪ d in
  exists out w',
    _flush_log_dict r w = (Return out, w')
    /\ self w' = self w
    /\ (forall k,
          (forall p t, p ∈ _log_prefixes -> t ∈ ActionType ->
             k <> ratio_key p t) ->
          out !! k = merged !! k)
    /\ (forall p st, p ∈ _log_prefixes -> d !! steps_key p = Some st ->
          (st <> 0%Qc -> forall t, t ∈ ActionType ->
             out !! ratio_key p t
             = (fun c => float.round (c / st)) <$> d !! type_key p t)
          /\ (st = 0%Qc ->
              logging_warning "%s_steps is 0. Skipping ratio logs." p
                ∈ calls w'
              /\ forall t, out !! ratio_key p t = merged !! ratio_key p t)).
Proof.
  intros Hnames Hnat Hdisj. cbv zeta. rewrite _flush_log_dict_run.
  pose proof (natural_present _ Hnat) as Hd1.
  set (d1 := _log_dict (self w)) in *. set (merged := log_dict r ∪ d1).
  assert (Hmerged : forall key, is_Some (d1 !! key) -> merged !! key = d1 !! key).
  { intros key Hk. by apply merged_lookup. }
  assert (Hcross : forall p p' t t',
            p ∈ _log_prefixes -> p' ∈ _log_prefixes -> p <> p' ->
            ratio_key p t <> ratio_key p' t').
  { intros p p' t t' Hp Hp' Hne Heq.
    by apply ratio_key_inj in Heq as [? _]. }
  assert (Hkeys : forall p p' t,
            p ∈ _log_prefixes -> p' ∈ _log_prefixes ->
            (forall t', steps_key p <> ratio_key p' t')
            /\ (t ∈ ActionType -> forall t', t' ∈ ActionType ->
                type_key p t <> ratio_key p' t')).
  { intros p p' t Hp Hp'. split.
    - intros t' Heq. symmetry in Heq.
      exact (ratio_key_ne_steps_key p' p t' Hp' Hp Heq).
    - intros Hin t' Hin' Heq. symmetry in Heq.
      apply ratio_key_type_key in Heq; [|done|done].
      exact (Hnames t' t Hin' Hin Heq). }
  assert (Hdiv : forall p st, p ∈ _log_prefixes -> d1 !! steps_key p = Some st ->
            forall t, t ∈ ActionType ->
              exists c, d1 !! type_key p t = Some c
                        /\ (st <> 0%Qc ->
                            truediv c st = Return (float.round (c / st)))).
  { intros p st Hp Hst t Hin. destruct (Hnat p Hp) as (n & Hn & Ht).
    destruct (Ht t Hin) as (k & Hle & Hk). exists (Qc_of_nat k).
    split; [done|]. rewrite Hn in Hst. apply (inj Some) in Hst as <-.
    intros Hne. apply truediv_counts; [done|]. intros ->.
    by rewrite Qc_of_nat_0 in Hne. }
  cbn [for_fold _log_prefixes]. unfold mbind, M_bind.
  pose proof total_in_prefixes as Htot. pose proof episode_in_prefixes as Hep.
  destruct (Hd1 _ Htot) as [[st Hst] Htt].
  destruct (Hd1 _ Hep) as [[se Hse] Hte].
  destruct (flush_prefix_run "androidenv_total" merged
              (mkWorld (self w) (calls w ++ [coordinator_log_dict]))
              st Htot Hnames)
    as (m2 & w2 & -> & Hself2 & Hoth2 & Hnz2 & Hz2).
  { by rewrite Hmerged, Hst. }
  { intros t Hin. destruct (Hdiv _ _ Htot Hst t Hin) as (c & Hc & Hq).
    exists c. split; [|done]. rewrite Hmerged; by rewrite Hc. }
  assert (Hm2s : m2 !! steps_key "androidenv_episode" = Some se).
  { rewrite Hoth2, Hmerged; [done|by rewrite Hse|].
    intros t _. by apply (Hkeys _ _ t Hep Htot). }
  assert (Htype2 : forall t, t ∈ ActionType ->
            m2 !! type_key "androidenv_episode" t
            = d1 !! type_key "androidenv_episode" t).
  { intros t Hin. rewrite Hoth2.
    - rewrite Hmerged; [done|by apply Hte].
    - intros t' Hin'. by apply (Hkeys _ _ t Hep Htot). }
  destruct (flush_prefix_run "androidenv_episode" m2 w2 se Hep Hnames Hm2s)
    as (m3 & w3 & -> & Hself3 & Hoth3 & Hnz3 & Hz3).
  { intros t Hin. destruct (Hdiv _ _ Hep Hse t Hin) as (c & Hc & Hq).
    exists c. split; [|done]. by rewrite Htype2, Hc. }
  exists m3, w3. unfold mret, M_ret.
  split; [done|]. split; [by rewrite Hself3, Hself2|]. split.
  { intros k Hk. rewrite Hoth3, Hoth2; [done| |]; intros t Hin; by apply Hk. }
  intros p s Hp Hs. prefix_cases Hp.
  - rewrite Hst in Hs. apply (inj Some) in Hs as <-. split.
    + intros Hne t Hin. destruct (Hnz2 Hne) as [_ Hr2].
      rewrite Hoth3 by (intros t' _; by apply Hcross).
      rewrite (Hr2 t Hin). rewrite Hmerged; [done|by apply Htt].
    + intros Hzero. destruct (Hz2 Hzero) as [-> Hcalls2]. split.
      * destruct (decide (se = 0%Qc)) as [Hq|Hq].
        -- destruct (Hz3 Hq) as [_ Hcalls3].
           rewrite Hcalls3, Hcalls2. env_simpl.
           apply elem_of_app. left. apply elem_of_app. right.
           apply list_elem_of_here.
        -- destruct (Hnz3 Hq) as [Hcalls3 _].
           rewrite Hcalls3, Hcalls2. env_simpl.
           apply elem_of_app. right. apply list_elem_of_here.
      * intros t. apply Hoth3. intros t' _. by apply Hcross.
  - rewrite Hse in Hs. apply (inj Some) in Hs as <-. split.
    + intros Hne t Hin. destruct (Hnz3 Hne) as [_ Hr3].
      by rewrite (Hr3 t Hin), Htype2.
    + intros Hzero. destruct (Hz3 Hzero) as [-> Hcalls3]. split.
      * rewrite Hcalls3. apply elem_of_app. right. apply list_elem_of_here.
      * intros t. apply Hoth2. intros t' _. by apply Hcross.
Qed.

(** C8. A Python float is a double, written as the rational it denotes,
    and a quotient is the double nearest to the exact one
    ([float.round]); [float.unit_roundoff] is [2 ^ -53], half the machine
    epsilon. The member names of the action-type enumeration are
    distinct and none is ratio_<name of another member>; the keys of the
    coordinator's log are not keys of the counters. On an object reached
    from construction by any calls, after a reset and [N] steps of the
    new episode that are recorded with the action types [ts] (no
    restart, no timeout, only the last step may end the episode), [N]
    being below [2 ^ 53], [android_logs()] returns a dictionary [out] in
    which the episode step count is [N]; if [N] is not 0, the episode
    ratio of every member is the double nearest to the number of its
    occurrences in [ts] divided by [N], which differs from that quotient
    by at most the unit roundoff times the quotient, and the ratios of
    all members add up to 1 within the unit roundoff; for a scope whose
    step count is 0 the warning is logged and no ratio is written (the
    entries under its ratio keys are those of the merged dictionaries);
    and no flush, in any state, ends in a division by zero. *)
Theorem C8_flush_reports_steps_and_ratios (task : Task) (before : list Call)
  (r0 : Responses) (steps : list (gmap string np.ndarray * Responses))
  (ts : list EnumMember) r :
  NoDup (name <$> ActionType) ->
  no_ratio_names ->
  is_Some (get_current_extras r0) ->
  recorded_steps steps ts ->
  dom (log_dict r) ## dom init_log_dict ->
  (Z.of_nat (length steps) < 2 ^ 53)%Z ->
  let w := (run (before ++ reset_call r0 :: step_calls steps)
                (__init__ task)).2 in
  let merged := log_dict r ∪ _log_dict (self w) in
  let quotient t :=
    (Qc_of_nat (occurrences t ts) / Qc_of_nat (length steps))%Qc in
  exists out,
    (android_logs r w).1 = Return out
    /\ out !! steps_key "androidenv_episode"
       = Some (Qc_of_nat (length steps))
    /\ ((length steps <> 0)%nat ->
        (forall t, t ∈ ActionType ->
           out !! ratio_key "androidenv_episode" t
           = Some (float.round (quotient t))
           /\ ((1 - float.unit_roundoff) * quotient t
               <= float.round (quotient t))%Qc
           /\ (float.round (quotient t)
               <= (1 + float.unit_roundoff) * quotient t)%Qc)
        /\ (1 - float.unit_roundoff
            <= sum_Qc (ratios "androidenv_episode" out))%Qc
        /\ (sum_Qc (ratios "androidenv_episode" out)
            <= 1 + float.unit_roundoff)%Qc)
    /\ (forall prefix, prefix ∈ _log_prefixes ->
          out !! steps_key prefix = Some 0%Qc ->
          logging_warning "%s_steps is 0. Skipping ratio logs." prefix
            ∈ calls (android_logs r w).2
          /\ forall t, out !! ratio_key prefix t = merged !! ratio_key prefix t)
    /\ (forall r' w', (android_logs r' w').1 <> Raise ZeroDivisionError).
Proof.
  intros Hnd Hnames [e He] Hsteps Hdisj Hbound w merged quotient.
  unfold android_logs.
  set (w0 := (run before (__init__ task)).2).
  assert (Hd0 : present (_log_dict (self w0))) by apply reachable_present.
  destruct (reset_returns r0 w0 e He) as [Hlog1 Hpend1].
  assert (Hlog : _log_dict (self w)
                 = foldl (fun d t => record_step t d)
                         (episode_zeroed (_log_dict (self w0))) ts).
  { subst w. rewrite run_app. fold w0. rewrite run_cons. cbn [snd perform].
    rewrite (run_recorded steps ts), Hlog1; [done|done|done|].
    rewrite Hlog1. eapply present_dom; [apply episode_zeroed_dom|done]. }
  assert (Hlen : length steps = length ts)
    by (destruct Hsteps as [Hrec _]; by eapply Forall2_length).
  pose proof (recorded_members steps ts Hsteps) as Hts.
  destruct (recorded_counts (_log_dict (self w0)) ts Hnd Hd0 Hts)
    as [Hcount Htypes].
  cbv zeta in Hcount, Htypes. rewrite <- Hlog, <- Hlen in Hcount.
  rewrite <- Hlog in Htypes.
  pose proof (reachable_natural task
                (before ++ reset_call r0 :: step_calls steps)) as Hnat.
  fold w in Hnat.
  assert (Hdisj' : dom (log_dict r) ## dom (_log_dict (self w)))
    by (unfold w; by rewrite run_dom).
  destruct (flush_present r w Hnames Hnat Hdisj')
    as (out & w' & Hrun & Hself & Hoth & Hsc).
  assert (Hkeep : forall p, p ∈ _log_prefixes ->
            out !! steps_key p = _log_dict (self w) !! steps_key p).
  { intros p Hp. rewrite Hoth.
    - apply merged_lookup; [done|].
      by destruct (natural_present _ Hnat p Hp) as [? _].
    - intros p' t Hp' _ Heq. symmetry in Heq.
      exact (ratio_key_ne_steps_key p' p t Hp' Hp Heq). }
  exists out. rewrite Hrun. cbn [fst snd].
  split; [done|]. split.
  { by rewrite (Hkeep _ episode_in_prefixes). }
  split.
  { intros Hn. apply Qc_of_nat_ne_0 in Hn as Hq.
    destruct (Hsc _ _ episode_in_prefixes Hcount) as [Hnz _].
    assert (Hratio : forall t, t ∈ ActionType ->
              out !! ratio_key "androidenv_episode" t
              = Some (float.round (quotient t))).
    { intros t Hin. rewrite (Hnz Hq t Hin), (Htypes t Hin). cbn.
      unfold quotient. by rewrite Hlen. }
    assert (Herr : forall t,
              ((1 - float.unit_roundoff) * quotient t
               <= float.round (quotient t))%Qc
              /\ (float.round (quotient t)
                  <= (1 + float.unit_roundoff) * quotient t)%Qc).
    { intros t. apply count_quotient_error; [|done|done].
      rewrite Hlen. apply occurrences_le. }
    split.
    { intros t Hin. split; [by apply Hratio|apply Herr]. }
    unfold ratios.
    rewrite (sum_Qc_same ActionType (fun t => float.round (quotient t)))
      by (intros t Hin; by rewrite (Hratio t Hin)).
    apply (sum_rounded ActionType quotient); [|intros t _; apply Herr].
    unfold quotient. rewrite sum_ratios, sum_occurrences, Hlen;
      [|by eapply NoDup_fmap_1|done].
    unfold Qcdiv. apply Qcmult_inv_r. by rewrite <- Hlen. }
  split.
  - intros prefix Hp Hzero. rewrite (Hkeep _ Hp) in Hzero.
    destruct (Hsc _ _ Hp Hzero) as [_ Hz]. by apply Hz.
  - apply _flush_log_dict_no_zero_division.
Qed.

(** X9. [android_logs()] on any object reached from construction by
    reset/step calls. The member names are distinct and none is
    ratio_<name of another member>; the keys of the coordinator's log are
    not keys of the counters. Then the call returns a dictionary [out] in
    which every counter has the value the object holds, and for each
    prefix, whose step count is a natural number [steps]: if [steps] is
    not 0, the ratio of every member is the double nearest to its count
    divided by [steps], and with [steps] below [2 ^ 53] the ratios of
    all members add up to 1 within the unit roundoff [2 ^ -53]; if
    [steps] is 0, the warning is logged and the entries under the ratio
    keys of the prefix are those of the coordinator's log. *)
Theorem X9_flush_on_any_reachable_object (task : Task) (cs : list Call) r
  prefix :
  NoDup (name <$> ActionType) ->
  no_ratio_names ->
  dom (log_dict r) ## dom init_log_dict ->
  prefix ∈ _log_prefixes ->
  let w := (run cs (__init__ task)).2 in
  exists out (steps : nat),
    (android_logs r w).1 = Return out
    /\ (forall key, key ∈ counter_keys ->
          out !! key = _log_dict (self w) !! key)
    /\ out !! steps_key prefix = Some (Qc_of_nat steps)
    /\ (steps <> 0%nat ->
        (forall t, t ∈ ActionType ->
           exists k : nat,
             (k <= steps)%nat
             /\ _log_dict (self w) !! type_key prefix t = Some (Qc_of_nat k)
             /\ out !! ratio_key prefix t
                = Some (float.round (Qc_of_nat k / Qc_of_nat steps)))
        /\ ((Z.of_nat steps < 2 ^ 53)%Z ->
            (1 - float.unit_roundoff <= sum_Qc (ratios prefix out))%Qc
            /\ (sum_Qc (ratios prefix out) <= 1 + float.unit_roundoff)%Qc))
    /\ (steps = 0%nat ->
        logging_warning "%s_steps is 0. Skipping ratio logs." prefix
          ∈ calls (android_logs r w).2
        /\ forall t, t ∈ ActionType ->
             out !! ratio_key prefix t = log_dict r !! ratio_key prefix t).
Proof.
  intros Hnd Hnames Hdisj Hp w.
  pose proof (reachable_natural task cs) as Hnat. fold w in Hnat.
  pose proof (reachable_balanced task cs Hnd) as Hb. fold w in Hb.
  assert (Hdisj' : dom (log_dict r) ## dom (_log_dict (self w)))
    by (unfold w; by rewrite run_dom).
  destruct (flush_present r w Hnames Hnat Hdisj')
    as (out & w' & Hrun & Hself & Hoth & Hsc).
  destruct (Hnat _ Hp) as (n & Hst & Hty).
  destruct (Hsc prefix _ Hp Hst) as [Hnz Hz].
  assert (Hkeep : forall key, key ∈ counter_keys ->
            out !! key = _log_dict (self w) !! key).
  { intros key Hk. rewrite Hoth.
    - apply merged_lookup; [done|]. by apply reachable_counter_keys.
    - intros p t Hp' Hin ->. by apply (ratio_key_not_counter p t). }
  exists out, n. unfold android_logs. rewrite Hrun. cbn [fst snd].
  split; [done|]. split; [done|]. split.
  { rewrite Hkeep; [done|]. apply elem_of_counter_keys.
    prefix_cases Hp; tauto. }
  split.
  - intros Hn. apply Qc_of_nat_ne_0 in Hn as Hq. split.
    + intros t Hin. destruct (Hty t Hin) as (k & Hle & Hk). exists k.
      split; [done|]. split; [done|]. by rewrite (Hnz Hq t Hin), Hk.
    + intros Hbound. unfold ratios.
      set (q := fun t => (default 0%Qc (_log_dict (self w) !! type_key prefix t)
                          / Qc_of_nat n)%Qc).
      rewrite (sum_Qc_same ActionType (fun t => float.round (q t))).
      * apply (sum_rounded ActionType q).
        -- unfold q. rewrite sum_Qc_div.
           fold (type_counts prefix (_log_dict (self w))).
           pose proof (Hb prefix Hp) as Hsum. rewrite Hst in Hsum.
           apply (inj Some) in Hsum. rewrite <- Hsum. unfold Qcdiv.
           by apply Qcmult_inv_r.
        -- intros t Hin. unfold q. destruct (Hty t Hin) as (k & Hle & ->).
           cbn [default]. by apply count_quotient_error.
      * intros t Hin. rewrite (Hnz Hq t Hin). unfold q.
        by destruct (Hty t Hin) as (k & _ & ->).
  - intros ->. rewrite Qc_of_nat_0 in Hz.
    destruct (Hz eq_refl) as [Hwarn Hrat]. split; [done|].
    intros t Hin. rewrite Hrat. rewrite lookup_union.
    assert (_log_dict (self w) !! ratio_key prefix t = None) as ->.
    { apply eq_None_not_Some. intros Hsome%reachable_counter_keys.
      by apply (ratio_key_not_counter prefix t). }
    by destruct (log_dict r !! ratio_key prefix t).
Qed.

(** ** Methods that only read *)

Lemma reads_only_ret {A} (a : A) : reads_only (mret a).
Proof. by intros w. Qed.

Lemma reads_only_lift {A} (x : Result A) : reads_only (lift x).
Proof. by intros w. Qed.

Lemma reads_only_emit (e : Event) : reads_only (emit e).
Proof. by intros w. Qed.

Lemma reads_only_get : reads_only get.
Proof. intros w. split; [done|]. intros w' Hw. unfold get. cbn. by rewrite Hw. Qed.

Lemma reads_only_bind {A B} (m : M A) (f : A -> M B) :
  reads_only m -> (forall a, reads_only (f a)) -> reads_only (m ≫= f).
Proof.
  intros Hm Hf w. destruct (Hm w) as [Hself Hres]. unfold mbind, M_bind.
  split.
  - destruct (m w) as [[a|e] w1] eqn:Hrun; cbn [snd] in *; [|done].
    destruct (Hf a w1) as [Hself1 _]. by rewrite Hself1.
  - intros w' Hw. specialize (Hres w' Hw). destruct (Hm w') as [Hself' _].
    destruct (m w) as [[a|e] w1], (m w') as [[a'|e'] w1'];
      cbn [fst snd] in *; try done; simplify_eq; [|done].
    destruct (Hf a w1) as [_ Hres1]. apply Hres1. congruence.
Qed.

Lemma reads_only_for_fold {A B} (xs : list A) (body : B -> A -> M B) (b : B) :
  (forall b x, reads_only (body b x)) -> reads_only (for_fold xs body b).
Proof.
  intros Hbody. revert b. induction xs as [|x xs IH]; intros b; cbn [for_fold].
  - apply reads_only_ret.
  - apply reads_only_bind; [apply Hbody|apply IH].
Qed.

Lemma reads_only_flush r : reads_only (_flush_log_dict r).
Proof.
  unfold _flush_log_dict, call.
  apply reads_only_bind; [apply reads_only_get|]. intros s.
  apply reads_only_bind.
  { apply reads_only_bind; [apply reads_only_emit|]. intros _.
    apply reads_only_ret. }
  intros update. apply reads_only_for_fold. intros m p. unfold flush_prefix.
  apply reads_only_bind; [apply reads_only_lift|]. intros steps.
  destruct (bool_decide (steps = 0%Qc)).
  - apply reads_only_bind; [apply reads_only_emit|]. intros _.
    apply reads_only_ret.
  - apply reads_only_for_fold. intros m' t. unfold flush_ratio.
    repeat (apply reads_only_bind; [apply reads_only_lift|]; intros ?).
    apply reads_only_ret.
Qed.

(** X10. [android_logs()] only reads, in every state and whether it
    returns or raises: the object is left as it was, so no counter is
    reset by a flush, and a second call with the same answer of the
    coordinator gives the same result. *)
Theorem X10_android_logs_only_reads r w :
  self (android_logs r w).2 = self w
  /\ (android_logs r (android_logs r w).2).1 = (android_logs r w).1.
Proof.
  unfold android_logs. destruct (reads_only_flush r w) as [Hself Hres].
  split; [done|]. by apply Hres.
Qed.

(** ** Task extras: what is read, what is handed out *)

Lemma task_extras_loop_cache (latest_only : bool)
  (items : list (string * Array)) (acc : gmap string np.ndarray) w w' :
  (forall key, key ∈ items.*1 ->
     _latest_extras (self w') !! key = _latest_extras (self w) !! key) ->
  (for_fold items (task_extras_item latest_only) acc w').1
  = (for_fold items (task_extras_item latest_only) acc w).1.
Proof.
  revert acc. induction items as [|[k spec] items IH]; intros acc Hc; [done|].
  cbn [for_fold]. unfold mbind, M_bind. rewrite !task_extras_item_run.
  rewrite (Hc k) by apply list_elem_of_here.
  destruct (item_outcome _ _ _ _ _); [|done].
  apply IH. intros key Hin. apply Hc. by apply list_elem_of_further.
Qed.

(** X11. [task_extras()] only reads: it calls no collaborator and leaves
    the object, cache included, as it was, whether it returns or raises;
    and its result depends on the task and on the cached values of the
    schema keys only, cached values for other keys having no effect. *)
Theorem X11_task_extras_only_reads_schema_keys (latest_only : bool) w :
  (task_extras latest_only w).2 = w
  /\ forall w',
       _task (self w') = _task (self w) ->
       (forall key, key ∈ (specs_task_extras_spec (_task (self w))).*1 ->
          _latest_extras (self w') !! key = _latest_extras (self w) !! key) ->
       (task_extras latest_only w').1 = (task_extras latest_only w).1.
Proof.
  split.
  - rewrite task_extras_run. apply task_extras_loop_world.
  - intros w' Htask Hc. rewrite !task_extras_run, Htask.
    by apply task_extras_loop_cache.
Qed.

Lemma item_outcome_Return (latest_only : bool)
  (acc acc' : gmap string np.ndarray) key (spec : Array)
  (cached : option np.ndarray) :
  item_outcome latest_only acc key spec cached = Return acc' ->
  (cached = None /\ acc' = acc)
  \/ exists c v, cached = Some c /\ handed_out latest_only spec c v
                 /\ acc' = <[key := v]> acc.
Proof.
  unfold item_outcome, handed_out. destruct cached as [c|];
    [|intros [= <-]; by left].
  destruct (np.astype _ c) as [converted|] eqn:Hconv; [|done].
  destruct (np.iter _) as [rows|] eqn:Hit; [|done].
  destruct (forallb _ rows) eqn:Hok; [|done].
  destruct latest_only.
  - destruct (np.last_item _) as [v|] eqn:Hl; [|done]. intros [= <-].
    right. exists c, v. split; [done|]. split; [|done].
    by exists converted, rows.
  - intros [= <-]. right. eexists c, _. split; [done|]. split; [|done].
    by exists converted, rows.
Qed.

Lemma task_extras_loop_result (latest_only : bool)
  (items : list (string * Array)) (acc m : gmap string np.ndarray) w :
  (for_fold items (task_extras_item latest_only) acc w).1 = Return m ->
  (forall key,
     is_Some (m !! key)
     <-> is_Some (acc !! key)
         \/ (key ∈ items.*1 /\ is_Some (_latest_extras (self w) !! key)))
  /\ (forall key x, m !! key = Some x ->
        acc !! key = Some x
        \/ exists spec cached,
             (key, spec) ∈ items
             /\ _latest_extras (self w) !! key = Some cached
             /\ handed_out latest_only spec cached x).
Proof.
  revert acc. induction items as [|[k spec] items IH]; intros acc.
  - cbn. intros [= <-]. split.
    + intros key. split; [by left|]. intros [?|[Hin _]]; [done|].
      by apply elem_of_nil in Hin.
    + intros key x ?. by left.
  - cbn [for_fold]. unfold mbind, M_bind. rewrite task_extras_item_run.
    destruct (item_outcome _ _ _ _ _) as [acc'|e] eqn:Hitem; [|done].
    intros Hrun. destruct (IH acc' Hrun) as [Hdom Hval].
    apply item_outcome_Return in Hitem
      as [[Hnone ->]|(c & v & Hc & Hout & ->)].
    + split.
      * intros key. rewrite Hdom. cbn [fmap list_fmap fst].
        rewrite elem_of_cons. split.
        -- intros [?|[? ?]]; [by left|right; split; [by right|done]].
        -- intros [?|[[->|?] Hs]]; [by left| |by right].
           rewrite Hnone in Hs. by destruct Hs.
      * intros key x Hx.
        destruct (Hval key x Hx) as [?|(spec' & cached & Hin & ? & ?)];
          [by left|].
        right. exists spec', cached. split; [by apply list_elem_of_further|done].
    + split.
      * intros key. rewrite Hdom. cbn [fmap list_fmap fst].
        rewrite elem_of_cons. destruct (decide (key = k)) as [->|Hne].
        -- rewrite lookup_insert_eq, Hc. split; intros _.
           ++ right. split; [by left|by eexists].
           ++ left. by eexists.
        -- rewrite lookup_insert_ne by done. split.
           ++ intros [?|[? ?]]; [by left|right; split; [by right|done]].
           ++ intros [?|[[?|?] ?]]; [by left|done|by right].
      * intros key x Hx.
        destruct (Hval key x Hx) as [Hacc|(spec' & cached & Hin & ? & ?)].
        -- destruct (decide (key = k)) as [->|Hne].
           ++ rewrite lookup_insert_eq in Hacc. apply (inj Some) in Hacc as <-.
              right. exists spec, c. split; [apply list_elem_of_here|done].
           ++ rewrite lookup_insert_ne in Hacc by done. by left.
        -- right. exists spec', cached.
           split; [by apply list_elem_of_further|done].
Qed.

(** X12. What [task_extras()] returns, when it returns: the result has an
    entry exactly for the keys of the schema that have a cached value,
    and every entry is the cached value converted to the dtype of a spec
    of its key, all of whose rows pass the validation, or the last row
    of it when [latest_only]. *)
Theorem X12_task_extras_hands_out_schema_keys (latest_only : bool) w
  (m : gmap string np.ndarray) :
  (task_extras latest_only w).1 = Return m ->
  (forall key,
     is_Some (m !! key)
     <-> key ∈ (specs_task_extras_spec (_task (self w))).*1
         /\ is_Some (_latest_extras (self w) !! key))
  /\ (forall key x, m !! key = Some x ->
        exists spec cached,
          (key, spec) ∈ specs_task_extras_spec (_task (self w))
          /\ _latest_extras (self w) !! key = Some cached
          /\ handed_out latest_only spec cached x).
Proof.
  rewrite task_extras_run. intros Hrun.
  destruct (task_extras_loop_result _ _ _ _ _ Hrun) as [Hdom Hval]. split.
  - intros key. rewrite Hdom, lookup_empty. split; [|by right].
    intros [[? ?]|?]; done.
  - intros key x Hx. destruct (Hval key x Hx) as [Hacc|?]; [|done].
    by rewrite lookup_empty in Hacc.
Qed.

Lemma task_extras_loop_uncached (latest_only : bool)
  (items : list (string * Array)) (acc : gmap string np.ndarray) w :
  (forall key, key ∈ items.*1 -> _latest_extras (self w) !! key = None) ->
  for_fold items (task_extras_item latest_only) acc w = (Return acc, w).
Proof.
  induction items as [|[k spec] items IH]; intros Hc; [done|].
  cbn [for_fold]. unfold mbind, M_bind. rewrite task_extras_item_run.
  rewrite (Hc k) by apply list_elem_of_here. cbn [item_outcome].
  apply IH. intros key Hin. apply Hc. by apply list_elem_of_further.
Qed.

(** X13. When nothing is cached for any key of the schema,
    [task_extras()] returns the empty dictionary, in both modes: values
    cached for keys that are not in the schema are neither validated nor
    handed out. *)
Theorem X13_extras_outside_the_schema_are_dropped (latest_only : bool) w :
  (forall key, key ∈ (specs_task_extras_spec (_task (self w))).*1 ->
     _latest_extras (self w) !! key = None) ->
  task_extras latest_only w = (Return ∅, w).
Proof.
  intros Hc. rewrite task_extras_run. by apply task_extras_loop_uncached.
Qed.

(** X14. A cached value that is a 0-d array is never handed out. If the
    schema items before its key are accepted, [task_extras()] raises, in
    both modes and whatever the spec of the key: the error of the
    conversion when [astype] cannot convert the value, and otherwise
    [TypeError], at the iteration over the converted value. *)
Theorem X14_cached_scalar_raises_type_error (latest_only : bool) w
  (pre post : list (string * Array)) key (spec : Array)
  (cached : np.ndarray) (acc : gmap string np.ndarray) :
  specs_task_extras_spec (_task (self w)) = pre ++ (key, spec) :: post ->
  (for_fold pre (task_extras_item latest_only) ∅ w).1 = Return acc ->
  _latest_extras (self w) !! key = Some cached ->
  np.shape cached = [] ->
  (task_extras latest_only w).1
  = match np.astype (spec_dtype spec) cached with
    | Raise e => Raise e
    | Return _ => Raise TypeError
    end.
Proof.
  intros Hschema Hpre Hcached Hshape. rewrite task_extras_run, Hschema.
  rewrite (task_extras_upto _ _ _ _ _ _ acc Hpre).
  unfold item_outcome. rewrite Hcached.
  destruct (np.astype (spec_dtype spec) cached) as [converted|] eqn:Hconv;
    [|done].
  destruct (astype_Return _ _ _ Hconv) as [_ Hsame].
  unfold np.iter. by rewrite Hsame, Hshape.
Qed.

(** ** Steps that fail early, episodes, closed objects *)

(** X15. A step with a malformed action, on an object reached from
    construction whose reset-pending flag is clear, with no restart and
    no timeout: if the action has no ["action_type"] entry the step
    raises [KeyError], if the entry does not hold exactly one element or
    holds the value of no member it raises [ValueError]. In each case
    the coordinator has been asked only for the two checks, no counter
    has changed and nothing is executed or cached, except that the
    action is already the one [raw_action] returns. *)
Theorem X15_malformed_action_counts_nothing (task : Task) (cs : list Call)
  (a : gmap string np.ndarray) r (e : Exception) :
  should_restart r = false ->
  check_timeout r = false ->
  _reset_next_step (self (run cs (__init__ task)).2) = false ->
  action_type_of a = Raise e ->
  let w := (run cs (__init__ task)).2 in
  (e = KeyError <-> a !! "action_type" = None)
  /\ (e = KeyError \/ e = ValueError)
  /\ step a r w
     = (Raise e,
        mkWorld (set_latest_action a (self w))
                (calls w ++ [coordinator_should_restart;
                             coordinator_check_timeout])).
Proof.
  intros Hr Ht Hp Ha w. fold w in Hp.
  pose proof (reachable_present task cs) as Hd. fold w in Hd.
  rewrite step_normal_run by done. cbv zeta.
  unfold action_type_of, getitem in *.
  destruct (a !! "action_type") as [x|];
    [|injection Ha as <-; split; [done|]; split; [by left|done]].
  unfold np.item in *.
  destruct (np.data x) as [|v [|v' rest]];
    [injection Ha as <-; split; [done|]; split; [by right|done]|
    |injection Ha as <-; split; [done|]; split; [by right|done]].
  rewrite update_atomic by done. rewrite Ha.
  unfold ActionType_call in Ha. destruct (find _ ActionType); [done|].
  injection Ha as <-. split; [done|]. split; [by right|done].
Qed.

Lemma step_records_result (a : gmap string np.ndarray) r t w :
  records a r t ->
  _reset_next_step (self w) = false ->
  present (_log_dict (self w)) ->
  exists ts, (step a r w).1 = Return ts /\ step_type ts = mid_or_last r.
Proof.
  intros (Hr & Ht & [e He] & x & v & Hx & Hv & Hcall) Hp Hd.
  rewrite step_normal_run by done. cbv zeta. unfold getitem.
  rewrite Hx, Hv, (_update_log_dict_run v t _ Hcall) by done.
  rewrite He. eexists. split; [reflexivity|]. done.
Qed.

Lemma run_recorded_types (steps : list (gmap string np.ndarray * Responses))
  (ts : list EnumMember) w :
  recorded_steps steps ts ->
  _reset_next_step (self w) = false ->
  present (_log_dict (self w)) ->
  step_types (run (step_calls steps) w).1 = (fun s => mid_or_last s.2) <$> steps.
Proof.
  intros [Hrec Hend]. revert w Hend.
  induction Hrec as [|s t steps ts Hs Hrest IH]; intros w Hend Hp Hd; [done|].
  unfold step_calls. cbn [fmap list_fmap]. rewrite run_cons.
  cbn [fst perform]. fold (step_calls steps).
  unfold step_types. rewrite returned_cons.
  destruct (step_records_result s.1 s.2 t w Hs Hp Hd) as (ts0 & -> & Hty).
  cbn [fmap list_fmap]. rewrite Hty. f_equal.
  destruct (step_records_run s.1 s.2 t w Hs Hp Hd) as [Hlog Hpend].
  destruct steps as [|s' steps]; [done|].
  apply IH.
  - intros i s0 Hi Hlt. apply (Hend (S i) s0 Hi). cbn [length] in *. lia.
  - rewrite Hpend. apply (Hend 0%nat s eq_refl). cbn [length]. lia.
  - rewrite Hlog. eapply present_dom; [apply record_step_dom|done].
Qed.

(** X16. The step types of an episode. On an object reached from
    construction by any calls, a reset whose extras are not null followed
    by steps that are recorded (no restart, no timeout, a well-formed
    action, extras not null), of which only the last may end the
    episode: every call returns, the reset gives FIRST, every step but
    the last gives MID, and the last step gives LAST if the episode-end
    check answers true and MID otherwise. *)
Theorem X16_step_types_of_an_episode (task : Task) (before : list Call)
  (r0 : Responses) (steps : list (gmap string np.ndarray * Responses))
  (ts : list EnumMember) :
  is_Some (get_current_extras r0) ->
  recorded_steps steps ts ->
  let w0 := (run before (__init__ task)).2 in
  step_types (run (reset_call r0 :: step_calls steps) w0).1
  = FIRST :: ((fun s => mid_or_last s.2) <$> steps)
  /\ (forall i s, steps !! i = Some s -> (S i < length steps)%nat ->
        mid_or_last s.2 = MID).
Proof.
  intros [e He] Hsteps w0. split.
  - rewrite run_cons. cbn [fst perform]. unfold step_types.
    rewrite returned_cons.
    destruct (reset_returns r0 w0 e He) as [Hlog Hpend].
    assert (Hres : (reset r0 w0).1
                   = Return (mkTimeStep FIRST 0%Qc 0%Qc
                               (_latest_observation (self (reset r0 w0).2)))).
    { rewrite reset_run. cbv zeta. rewrite He. by destruct (execute_action r0). }
    rewrite Hres. cbn [fmap list_fmap step_type]. f_equal.
    apply (run_recorded_types steps ts); [done|done|].
    rewrite Hlog. eapply present_dom; [apply episode_zeroed_dom|].
    apply reachable_present.
  - intros i s Hi Hlt. destruct Hsteps as [_ Hend]. unfold mid_or_last.
    by rewrite (Hend i s Hi Hlt).
Qed.

Lemma perform_closed_frame (c : Call) w (b : bool) (es : list Event) :
  present (_log_dict (self w)) ->
  (perform c (mkWorld (set_is_closed b (self w)) es)).1 = (perform c w).1
  /\ self (perform c (mkWorld (set_is_closed b (self w)) es)).2
     = set_is_closed b (self (perform c w).2).
Proof.
  intros Hd. destruct c as [r|a r]; cbn [perform].
  { rewrite !reset_run. cbv zeta. env_simpl.
    by destruct (execute_action r), (get_current_extras r). }
  destruct (should_restart r) eqn:Hr.
  { rewrite !step_restart_run by done. env_simpl.
    by destruct (_ !! "restart_count"). }
  destruct (check_timeout r) eqn:Ht.
  { rewrite !step_timeout_run by done. env_simpl.
    by destruct (_ !! "reset_count_step_timeout"). }
  destruct (_reset_next_step (self w)) eqn:Hp.
  { rewrite !step_pending_run by done. rewrite !reset_run. cbv zeta. env_simpl.
    by destruct (execute_action r), (get_current_extras r). }
  rewrite !step_normal_run by done. cbv zeta.
  destruct (getitem a "action_type") as [x|]; [|done].
  destruct (np.item x) as [v|]; [|done].
  rewrite !update_atomic by done.
  destruct (ActionType_call v) as [t|]; [|done]. env_simpl.
  by destruct (execute_action r), (get_current_extras r).
Qed.

Lemma close_self w : self (close w).2 = set_is_closed true (self w).
Proof. unfold close. run_method. by destruct (_coordinator (self w)). Qed.

(** X17. [close()] does not disable the object. On an object reached from
    construction by reset/step calls, a reset or a step made after
    [close()] returns or raises exactly what it would have without the
    [close()] and leaves the same object, except that it stays marked as
    closed: no method but [__del__] reads the flag. *)
Theorem X17_reset_and_step_ignore_close (task : Task) (cs : list Call)
  (c : Call) :
  let w := (run cs (__init__ task)).2 in
  (perform c (close w).2).1 = (perform c w).1
  /\ self (perform c (close w).2).2 = set_is_closed true (self (perform c w).2).
Proof.
  intros w. pose proof (reachable_present task cs) as Hd. fold w in Hd.
  pose proof (close_self w) as Hself.
  destruct (close w).2 as [s es]. cbn [self] in Hself. subst s.
  by apply perform_closed_frame.
Qed.

(** X18. After a sequence of calls, from any state, whose last call
    returned a time step, [raw_observation] is the observation of that
    time step, and reading it changes nothing. *)
Theorem X18_raw_observation_is_last_returned (cs : list Call) w (c : Call)
  (ts : TimeStep) :
  last (run cs w).1 = Some (c, Return ts) ->
  raw_observation (run cs w).2 = (Return (observation ts), (run cs w).2).
Proof.
  intros Hlast. unfold raw_observation. run_method.
  by rewrite (run_last_observation cs w c ts Hlast).
Qed.

(** X19. A step fails late on null extras. On an object reached from
    construction whose reset-pending flag is clear, with no restart, no
    timeout and a well-formed action of type [t], a step at which the
    extras provider answers null raises [AttributeError] after the step
    has been counted and the action executed: the counters are those of
    a recorded step, the observation of the executor is cached, the task
    manager has incremented its steps; the cached extras, the
    reset-pending flag and the cached step type are as before, and the
    episode-end check is not made. *)
Theorem X19_step_fails_late_on_null_extras (task : Task) (cs : list Call)
  (a : gmap string np.ndarray) r t :
  should_restart r = false ->
  check_timeout r = false ->
  get_current_extras r = None ->
  action_type_of a = Return t ->
  _reset_next_step (self (run cs (__init__ task)).2) = false ->
  let w := (run cs (__init__ task)).2 in
  let w' := (step a r w).2 in
  (step a r w).1 = Raise AttributeError
  /\ _log_dict (self w') = record_step t (_log_dict (self w))
  /\ _latest_observation (self w')
     = match execute_action r with
       | Some o => o
       | None => _latest_observation (self w)
       end
  /\ _latest_extras (self w') = _latest_extras (self w)
  /\ _reset_next_step (self w') = false
  /\ _latest_step_type (self w') = _latest_step_type (self w)
  /\ calls w'
     = calls w ++ [coordinator_should_restart; coordinator_check_timeout;
                   task_manager_increment_steps;
                   coordinator_execute_action (Some a);
                   task_manager_get_current_reward;
                   task_manager_get_current_extras].
Proof.
  intros Hr Ht He Ha Hp w w'. subst w'. fold w in Hp.
  pose proof (reachable_present task cs) as Hd. fold w in Hd.
  rewrite step_normal_run by done. cbv zeta. unfold action_type_of in Ha.
  destruct (getitem a "action_type") as [x|]; [|done].
  destruct (np.item x) as [v|]; [|done].
  rewrite (_update_log_dict_run v t _ Ha) by done. rewrite He.
  destruct (execute_action r); env_simpl; rewrite <- ?app_assoc;
    repeat split; done.
Qed.

Lemma increment_calls_app (es es' : list Event) :
  increment_calls (es ++ es') = (increment_calls es + increment_calls es')%nat.
Proof. unfold increment_calls. by rewrite List.filter_app, length_app. Qed.

Lemma record_step_total_steps t d :
  record_step t d !! steps_key "androidenv_total"
  = (fun v => (v + 1)%Qc) <$> d !! steps_key "androidenv_total".
Proof.
  rewrite record_step_lookup, decide_True; [done|]. apply list_elem_of_here.
Qed.

Lemma perform_total_steps (c : Call) w (x : Qc) :
  present (_log_dict (self w)) ->
  _log_dict (self w) !! steps_key "androidenv_total" = Some x ->
  exists b : bool,
    _log_dict (self (perform c w).2) !! steps_key "androidenv_total"
    = Some (if b then (x + 1)%Qc else x)
    /\ increment_calls (calls (perform c w).2)
       = (increment_calls (calls w) + if b then 1 else 0)%nat.
Proof.
  intros Hd Hx.
  assert (Hreset : forall r w0,
    _log_dict (self w0) !! steps_key "androidenv_total" = Some x ->
    _log_dict (self (reset r w0).2) !! steps_key "androidenv_total" = Some x
    /\ increment_calls (calls (reset r w0).2) = increment_calls (calls w0)).
  { intros r w0 Hx0. rewrite reset_run. cbv zeta.
    destruct (execute_action r), (get_current_extras r); env_simpl;
      rewrite episode_zeroed_lookup, total_prefix_steps, ?increment_calls_app;
      (split; [done|cbn; lia]). }
  destruct c as [r|a r]; cbn [perform].
  { exists false. destruct (Hreset r w Hx) as [-> ->]. split; [done|lia]. }
  destruct (should_restart r) eqn:Hr.
  { exists false. rewrite step_restart_run by done.
    destruct (_ !! "restart_count"); env_simpl;
      rewrite ?lookup_insert_ne by done; rewrite increment_calls_app;
      (split; [done|cbn; lia]). }
  destruct (check_timeout r) eqn:Ht.
  { exists false. rewrite step_timeout_run by done.
    destruct (_ !! "reset_count_step_timeout"); env_simpl;
      rewrite ?lookup_insert_ne by done; rewrite increment_calls_app;
      (split; [done|cbn; lia]). }
  destruct (_reset_next_step (self w)) eqn:Hp.
  { exists false. rewrite step_pending_run by done.
    match goal with |- context [reset r ?w0] =>
      destruct (Hreset r w0 Hx) as [-> ->] end.
    env_simpl. rewrite increment_calls_app. split; [done|cbn; lia]. }
  rewrite step_normal_run by done. cbv zeta.
  destruct (getitem a "action_type") as [y|];
    [|exists false; env_simpl; rewrite increment_calls_app;
      split; [done|cbn; lia]].
  destruct (np.item y) as [v|];
    [|exists false; env_simpl; rewrite increment_calls_app;
      split; [done|cbn; lia]].
  rewrite update_atomic by done.
  destruct (ActionType_call v) as [t|];
    [|exists false; env_simpl; rewrite increment_calls_app;
      split; [done|cbn; lia]].
  exists true.
  destruct (execute_action r), (get_current_extras r); env_simpl;
    rewrite record_step_total_steps, Hx, !increment_calls_app;
    (split; [done|cbn; lia]).
Qed.

(** X20. The lifetime step counter agrees with the task manager. On
    every object reached from construction by reset/step calls, whatever
    they returned or raised, ["androidenv_total_steps"] is the number of
    times the task manager was told to increment its steps. *)
Theorem X20_total_steps_match_increment_steps (task : Task) (cs : list Call) :
  let w := (run cs (__init__ task)).2 in
  _log_dict (self w) !! steps_key "androidenv_total"
  = Some (Qc_of_nat (increment_calls (calls w))).
Proof.
  induction cs as [|c cs IH] using rev_ind; intros w; subst w.
  - cbn [run snd __init__ self _log_dict calls]. rewrite init_log_dict_lookup.
    rewrite decide_True by (apply elem_of_counter_keys; tauto).
    unfold increment_calls. cbn [List.filter length]. by rewrite Qc_of_nat_0.
  - cbv zeta in IH. rewrite run_app, run_cons. cbn [run snd].
    destruct (perform_total_steps c (run cs (__init__ task)).2 _
                (reachable_present task cs) IH) as (b & -> & ->).
    destruct b; by rewrite ?Nat.add_1_r, ?Nat.add_0_r, ?Qc_of_nat_S.
Qed.

End Properties.

(** * The claims on the concrete instance *)

Section Instances.
Import Sample.

Lemma sample_names_distinct : NoDup (name <$> [TOUCH; LIFT; REPEAT]).
Proof.
  cbn [fmap list_fmap].
  repeat (apply NoDup_cons_2;
          [intros Hin;
           repeat (apply elem_of_cons in Hin as [Hin|Hin];
                   [discriminate Hin|]);
           by apply elem_of_nil in Hin|]).
  apply NoDup_nil_2.
Qed.

Lemma sample_no_ratio_names : @no_ratio_names numpy components.
Proof.
  intros t t' Ht Ht'. apply list_elem_of_In in Ht, Ht'. cbn in Ht, Ht'.
  destruct Ht as [<-|[<-|[<-|[]]]], Ht' as [<-|[<-|[<-|[]]]];
    discriminate.
Qed.



(** C2 on the object just constructed, whose reset-pending flag is set:
    the first step gives what a reset gives. *)
Lemma C2_witness_first_step_resets :
  (step touch quiet (constructed [])).1 = (reset quiet (constructed [])).1
  /\ self (step touch quiet (constructed [])).2
     = self (reset quiet (constructed [])).2.
Proof.
  destruct (C2_pending_step_is_reset touch quiet (constructed [])
              eq_refl eq_refl eq_refl) as (Hres & Hself & _).
  by split.
Defined.

(** C3 after one reset that cached the screen 7: a step at which a
    restart is due returns that screen with LAST, reward 0, discount 0. *)
Lemma C3_witness_restart_after_reset :
  (step touch restarting (run [reset_call quiet] (constructed [])).2).1
  = Return (mkTimeStep LAST 0%Qc 0%Qc (screen 7)).
Proof.
  destruct (@C3_restart_returns_cached_observation numpy components
              [] [reset_call quiet] touch restarting eq_refl)
    as (v & _ & Hstep & _).
  unfold constructed. rewrite Hstep. cbn [fst].
  f_equal; vm_compute; reflexivity.
Defined.

(** C4 as stated fails. With a null answer of the extras provider neither
    reset nor step carries on with the cached extras, as they do with
    the cached observation when the executor answers null: both raise.
    And the extras are replaced also when the executor answered null. *)
Lemma C4_counterexample_null_extras :
  (reset no_extras (constructed [])).1 = Raise AttributeError
  /\ (step touch no_extras (reset quiet (constructed [])).2).1
     = Raise AttributeError
  /\ (reset (providing ∅) (constructed [])).1
     = Return (mkTimeStep FIRST 0%Qc 0%Qc ∅)
  /\ _latest_extras
       (self (reset (providing {[ "score" := vector uint8 [1] ]})
                    (constructed [])).2)
     = {[ "score" := vector uint8 [1] ]}.
Proof. repeat split; vm_compute; reflexivity. Qed.

(** C4 at a reset whose extras provider answers null. *)
Lemma C4_witness_reset_without_extras :
  (reset no_extras (constructed [])).1 = Raise AttributeError
  /\ _latest_extras (self (reset no_extras (constructed [])).2)
     = _latest_extras (self (constructed [])).
Proof.
  destruct (C4_cached_observation_guarded_extras_not
              (reset_call no_extras) (constructed []))
    as (new & Hcalls & _ & _ & _ & Hextras).
  apply Hextras.
  assert (Hnew :
    calls (perform (reset_call no_extras) (constructed [])).2
    = calls (constructed [])
      ++ [logging_info "Resetting AndroidEnv."; coordinator_reset;
          coordinator_execute_action None; task_manager_get_current_extras])
    by (vm_compute; reflexivity).
  rewrite Hnew in Hcalls. apply app_inv_head in Hcalls as <-.
  do 3 apply list_elem_of_further. apply list_elem_of_here.
Defined.

(** C5 as stated fails: two invocations of [close()] reach the
    coordinator twice. *)
Lemma C5_counterexample_close_twice :
  close_calls (calls (times 2 close (constructed [])).2) = 2%nat
  /\ close_calls (calls (times 2 close (constructed [])).2) <> 1%nat.
Proof. split; [vm_compute; reflexivity|vm_compute; discriminate]. Qed.

(** C5 on the object just constructed, closed three times. *)
Lemma C5_witness_close_three_times :
  (times 3 close (constructed [])).1 = Return tt
  /\ close_calls (calls (times 3 close (constructed [])).2) = 3%nat.
Proof.
  destruct (C5_close_reaches_coordinator_every_time 3 (constructed [])
              eq_refl) as (Hres & Hcount & _).
  split; [exact Hres|exact Hcount].
Defined.



(** What numpy does in the sample where the conversion or the derived
    dtype matters: a Python integer that does not fit is not converted,
    and the rows of an array of objects, which are Python integers, do
    not have the dtype [object] that a schema of objects asks for. *)
Lemma sample_objects_are_not_handed_out :
  (task_extras false (scored {[ "score" := vector object_ [300] ]})).1
  = Raise OverflowError
  /\ (task_extras false
        (reset (providing {[ "note" := vector object_ [1; 2] ]})
               (constructed [("note", mkArray [] object_ None)])).2).1
     = Raise SchemaViolation.
Proof. split; vm_compute; reflexivity. Qed.

(** C10 as stated fails when an earlier schema key is rejected first: the
    cached "score" has no rows, but "level", which comes first, is out of
    bounds, and the call ends in a SchemaViolation, not in an
    [IndexError]. *)
Lemma C10_counterexample_earlier_key_rejected :
  _latest_extras
    (self (reset (providing {[ "score" := vector uint8 [];
                               "level" := vector uint8 [200] ]})
                 (constructed two_extras_task)).2) !! "score"
  = Some (vector uint8 [])
  /\ (task_extras true
        (reset (providing {[ "score" := vector uint8 [];
                             "level" := vector uint8 [200] ]})
               (constructed two_extras_task)).2).1
     = Raise SchemaViolation
  /\ SchemaViolation <> IndexError.
Proof.
  split; [vm_compute; reflexivity|]. split; [vm_compute; reflexivity|].
  discriminate.
Qed.

(** C10 after a reset whose extras provider returned an array without
    rows for the only schema key. *)
Lemma C10_witness_empty_score :
  (task_extras true
     (reset (providing {[ "score" := vector uint8 [] ]})
            (constructed score_task)).2).1
  = Raise IndexError.
Proof.
  assert (Hschema :
    specs_task_extras_spec
      (_task (self (reset (providing {[ "score" := vector uint8 [] ]})
                          (constructed score_task)).2))
    = [] ++ [("score", score_spec)]) by (vm_compute; reflexivity).
  assert (Hcached :
    _latest_extras
      (self (reset (providing {[ "score" := vector uint8 [] ]})
                   (constructed score_task)).2) !! "score"
    = Some (vector uint8 [])) by (vm_compute; reflexivity).
  destruct (C10_no_rows_raises_index_error
              (reset (providing {[ "score" := vector uint8 [] ]})
                     (constructed score_task)).2
              [] [] "score" score_spec (vector uint8 []) ∅ []
              Hschema eq_refl Hcached eq_refl) as [Hraise _].
  exact Hraise.
Defined.

(** C8 on a fresh object: a reset, then the steps TOUCH, LIFT, TOUCH, the
    last of which ends the episode, and a coordinator without log
    entries: three steps; the ratio of TOUCH is the double nearest to two
    thirds, 6004799503160661 / 2 ^ 53, which Python prints as
    0.6666666666666666; the ratios add up to 1 within [2 ^ -53]. *)
Lemma C8_witness_touch_lift_touch :
  exists out,
    (android_logs quiet
       (run ([] ++ reset_call quiet
                :: step_calls [(touch, quiet); (lift_, quiet); (touch, ending)])
            (constructed [])).2).1 = Return out
    /\ out !! steps_key "androidenv_episode" = Some (Qc_of_nat 3)
    /\ out !! ratio_key "androidenv_episode" TOUCH
       = Some (Q2Qc (6004799503160661 # 9007199254740992))
    /\ (1 - float.unit_roundoff
        <= sum_Qc (@ratios numpy components "androidenv_episode" out))%Qc
    /\ (sum_Qc (@ratios numpy components "androidenv_episode" out)
        <= 1 + float.unit_roundoff)%Qc.
Proof.
  assert (Htouch : forall r, should_restart r = false ->
            check_timeout r = false -> is_Some (get_current_extras r) ->
            records touch r TOUCH).
  { intros r ? ? ?. repeat split; try done.
    exists (number object_ 0), 0. by repeat split. }
  assert (Hlift : records lift_ quiet LIFT).
  { repeat split; try done. exists (number object_ 1), 1. by repeat split. }
  assert (Hsteps : recorded_steps
                     [(touch, quiet); (lift_, quiet); (touch, ending)]
                     [TOUCH; LIFT; TOUCH]).
  { split.
    - constructor; [by apply Htouch|].
      constructor; [exact Hlift|].
      constructor; [by apply Htouch|]. constructor.
    - intros i s Hi Hlt. destruct i as [|[|i]]; cbn in Hi, Hlt;
        [by injection Hi as <-|by injection Hi as <-|lia]. }
  assert (Hdisj : dom (log_dict quiet) ## dom (@init_log_dict numpy components)).
  { cbn [log_dict quiet]. rewrite dom_empty_L. apply disjoint_empty_l. }
  assert (Hbound : (Z.of_nat 3 < 2 ^ 53)%Z) by reflexivity.
  destruct (@C8_flush_reports_steps_and_ratios numpy components
              [] [] quiet [(touch, quiet); (lift_, quiet); (touch, ending)]
              [TOUCH; LIFT; TOUCH] quiet
              sample_names_distinct sample_no_ratio_names
              (mk_is_Some _ _ eq_refl) Hsteps Hdisj Hbound)
    as (out & Hflush & Hcount & Hratios & _).
  destruct (Hratios ltac:(discriminate)) as (Hratio & Hlow & Hhigh).
  exists out. split; [exact Hflush|]. split; [exact Hcount|].
  split; [|by split].
  destruct (Hratio TOUCH (list_elem_of_here _ _)) as [Hq _].
  rewrite Hq. apply (f_equal Some). vm_compute. reflexivity.
Defined.

(** ** Instances of the further properties *)

(** The casts of the sample are the modular ones. *)
Lemma sample_wrap_is_modular (x : Z) :
  wrap uint8 x = x mod 256 /\ wrap int8 x = (x + 128) mod 256 - 128.
Proof.
  assert (Hland : forall y, Z.land y 255 = y mod 256).
  { intros y. change 255 with (Z.ones 8). by rewrite Z.land_ones by lia. }
  unfold wrap. by rewrite !Hland.
Qed.

(** On the sample operands the division of the model is the IEEE 754
    division of the Standard Library's specification of doubles. *)
Lemma sample_truediv_is_SFdiv :
  forallb (fun p => agrees_with_SFdiv p.1 p.2) operands = true.
Proof. vm_compute. reflexivity. Qed.

Lemma sample_touch_records (r : Responses) :
  should_restart r = false -> check_timeout r = false ->
  is_Some (get_current_extras r) -> records touch r TOUCH.
Proof.
  intros ? ? ?. repeat split; try done.
  exists (number object_ 0), 0. by repeat split.
Qed.

Lemma sample_reset_clears_pending :
  _reset_next_step (self (run [reset_call quiet] (constructed [])).2) = false.
Proof. vm_compute. reflexivity. Qed.

(** X1 after one reset that cached the screen 7: a step that has timed
    out returns that screen with LAST, reward 0, discount 0. *)
Lemma X1_witness_timeout_after_reset :
  (step touch timing_out (run [reset_call quiet] (constructed [])).2).1
  = Return (mkTimeStep LAST 0%Qc 0%Qc (screen 7)).
Proof.
  destruct (@X1_timeout_returns_cached_observation numpy components
              [] [reset_call quiet] touch timing_out eq_refl eq_refl)
    as (v & _ & Hstep & _).
  unfold constructed. rewrite Hstep. cbn [fst].
  f_equal; vm_compute; reflexivity.
Defined.

(** X2 after one reset: a TOUCH step with quiet collaborators returns MID
    with the reward 1, discount 1 and the screen of the executor. *)
Lemma X2_witness_touch_after_reset :
  (step touch quiet (run [reset_call quiet] (constructed [])).2).1
  = Return (mkTimeStep MID 1%Qc 1%Qc (screen 7)).
Proof.
  destruct (@X2_carried_out_step numpy components
              [] [reset_call quiet] touch quiet TOUCH
              (sample_touch_records quiet eq_refl eq_refl
                 (mk_is_Some _ _ eq_refl))
              sample_reset_clears_pending)
    as (e & _ & Hres & _).
  exact Hres.
Defined.

(** X8 after a reset and one TOUCH step: the episode step counter is the
    sum of the three episode action-type counters. *)
Lemma X8_witness_reset_and_touch :
  _log_dict (self (run [reset_call quiet; step_call touch quiet]
                       (constructed [])).2) !! steps_key "androidenv_episode"
  = Some (sum_Qc (type_counts "androidenv_episode"
                    (_log_dict (self (run [reset_call quiet;
                                           step_call touch quiet]
                                          (constructed [])).2)))).
Proof.
  apply (@X8_steps_are_sum_of_action_types numpy components
           [] [reset_call quiet; step_call touch quiet] "androidenv_episode"
           sample_names_distinct).
  apply list_elem_of_further, list_elem_of_here.
Defined.

(** X9 after a reset, a TOUCH step and a step at which a restart was
    due: the flush returns, and if the lifetime step count is not 0 and
    below [2 ^ 53], the lifetime ratios add up to 1 within [2 ^ -53]. *)
Lemma X9_witness_flush_after_restart :
  exists out (steps : nat),
    (android_logs quiet
       (run [reset_call quiet; step_call touch quiet;
             step_call touch restarting] (constructed [])).2).1 = Return out
    /\ out !! steps_key "androidenv_total" = Some (Qc_of_nat steps)
    /\ (steps <> 0%nat -> (Z.of_nat steps < 2 ^ 53)%Z ->
        (1 - float.unit_roundoff
         <= sum_Qc (@ratios numpy components "androidenv_total" out))%Qc
        /\ (sum_Qc (@ratios numpy components "androidenv_total" out)
            <= 1 + float.unit_roundoff)%Qc).
Proof.
  assert (Hdisj : dom (log_dict quiet) ## dom (@init_log_dict numpy components)).
  { cbn [log_dict quiet]. rewrite dom_empty_L. apply disjoint_empty_l. }
  destruct (@X9_flush_on_any_reachable_object numpy components
              [] [reset_call quiet; step_call touch quiet;
                  step_call touch restarting] quiet "androidenv_total"
              sample_names_distinct sample_no_ratio_names Hdisj
              (list_elem_of_here _ _))
    as (out & steps & Hret & _ & Hsteps & Hnz & _).
  exists out, steps. split; [exact Hret|]. split; [exact Hsteps|].
  intros Hne Hbound. destruct (Hnz Hne) as [_ Hsum]. by apply Hsum.
Defined.

(** X12 on a cached pair of bytes for "score": the last row is handed
    out. *)
Lemma X12_witness_last_score :
  exists spec cached,
    ("score", spec) ∈ score_task
    /\ _latest_extras (self (scored {[ "score" := vector uint8 [3; 4] ]}))
       !! "score" = Some cached
    /\ handed_out true spec cached (number uint8 4).
Proof.
  assert (Hrun :
    (task_extras true (scored {[ "score" := vector uint8 [3; 4] ]})).1
    = Return {[ "score" := number uint8 4 ]}) by (vm_compute; reflexivity).
  destruct (X12_task_extras_hands_out_schema_keys true
              (scored {[ "score" := vector uint8 [3; 4] ]})
              {[ "score" := number uint8 4 ]} Hrun) as [_ Hval].
  exact (Hval "score" (number uint8 4) eq_refl).
Defined.

(** X13 on a cache that holds a value for "bonus" only, under the schema
    with the one key "score". *)
Lemma X13_witness_bonus_is_dropped :
  task_extras true (scored {[ "bonus" := vector uint8 [1] ]})
  = (Return ∅, scored {[ "bonus" := vector uint8 [1] ]}).
Proof.
  apply X13_extras_outside_the_schema_are_dropped. intros key Hin.
  assert (Hschema :
    (specs_task_extras_spec
       (_task (self (scored {[ "bonus" := vector uint8 [1] ]})))).*1
    = ["score"]) by (vm_compute; reflexivity).
  rewrite Hschema in Hin. clear Hschema.
  apply elem_of_cons in Hin as [Hkey|Hin];
    [|apply elem_of_nil in Hin; destruct Hin].
  subst key. vm_compute. reflexivity.
Defined.

(** X14 on a cached 0-d array for "score": the byte is converted, and
    the iteration over the converted value raises. *)
Lemma X14_witness_scalar_score :
  (task_extras false (scored {[ "score" := number uint8 5 ]})).1
  = Raise TypeError.
Proof.
  assert (Hschema :
    specs_task_extras_spec
      (_task (self (scored {[ "score" := number uint8 5 ]})))
    = [] ++ [("score", score_spec)]) by (vm_compute; reflexivity).
  assert (Hcached :
    _latest_extras (self (scored {[ "score" := number uint8 5 ]})) !! "score"
    = Some (number uint8 5)) by (vm_compute; reflexivity).
  assert (Hconv :
    np.astype (spec_dtype score_spec) (number uint8 5)
    = Return (number uint8 5)) by (vm_compute; reflexivity).
  pose proof (X14_cached_scalar_raises_type_error false
                (scored {[ "score" := number uint8 5 ]})
                [] [] "score" score_spec (number uint8 5) ∅
                Hschema eq_refl Hcached eq_refl) as Hraise.
  rewrite Hconv in Hraise. exact Hraise.
Defined.

(** X15 after one reset, with an action that has no "action_type". *)
Lemma X15_witness_empty_action :
  (step ∅ quiet (run [reset_call quiet] (constructed [])).2).1
  = Raise KeyError.
Proof.
  assert (Ha : @action_type_of numpy components ∅ = Raise KeyError)
    by (vm_compute; reflexivity).
  destruct (@X15_malformed_action_counts_nothing numpy components
              [] [reset_call quiet] ∅ quiet KeyError eq_refl eq_refl
              sample_reset_clears_pending Ha) as (_ & _ & Hstep).
  unfold constructed. by rewrite Hstep.
Defined.

(** X16 on a fresh object: a reset, a TOUCH step and a TOUCH step that
    ends the episode give FIRST, MID, LAST. *)
Lemma X16_witness_first_mid_last :
  step_types (run (reset_call quiet
                     :: step_calls [(touch, quiet); (touch, ending)])
                  (run [] (constructed [])).2).1
  = [FIRST; MID; LAST].
Proof.
  assert (Hsteps : recorded_steps [(touch, quiet); (touch, ending)]
                                  [TOUCH; TOUCH]).
  { split.
    - constructor; [by apply sample_touch_records|].
      constructor; [by apply sample_touch_records|]. constructor.
    - intros i s Hi Hlt. destruct i as [|[|i]]; cbn in Hi, Hlt;
        [by injection Hi as <-|lia|lia]. }
  destruct (@X16_step_types_of_an_episode numpy components
              [] [] quiet [(touch, quiet); (touch, ending)] [TOUCH; TOUCH]
              (mk_is_Some _ _ eq_refl) Hsteps) as [Htypes _].
  exact Htypes.
Defined.

(** X18 after one reset that returned the screen 7. *)
Lemma X18_witness_screen_after_reset :
  raw_observation (run [reset_call quiet] (constructed [])).2
  = (Return (screen 7), (run [reset_call quiet] (constructed [])).2).
Proof.
  assert (Hlast :
    last (run [reset_call quiet] (constructed [])).1
    = Some (reset_call quiet, Return (mkTimeStep FIRST 0%Qc 0%Qc (screen 7))))
    by (vm_compute; reflexivity).
  exact (X18_raw_observation_is_last_returned
           [reset_call quiet] (constructed []) (reset_call quiet)
           (mkTimeStep FIRST 0%Qc 0%Qc (screen 7)) Hlast).
Defined.

(** X19 after one reset: a TOUCH step at which the extras provider
    answers null raises after the step has been counted. *)
Lemma X19_witness_touch_without_extras :
  (step touch no_extras (run [reset_call quiet] (constructed [])).2).1
  = Raise AttributeError
  /\ _log_dict (self (step touch no_extras
                        (run [reset_call quiet] (constructed [])).2).2)
     = record_step TOUCH
         (_log_dict (self (run [reset_call quiet] (constructed [])).2)).
Proof.
  assert (Ha : @action_type_of numpy components touch = Return TOUCH)
    by (vm_compute; reflexivity).
  destruct (@X19_step_fails_late_on_null_extras numpy components
              [] [reset_call quiet] touch no_extras TOUCH
              eq_refl eq_refl eq_refl Ha sample_reset_clears_pending)
    as (Hres & Hlog & _).
  split; [exact Hres|exact Hlog].
Defined.

End Instances.
